(** * vmdecrypt: the per-channel MPEG-TS descrambling engine

    A shallow embedding of [vmdecrypt.go]: the RTP framer ([parseRTP]), the
    PSI walker ([processPacket], [parseEcmPid]), the ECM processor
    ([processECM]), the TS descrambler ([decryptPacket]), the datagram loop
    ([processRTP]) and the ring fan-out ([addToBuf], [currentPtr], [nextPtr],
    [closeBuf]).

    Bytes are integers in [Z]; the fixed-width arithmetic of Go ([uint8],
    [uint16]) is written out with explicit [mod].  A Go slice is modelled
    with its length and its capacity, because slicing is checked against the
    capacity while indexing is checked against the length. *)

From Stdlib Require Import ZArith List Bool Lia.
From Stdlib Require String Ascii.
Import ListNotations.
Local Open Scope Z_scope.

(** ** crypto/aes

    [aes.NewCipher] and [cipher.Block.Decrypt] of the Go standard library
    compute the inverse cipher of FIPS-197.  The functions below follow the
    standard (key expansion of section 5.2, inverse cipher of section 5.3)
    and are checked against its Appendix C vectors further down. *)
Module aes.

Definition BlockSize : nat := 16.

(** Multiplication by x in GF(2^8) modulo x^8 + x^4 + x^3 + x + 1. *)
Definition xtime (a : Z) : Z :=
  if Z.testbit a 7
  then Z.lxor (Z.land (Z.shiftl a 1) 255) 27
  else Z.shiftl a 1.

Fixpoint gmul_loop (n : nat) (a b acc : Z) : Z :=
  match n with
  | O => acc
  | S n' =>
      gmul_loop n' (xtime a) (Z.shiftr b 1)
                (if Z.odd b then Z.lxor acc a else acc)
  end.

Definition gmul (a b : Z) : Z := gmul_loop 8 a b 0.

Fixpoint gpow (a : Z) (n : nat) : Z :=
  match n with
  | O => 1
  | S n' => gmul a (gpow a n')
  end.

(** The multiplicative inverse, with 0 mapped to 0. *)
Definition ginv (a : Z) : Z := gpow a 254.

Definition rotl8 (x : Z) (k : Z) : Z :=
  Z.land (Z.lor (Z.shiftl x k) (Z.shiftr x (8 - k))) 255.

Definition sbox_of (a : Z) : Z :=
  let b := ginv a in
  Z.lxor b (Z.lxor (rotl8 b 1) (Z.lxor (rotl8 b 2)
    (Z.lxor (rotl8 b 3) (Z.lxor (rotl8 b 4) 99)))).

Definition bytes256 : list Z := map Z.of_nat (seq 0 256).

Definition sbox : list Z := Eval vm_compute in map sbox_of bytes256.

Fixpoint index_of (y : Z) (l : list Z) (i : Z) : Z :=
  match l with
  | [] => 0
  | x :: l' => if Z.eqb x y then i else index_of y l' (i + 1)
  end.

Definition inv_sbox : list Z :=
  Eval vm_compute in map (fun y => index_of y sbox 0) bytes256.

Definition SubByte (b : Z) : Z := nth (Z.to_nat b) sbox 0.
Definition InvSubByte (b : Z) : Z := nth (Z.to_nat b) inv_sbox 0.

(** *** Key expansion (FIPS-197, 5.2) *)

Definition word := list Z.

Definition xor_word (a b : word) : word :=
  map (fun i => Z.lxor (nth i a 0) (nth i b 0)) (seq 0 4).

Definition RotWord (w : word) : word :=
  [nth 1 w 0; nth 2 w 0; nth 3 w 0; nth 0 w 0].

Definition SubWord (w : word) : word := map SubByte w.

Definition Rcon (j : nat) : word := [gpow 2 (j - 1); 0; 0; 0].

(** [ws] holds the words produced so far, newest first. *)
Fixpoint expand_loop (Nk : nat) (n : nat) (i : nat) (ws : list word)
  : list word :=
  match n with
  | O => ws
  | S n' =>
      let temp := nth 0 ws [] in
      let temp :=
        if Nat.eqb (Nat.modulo i Nk) 0
        then xor_word (SubWord (RotWord temp)) (Rcon (Nat.div i Nk))
        else if andb (Nat.ltb 6 Nk) (Nat.eqb (Nat.modulo i Nk) 4)
             then SubWord temp
             else temp in
      let w := xor_word (nth (Nk - 1) ws []) temp in
      expand_loop Nk n' (S i) (w :: ws)
  end.

Fixpoint words_of (n : nat) (key : list Z) : list word :=
  match n with
  | O => []
  | S n' => firstn 4 key :: words_of n' (skipn 4 key)
  end.

Fixpoint group4 (n : nat) (ws : list word) : list (list Z) :=
  match n with
  | O => []
  | S n' =>
      (nth 3 ws [] ++ nth 2 ws [] ++ nth 1 ws [] ++ nth 0 ws [])
        :: group4 n' (skipn 4 ws)
  end.

(** The cipher object: the round keys in the order the inverse cipher uses
    them, the key of round Nr first and the key of round 0 last. *)
Definition Block := list (list Z).

Definition expandKey (key : list Z) : Block :=
  let Nk := Nat.div (length key) 4 in
  let Nr := (Nk + 6)%nat in
  let total := (4 * (Nr + 1))%nat in
  group4 (S Nr) (expand_loop Nk (total - Nk) Nk (rev (words_of Nk key))).

(** [aes.NewCipher]: a [KeySizeError] (here [None]) unless the key has 16,
    24 or 32 bytes. *)
Definition NewCipher (key : list Z) : option Block :=
  match length key with
  | 16%nat | 24%nat | 32%nat => Some (expandKey key)
  | _ => None
  end.

(** *** Inverse cipher (FIPS-197, 5.3) *)

Definition AddRoundKey (s k : list Z) : list Z :=
  map (fun i => Z.lxor (nth i s 0) (nth i k 0)) (seq 0 16).

Definition InvShiftRows (s : list Z) : list Z :=
  map (fun i => nth i s 0)
      [0; 13; 10; 7; 4; 1; 14; 11; 8; 5; 2; 15; 12; 9; 6; 3]%nat.

Definition InvSubBytes (s : list Z) : list Z := map InvSubByte s.

Definition inv_mix_column (a0 a1 a2 a3 : Z) : list Z :=
  [ Z.lxor (gmul 14 a0) (Z.lxor (gmul 11 a1) (Z.lxor (gmul 13 a2) (gmul 9 a3)));
    Z.lxor (gmul 9 a0) (Z.lxor (gmul 14 a1) (Z.lxor (gmul 11 a2) (gmul 13 a3)));
    Z.lxor (gmul 13 a0) (Z.lxor (gmul 9 a1) (Z.lxor (gmul 14 a2) (gmul 11 a3)));
    Z.lxor (gmul 11 a0) (Z.lxor (gmul 13 a1) (Z.lxor (gmul 9 a2) (gmul 14 a3))) ].

Definition InvMixColumns (s : list Z) : list Z :=
  flat_map (fun c => inv_mix_column (nth (4 * c) s 0) (nth (4 * c + 1) s 0)
                                    (nth (4 * c + 2) s 0) (nth (4 * c + 3) s 0))
           (seq 0 4).

Definition inv_round (s k : list Z) : list Z :=
  InvMixColumns (AddRoundKey (InvSubBytes (InvShiftRows s)) k).

(** Decryption of one 16-byte block. *)
Definition DecryptBlock (c : Block) (src : list Z) : list Z :=
  match c with
  | [] => AddRoundKey src []
  | kNr :: ks =>
      let s := AddRoundKey src kNr in
      let s := fold_left inv_round (removelast ks) s in
      AddRoundKey (InvSubBytes (InvShiftRows s)) (last ks [])
  end.

End aes.

(** ** encoding/hex *)
Module hex.

Inductive error :=
| InvalidByteError (c : Ascii.ascii)
| ErrLength.

(** [reverseHexTable]: the value of a hexadecimal digit, [None] for the
    entries holding 0xff. *)
Definition fromHexChar (c : Ascii.ascii) : option Z :=
  let n := Z.of_nat (Ascii.nat_of_ascii c) in
  if (48 <=? n) && (n <=? 57) then Some (n - 48)
  else if (97 <=? n) && (n <=? 102) then Some (n - 97 + 10)
  else if (65 <=? n) && (n <=? 70) then Some (n - 65 + 10)
  else None.

(** [hex.Decode]: the bytes decoded before the first error, and the error. *)
Fixpoint Decode (src : list Ascii.ascii) : list Z * option error :=
  match src with
  | [] => ([], None)
  | [p] =>
      match fromHexChar p with
      | None => ([], Some (InvalidByteError p))
      | Some _ => ([], Some ErrLength)
      end
  | p :: q :: rest =>
      match fromHexChar p with
      | None => ([], Some (InvalidByteError p))
      | Some a =>
          match fromHexChar q with
          | None => ([], Some (InvalidByteError q))
          | Some b =>
              let (bs, e) := Decode rest in
              (Z.lor (Z.shiftl a 4) b :: bs, e)
          end
      end
  end.

Definition DecodeString (s : String.string) : list Z * option error :=
  Decode (String.list_ascii_of_string s).

End hex.

(** ** Slices

    A slice as the code holding it sees it: [elems] are the [len] bytes that
    can be indexed, [spare] the bytes of the backing array between [len] and
    [cap], which a slice expression can bring back into view. *)
Record slice := mkSlice { elems : list Z; spare : list Z }.

Definition len (s : slice) : Z := Z.of_nat (length (elems s)).
Definition cap (s : slice) : Z :=
  Z.of_nat (length (elems s) + length (spare s)).
Definition backing (s : slice) : list Z := elems s ++ spare s.

(** [s[i]]: checked against [len]. *)
Definition index (s : slice) (i : Z) : option Z :=
  if (0 <=? i) && (i <? len s) then nth_error (elems s) (Z.to_nat i)
  else None.

(** [s[lo:hi]]: checked against [cap]. *)
Definition slice_range (s : slice) (lo hi : Z) : option slice :=
  if (0 <=? lo) && (lo <=? hi) && (hi <=? cap s)
  then Some {| elems := firstn (Z.to_nat (hi - lo))
                               (skipn (Z.to_nat lo) (backing s));
               spare := skipn (Z.to_nat hi) (backing s) |}
  else None.

(** [s[lo:]]: the upper bound is [len s]. *)
Definition slice_from (s : slice) (lo : Z) : option slice :=
  if (0 <=? lo) && (lo <=? len s)
  then Some {| elems := skipn (Z.to_nat lo) (elems s); spare := spare s |}
  else None.

(** [s[:hi]]. *)
Definition slice_to (s : slice) (hi : Z) : option slice := slice_range s 0 hi.

(** [binary.BigEndian.Uint16]: [uint16(b[1]) | uint16(b[0])<<8]. *)
Definition u16be (b0 b1 : Z) : Z := Z.lor b1 (Z.shiftl b0 8).

Definition Uint16 (b : slice) : option Z :=
  match index b 1, index b 0 with
  | Some b1, Some b0 => Some (u16be b0 b1)
  | _, _ => None
  end.

(** [cipher.Block.Decrypt(dst, src)] on a cipher that was created: the new
    contents of [dst], or [None] for the panic on a short block. *)
Definition Decrypt (c : aes.Block) (dst src : list Z) : option (list Z) :=
  if (length src <? aes.BlockSize)%nat then None
  else if (length dst <? aes.BlockSize)%nat then None
  else Some (aes.DecryptBlock c (firstn aes.BlockSize src)
               ++ skipn aes.BlockSize dst).

(** ** Channel *)

Definition RingSize : nat := 64.

(** The fields of [Channel].  [buf] is the ring element the writer points
    at, as an index into [slots], which holds the [Value] of each element of
    the ring; a slot holds the 188 bytes of the published packet.  A channel
    made without a ring has [buf == nil], here [None]; [c] and [done] are
    allocated together with the ring, so [None] also stands for their being
    nil.  [mu], [c] and [done] only synchronise the tasks and carry no
    data. *)
Record Channel := mkChannel {
  lastRTPSeq : Z;
  firstPkt : bool;
  pmtPid : Z;
  pmtPidFound : bool;
  ecmPid : Z;
  ecmPidFound : bool;
  masterKey : String.string;
  aesKey1 : option (list Z);
  aesKey2 : option (list Z);
  buf : option nat;
  slots : list (option (list Z));
  ioerr : bool;
  numClients : Z;
  http : bool
}.

(** The updates the methods make.  [set_rtp] is the first-packet branch of
    [parseRTP]: [lastRTPSeq] is set and [firstPkt] cleared; [set_pmtPid] and
    [set_ecmPid] set a PID together with its flag. *)
Definition set_rtp (seq : Z) (ch : Channel) : Channel :=
  mkChannel seq false (pmtPid ch) (pmtPidFound ch) (ecmPid ch)
            (ecmPidFound ch) (masterKey ch) (aesKey1 ch) (aesKey2 ch)
            (buf ch) (slots ch) (ioerr ch) (numClients ch) (http ch).

Definition set_pmtPid (pid : Z) (ch : Channel) : Channel :=
  mkChannel (lastRTPSeq ch) (firstPkt ch) pid true (ecmPid ch)
            (ecmPidFound ch) (masterKey ch) (aesKey1 ch) (aesKey2 ch)
            (buf ch) (slots ch) (ioerr ch) (numClients ch) (http ch).

Definition set_ecmPid (pid : Z) (ch : Channel) : Channel :=
  mkChannel (lastRTPSeq ch) (firstPkt ch) (pmtPid ch) (pmtPidFound ch) pid
            true (masterKey ch) (aesKey1 ch) (aesKey2 ch)
            (buf ch) (slots ch) (ioerr ch) (numClients ch) (http ch).

Definition set_keys (k1 k2 : list Z) (ch : Channel) : Channel :=
  mkChannel (lastRTPSeq ch) (firstPkt ch) (pmtPid ch) (pmtPidFound ch)
            (ecmPid ch) (ecmPidFound ch) (masterKey ch) (Some k1) (Some k2)
            (buf ch) (slots ch) (ioerr ch) (numClients ch) (http ch).

Definition set_ring (b : option nat) (sl : list (option (list Z)))
           (ch : Channel) : Channel :=
  mkChannel (lastRTPSeq ch) (firstPkt ch) (pmtPid ch) (pmtPidFound ch)
            (ecmPid ch) (ecmPidFound ch) (masterKey ch) (aesKey1 ch)
            (aesKey2 ch) b sl (ioerr ch) (numClients ch) (http ch).

Definition set_ioerr (ch : Channel) : Channel :=
  mkChannel (lastRTPSeq ch) (firstPkt ch) (pmtPid ch) (pmtPidFound ch)
            (ecmPid ch) (ecmPidFound ch) (masterKey ch) (aesKey1 ch)
            (aesKey2 ch) (buf ch) (slots ch) true (numClients ch) (http ch).

Definition set_numClients (n : Z) (ch : Channel) : Channel :=
  mkChannel (lastRTPSeq ch) (firstPkt ch) (pmtPid ch) (pmtPidFound ch)
            (ecmPid ch) (ecmPidFound ch) (masterKey ch) (aesKey1 ch)
            (aesKey2 ch) (buf ch) (slots ch) (ioerr ch) n (http ch).

Definition newChannel (masterKey : String.string) (http : bool) : Channel :=
  mkChannel 0 true 0 false 0 false masterKey None None
            (if http then Some 0%nat else None)
            (if http then repeat None RingSize else [])
            false 1 http.

(** ** Errors and outcomes

    The errors the methods return, named as the specification names them;
    the arguments are the values the messages print. *)
Inductive error :=
| RtpVersion (version : Z)
| RtpPayloadLength (n : Z)
| TsSync (b : Z)
| PatPointer
| PatTable (id : Z)
| PmtPointer
| PmtTable (id : Z)
| EcmPidNotFound
| EcmMagic.

(** What a call on a channel does: it returns a value, or returns an error,
    in both cases with the fields of the channel as the call left them; or
    it panics; or its loop never exits. *)
Inductive outcome (A : Type) : Type :=
| Ret (a : A) (ch : Channel)
| Err (e : error) (ch : Channel)
| Panic
| Spin.
Arguments Ret {A} a ch.
Arguments Err {A} e ch.
Arguments Panic {A}.
Arguments Spin {A}.

Definition M (A : Type) : Type := Channel -> outcome A.

Definition ret {A} (a : A) : M A := fun ch => Ret a ch.
Definition fail {A} (e : error) : M A := fun ch => Err e ch.
Definition bind {A B} (m : M A) (k : A -> M B) : M B :=
  fun ch =>
    match m ch with
    | Ret a ch' => k a ch'
    | Err e ch' => Err e ch'
    | Panic => Panic
    | Spin => Spin
    end.
(** A bounds-checked operation: [None] is the run-time panic. *)
Definition must {A} (o : option A) : M A :=
  fun ch => match o with Some a => Ret a ch | None => Panic end.
(** A loop that never exits. *)
Definition spin {A} : M A := fun _ => Spin.
Definition panic {A} : M A := fun _ => Panic.
Definition get : M Channel := fun ch => Ret ch ch.
Definition modify (f : Channel -> Channel) : M unit := fun ch => Ret tt (f ch).

Notation "x <- m ;; k" := (bind m (fun x => k))
  (at level 61, m at next level, right associativity).
Notation "m ;;; k" := (bind m (fun _ => k))
  (at level 61, right associativity).

Definition set_lastRTPSeq (seq : Z) (ch : Channel) : Channel :=
  mkChannel seq (firstPkt ch) (pmtPid ch) (pmtPidFound ch) (ecmPid ch)
            (ecmPidFound ch) (masterKey ch) (aesKey1 ch) (aesKey2 ch)
            (buf ch) (slots ch) (ioerr ch) (numClients ch) (http ch).

Definition u8 (x : Z) : Z := x mod 256.
Definition u16 (x : Z) : Z := x mod 65536.

(** ** RTP framer *)

(** [parseRTP]: the offset of the TS payload.  The discontinuity notice is
    only logged and leaves no trace in the channel. *)
Definition parseRTP (pkt : slice) : M Z :=
  b0 <- must (index pkt 0) ;;
  let version := Z.shiftr b0 6 in
  if negb (version =? 2) then fail (RtpVersion version) else
  let hasExtension := Z.land (Z.shiftr b0 4) 1 in
  s <- must (slice_range pkt 2 4) ;;
  seq <- must (Uint16 s) ;;
  ch <- get ;;
  (if firstPkt ch then modify (set_rtp (u16 (seq - 1))) else ret tt) ;;;
  modify (set_lastRTPSeq seq) ;;;
  extSize <- (if hasExtension >? 0
              then s <- must (slice_range pkt 14 16) ;;
                   v <- must (Uint16 s) ;;
                   ret (4 + u16 (v * 4))
              else ret 0) ;;
  ret (12 + extSize).

(** ** ECM processor *)

(** The body of [for i := 0; i < 4; i++]: block [i] of the packet, from
    byte [29 + 16 i], is decrypted into [ecm[16 i:]]. *)
Fixpoint processECM_loop (n : nat) (i : Z) (cipher : option aes.Block)
         (pkt : slice) (ecm : list Z) : M (list Z) :=
  match n with
  | O => ret ecm
  | S n' =>
      src <- must (slice_from pkt (29 + i * 16)) ;;
      c <- must cipher ;;
      d <- must (Decrypt c (skipn (Z.to_nat (i * 16)) ecm) (elems src)) ;;
      processECM_loop n' (i + 1) cipher pkt
                      (firstn (Z.to_nat (i * 16)) ecm ++ d)
  end.

Definition processECM (pkt : slice) : M unit :=
  ch <- get ;;
  let key := fst (hex.DecodeString (masterKey ch)) in
  let cipher := aes.NewCipher key in
  ecm <- processECM_loop 4 0 cipher pkt (repeat 0 64) ;;
  if negb (nth 0 ecm 0 =? 67) || negb (nth 1 ecm 0 =? 69)
     || negb (nth 2 ecm 0 =? 66)
  then fail EcmMagic
  else
    b5 <- must (index pkt 5) ;;
    if b5 =? 129
    then modify (set_keys (firstn 16 (skipn 9 ecm)) (firstn 16 (skipn 25 ecm)))
    else modify (set_keys (firstn 16 (skipn 25 ecm)) (firstn 16 (skipn 9 ecm))).

(** ** TS descrambler *)

(** [for len(pkt) > 16 { cipher.Decrypt(pkt, pkt); pkt = pkt[16:] }]: the
    bytes of [pkt] after the loop.  Each turn drops 16 bytes, so [length pkt]
    turns always suffice. *)
Fixpoint decryptPacket_loop (fuel : nat) (cipher : option aes.Block)
         (pkt : list Z) : M (list Z) :=
  if (16 <? length pkt)%nat then
    match fuel with
    | O => spin
    | S fuel' =>
        c <- must cipher ;;
        d <- must (Decrypt c pkt pkt) ;;
        rest <- decryptPacket_loop fuel' cipher (skipn 16 d) ;;
        ret (firstn 16 d ++ rest)
    end
  else ret pkt.

Definition scrambling (b3 : Z) : Z := Z.land (Z.shiftr b3 6) 3.

(** [decryptPacket] works in place; the result is the packet after the
    call. *)
Definition decryptPacket (pkt : slice) : M slice :=
  ch <- get ;;
  match aesKey1 ch, aesKey2 ch with
  | Some k1, Some k2 =>
      b3 <- must (index pkt 3) ;;
      let scramble := scrambling b3 in
      if scramble <? 2 then ret pkt else
      let aesKey :=
        if scramble =? 2 then k2 else if scramble =? 3 then k1 else [] in
      let cipher := aes.NewCipher aesKey in
      body <- must (slice_from pkt 4) ;;
      body' <- decryptPacket_loop (length (elems body)) cipher (elems body) ;;
      ret {| elems := firstn 4 (elems pkt) ++ body'; spare := spare pkt |}
  | _, _ => ret pkt
  end.

(** ** PSI walker *)

(** The loop of [parseEcmPid].  [2+length] is a [uint8] sum: when it wraps
    to 0 the slice is left as it is and the loop makes no progress; in every
    other turn the slice gets shorter, so [length desc] turns suffice to
    reach any exit there is. *)
Fixpoint parseEcmPid_loop (fuel : nat) (desc : slice) : M unit :=
  if len desc >? 0 then
    match fuel with
    | O => spin
    | S fuel' =>
        tag <- must (index desc 0) ;;
        length <- must (index desc 1) ;;
        let next :=
          desc' <- must (slice_from desc (u8 (2 + length))) ;;
          parseEcmPid_loop fuel' desc' in
        if tag =? 9 then
          s <- must (slice_range desc 2 4) ;;
          caid <- must (Uint16 s) ;;
          if caid =? 22017 then
            s <- must (slice_range desc 4 6) ;;
            pid <- must (Uint16 s) ;;
            modify (set_ecmPid pid)
          else next
        else next
    end
  else fail EcmPidNotFound.

Definition parseEcmPid (desc : slice) : M unit :=
  parseEcmPid_loop (length (elems desc)) desc.

(** ** Ring fan-out *)

Definition Next (p : nat) : nat := Nat.modulo (S p) RingSize.

Fixpoint store {A} (i : nat) (v : A) (l : list A) : list A :=
  match l, i with
  | [], _ => []
  | _ :: l', O => v :: l'
  | x :: l', S i' => x :: store i' v l'
  end.

(** [addToBuf]: a channel without a ring has [buf == nil]. *)
Definition addToBuf (val : list Z) : M unit :=
  ch <- get ;;
  p <- must (buf ch) ;;
  modify (set_ring (Some (Next p)) (store p (Some val) (slots ch))).

Definition currentPtr : M (option nat) :=
  ch <- get ;; ret (buf ch).

(** What a reader gets from [nextPtr] in a given state of the channel: the
    call waits on the condition variable, or returns a cursor and a value
    ([None] for [nil]), or dereferences a nil pointer. *)
Inductive read :=
| Waits
| Returns (ptr : option nat) (val : option (list Z))
| NilDeref.

Definition ptr_eqb (p q : option nat) : bool :=
  match p, q with
  | Some a, Some b => Nat.eqb a b
  | None, None => true
  | _, _ => false
  end.

Definition nextPtr (ptr : option nat) (ch : Channel) : read :=
  if ptr_eqb ptr (buf ch) && negb (ioerr ch) then
    match buf ch with Some _ => Waits | None => NilDeref end
  else if negb (ioerr ch) then
    match ptr with
    | Some p => Returns (Some (Next p)) (nth p (slots ch) None)
    | None => NilDeref
    end
  else Returns ptr None.

Definition closeBuf : M unit :=
  ch <- get ;;
  match buf ch with
  | Some _ => modify set_ioerr
  | None => panic
  end.

(** ** One TS packet *)

(** The block marked [// process PAT]. *)
Definition processPAT (pkt : slice) : M unit :=
  b4 <- must (index pkt 4) ;;
  if negb (b4 =? 0) then fail PatPointer else
  b5 <- must (index pkt 5) ;;
  if negb (b5 =? 0) then fail (PatTable b5) else
  s <- must (slice_range pkt 15 17) ;;
  v <- must (Uint16 s) ;;
  modify (set_pmtPid (Z.land v 8191)).

(** The block marked [// process PMT]; [17+piLength] is a [uint16] sum. *)
Definition processPMT (pkt : slice) : M unit :=
  b4 <- must (index pkt 4) ;;
  if negb (b4 =? 0) then fail PmtPointer else
  b5 <- must (index pkt 5) ;;
  if negb (b5 =? 2) then fail (PmtTable b5) else
  s <- must (slice_range pkt 15 17) ;;
  v <- must (Uint16 s) ;;
  let piLength := Z.land v 1023 in
  desc <- must (slice_range pkt 17 (u16 (17 + piLength))) ;;
  parseEcmPid desc.

(** What follows the two PSI blocks: the ECM processor when the packet is
    on the ECM PID, the descrambler, and the ring of an HTTP channel. *)
Definition processPayload (pid : Z) (pkt : slice) : M slice :=
  ch <- get ;;
  (if ecmPidFound ch && (pid =? ecmPid ch) then processECM pkt
   else ret tt) ;;;
  pkt' <- decryptPacket pkt ;;
  ch <- get ;;
  (if http ch then addToBuf (elems pkt') else ret tt) ;;;
  ret pkt'.

Definition processPacket (pkt : slice) : M slice :=
  b0 <- must (index pkt 0) ;;
  if negb (b0 =? 71) then fail (TsSync b0) else
  s <- must (slice_range pkt 1 3) ;;
  v <- must (Uint16 s) ;;
  let pid := Z.land v 8191 in
  ch <- get ;;
  (if negb (pmtPidFound ch) && (pid =? 0) then processPAT pkt
   else ret tt) ;;;
  ch <- get ;;
  (if negb (ecmPidFound ch) && pmtPidFound ch && (pid =? pmtPid ch)
   then processPMT pkt
   else ret tt) ;;;
  processPayload pid pkt.

(** ** One datagram *)

(** The loop of [processRTP]: the bytes of [pkt] once every packet has been
    through [processPacket].  A turn drops 188 bytes. *)
Fixpoint processRTP_loop (fuel : nat) (pkt : slice) : M (list Z) :=
  if len pkt >? 0 then
    match fuel with
    | O => spin
    | S fuel' =>
        p <- must (slice_to pkt 188) ;;
        p' <- processPacket p ;;
        rest <- must (slice_from pkt 188) ;;
        out <- processRTP_loop fuel' rest ;;
        ret (elems p' ++ out)
    end
  else ret [].

(** [processRTP]; [%] of Go truncates towards zero, which is [Z.rem]. *)
Definition processRTP (payload : slice) (offset : Z) : M slice :=
  if negb (Z.rem (len payload - offset) 188 =? 0)
  then fail (RtpPayloadLength (len payload))
  else
    pkt <- must (slice_from payload offset) ;;
    out <- processRTP_loop (length (elems pkt)) pkt ;;
    ret {| elems := firstn (Z.to_nat offset) (elems payload) ++ out;
           spare := spare payload |}.

(** ** Channel engine *)

(** [pkt := make([]byte, 1500); n, ... := p.ReadFrom(pkt); payload := pkt[:n]]
    for a datagram of at most 1500 bytes. *)
Definition received (data : list Z) : slice :=
  {| elems := data; spare := repeat 0 (1500 - length data) |}.

(** One turn of the loop of [decryptHTTP] and [decryptRTP] once the read
    has succeeded. *)
Definition handleDatagram (data : list Z) : M slice :=
  let payload := received data in
  offset <- parseRTP payload ;;
  processRTP payload offset.

Inductive turn := Continue | Stopped (cause : option error).

(** One turn of [decryptHTTP]: [None] is a failed read.  Every error leads
    to the label [ioerr], where the ring is closed. *)
Definition decryptHTTP_turn (r : option (list Z)) : M turn :=
  fun ch =>
    match r with
    | None => (closeBuf ;;; ret (Stopped None)) ch
    | Some data =>
        match handleDatagram data ch with
        | Ret _ ch' => Ret Continue ch'
        | Err e ch' => (closeBuf ;;; ret (Stopped (Some e))) ch'
        | Panic => Panic
        | Spin => Spin
        end
    end.

(** The registry's reference count ([chHandler]). *)
Definition clientJoin : M unit :=
  ch <- get ;; modify (set_numClients (numClients ch + 1)).
Definition clientLeave : M unit :=
  ch <- get ;; modify (set_numClients (numClients ch - 1)).

(** ** Notions used by the statements *)

(** AES-ECB decryption of [n] consecutive 16-byte blocks of [bs]. *)
Fixpoint ecb_decrypt (n : nat) (c : aes.Block) (bs : list Z) : list Z :=
  match n with
  | O => []
  | S n' => aes.DecryptBlock c (firstn 16 bs) ++ ecb_decrypt n' c (skipn 16 bs)
  end.

(** The working key [decryptPacket] takes for a scrambling-control value:
    [aesKey2] for 2 (even), [aesKey1] for 3 (odd). *)
Definition key_for (scramble : Z) (ch : Channel) : option (list Z) :=
  if scramble =? 2 then aesKey2 ch
  else if scramble =? 3 then aesKey1 ch
  else None.

(** The scrambling-control bits of a packet, [(pkt[3] >> 6) & 3]. *)
Definition scramble_of (pkt : slice) : Z := scrambling (nth 3 (elems pkt) 0).

(** The 64 bytes the ECM processor obtains from a packet. *)
Definition ecm_plain (c : aes.Block) (pkt : slice) : list Z :=
  ecb_decrypt 4 c (firstn 64 (skipn 29 (elems pkt))).

Definition magic : list Z := [67; 69; 66].

(** The test [processECM] makes on the decrypted bytes. *)
Definition has_magic (ecm : list Z) : bool :=
  (nth 0 ecm 0 =? 67) && (nth 1 ecm 0 =? 69) && (nth 2 ecm 0 =? 66).


(** The PID of a packet, [u16be(pkt[1:3]) & 0x1fff]. *)
Definition pid_of (pkt : slice) : Z :=
  Z.land (u16be (nth 1 (elems pkt) 0) (nth 2 (elems pkt) 0)) 8191.

(** The descriptor scan as the specification words it: the bytes are a
    sequence of descriptors (tag, length, value); the scan yields the PID
    in [value[2:4]] of the first descriptor with tag 0x09 whose
    [value[0:2]] is 0x5601, and nothing when the sequence ends without
    one. *)
Inductive scan : list Z -> option Z -> Prop :=
| scan_end : scan [] None
| scan_found (l c0 c1 p0 p1 : Z) (rest : list Z) :
    u16be c0 c1 = 22017 ->
    scan (9 :: l :: c0 :: c1 :: p0 :: p1 :: rest) (Some (u16be p0 p1))
| scan_skip (tag l : Z) (value rest : list Z) (r : option Z) :
    tag <> 9 -> l = Z.of_nat (length value) ->
    scan rest r ->
    scan (tag :: l :: value ++ rest) r
| scan_skip_ca (l c0 c1 : Z) (value rest : list Z) (r : option Z) :
    u16be c0 c1 <> 22017 -> l = Z.of_nat (2 + length value) ->
    scan rest r ->
    scan (9 :: l :: c0 :: c1 :: value ++ rest) r.

(** ** Sample data

    An ECM under the all-zero master key.  Its 64 encrypted bytes decrypt
    to 43 45 42, six zero bytes, the sixteen bytes 0x10..0x1f, the sixteen
    bytes 0x20..0x2f and 23 zero bytes. *)
Import String.StringSyntax.

Local Open Scope string_scope.
Definition zero_key : String.string := "00000000000000000000000000000000".
Local Close Scope string_scope.

Definition sample_ecm_cipher : list Z :=
  [7; 97; 6; 202; 19; 210; 220; 75; 25; 184; 67; 106; 185; 70; 255; 156;
   227; 66; 155; 39; 51; 103; 104; 8; 165; 179; 62; 177; 238; 252; 158; 10;
   223; 14; 227; 83; 173; 63; 79; 206; 9; 78; 75; 146; 225; 151; 30; 131;
   102; 233; 75; 212; 239; 138; 44; 59; 136; 76; 250; 89; 202; 52; 43; 46].

Definition sample_ecm (selector : Z) : slice :=
  {| elems := [71; 1; 35; 16; 0; selector] ++ repeat 0 23
              ++ sample_ecm_cipher ++ repeat 0 95;
     spare := [] |}.

Definition key_10_1f : list Z :=
  [16; 17; 18; 19; 20; 21; 22; 23; 24; 25; 26; 27; 28; 29; 30; 31].
Definition key_20_2f : list Z :=
  [32; 33; 34; 35; 36; 37; 38; 39; 40; 41; 42; 43; 44; 45; 46; 47].

(** The body of a TS packet: the bytes 0, 1, ..., 175 encrypted in
    eleven blocks under the key 0x10..0x1f. *)
Definition sample_body_cipher : list Z :=
  [156; 84; 213; 113; 112; 44; 250; 15; 3; 243; 98; 21; 103; 107; 171;
   120; 183; 173; 120; 33; 108; 85; 105; 214; 218; 26; 171; 135; 246; 219;
   197; 97; 211; 29; 213; 126; 98; 129; 44; 221; 171; 209; 204; 170; 60;
   71; 151; 155; 232; 37; 70; 207; 69; 56; 24; 27; 63; 10; 36; 57; 1; 7;
   253; 0; 66; 75; 217; 176; 237; 196; 238; 169; 236; 185; 145; 34; 235;
   103; 48; 66; 178; 228; 21; 214; 249; 26; 169; 114; 146; 44; 191; 65;
   200; 129; 157; 58; 66; 35; 252; 6; 120; 81; 84; 208; 59; 140; 128; 139;
   93; 14; 220; 178; 47; 40; 106; 82; 31; 76; 53; 60; 116; 235; 99; 252;
   18; 161; 222; 207; 253; 168; 172; 82; 159; 32; 192; 9; 200; 18; 15; 105;
   219; 125; 160; 71; 45; 243; 252; 180; 144; 165; 18; 185; 78; 48; 98; 91;
   113; 168; 8; 97; 201; 17; 163; 18; 236; 116; 156; 175; 203; 242; 149;
   142; 228; 85; 18; 43].

(** A 188-byte packet on PID 0x100 with the given scrambling-control bits,
    the encrypted body and a clear tail of 8 bytes. *)
Definition sample_ts (scramble : Z) : slice :=
  {| elems := [71; 1; 0; Z.lor (Z.shiftl scramble 6) 16]
              ++ sample_body_cipher ++ repeat 170 8;
     spare := [] |}.

(** A channel after the sample ECM with selector 0x81. *)
Definition sample_keyed : Channel :=
  set_keys key_10_1f key_20_2f (newChannel zero_key true).

(** ** The life of a channel

    The calls the program makes on a channel, and the state a call leaves
    behind once it has returned, with or without an error.  A reader that
    waits in [nextPtr] has not changed the channel. *)
Definition state_after {A} (o : outcome A) : option Channel :=
  match o with
  | Ret _ ch | Err _ ch => Some ch
  | Panic | Spin => None
  end.

Inductive call :=
| CallParseRTP (pkt : slice)
| CallProcessECM (pkt : slice)
| CallDecryptPacket (pkt : slice)
| CallParseEcmPid (desc : slice)
| CallProcessPacket (pkt : slice)
| CallProcessRTP (payload : slice) (offset : Z)
| CallHandleDatagram (data : list Z)
| CallDecryptHTTP (r : option (list Z))
| CallAddToBuf (val : list Z)
| CallCurrentPtr
| CallNextPtr (ptr : option nat)
| CallCloseBuf
| CallClientJoin
| CallClientLeave.

Definition run (c : call) (ch : Channel) : option Channel :=
  match c with
  | CallParseRTP pkt => state_after (parseRTP pkt ch)
  | CallProcessECM pkt => state_after (processECM pkt ch)
  | CallDecryptPacket pkt => state_after (decryptPacket pkt ch)
  | CallParseEcmPid desc => state_after (parseEcmPid desc ch)
  | CallProcessPacket pkt => state_after (processPacket pkt ch)
  | CallProcessRTP payload offset => state_after (processRTP payload offset ch)
  | CallHandleDatagram data => state_after (handleDatagram data ch)
  | CallDecryptHTTP r => state_after (decryptHTTP_turn r ch)
  | CallAddToBuf val => state_after (addToBuf val ch)
  | CallCurrentPtr => state_after (currentPtr ch)
  | CallNextPtr ptr =>
      match nextPtr ptr ch with NilDeref => None | _ => Some ch end
  | CallCloseBuf => state_after (closeBuf ch)
  | CallClientJoin => state_after (clientJoin ch)
  | CallClientLeave => state_after (clientLeave ch)
  end.

Fixpoint runs (cs : list call) (ch : Channel) : option Channel :=
  match cs with
  | [] => Some ch
  | c :: cs' =>
      match run c ch with
      | Some ch' => runs cs' ch'
      | None => None
      end
  end.

(** A property of the channel that every returning call keeps. *)
Definition preserves {A} (P : Channel -> Prop) (m : M A) : Prop :=
  forall ch, P ch ->
    match m ch with
    | Ret _ ch' | Err _ ch' => P ch'
    | Panic | Spin => True
    end.

(** The two working keys are both absent, or both present with 16 bytes. *)
Definition keys_installed (ch : Channel) : Prop :=
  exists k1 k2, aesKey1 ch = Some k1 /\ aesKey2 ch = Some k2
                /\ length k1 = 16%nat /\ length k2 = 16%nat.

Definition keys_paired (ch : Channel) : Prop :=
  (aesKey1 ch = None /\ aesKey2 ch = None) \/ keys_installed ch.

(** A PAT announcing the PMT on PID 0x100, and PMTs on that PID whose
    program-info loop is the given list of bytes. *)
Definition sample_pat : slice :=
  {| elems := [71; 64; 0; 16; 0; 0; 176; 13; 0; 1; 193; 0; 0; 0; 1; 225; 0]
              ++ repeat 255 171;
     spare := [] |}.

Definition sample_pmt (info : list Z) : slice :=
  {| elems := [71; 65; 0; 16; 0; 2; 176; 23; 0; 1; 193; 0; 0; 225; 1;
               240 + Z.of_nat (length info) / 256;
               Z.of_nat (length info) mod 256]
              ++ info ++ repeat 255 (171 - length info);
     spare := [] |}.

(** A registration descriptor followed by the CA descriptor of system
    0x5601 with ECM PID 0x0123; and the first of the two alone. *)
Definition info_with_ca : list Z :=
  [5; 4; 72; 68; 77; 86; 9; 4; 86; 1; 1; 35].
Definition info_without_ca : list Z := [5; 4; 72; 68; 77; 86].

(** A channel that has seen the sample PAT. *)
Definition sample_pat_seen : Channel :=
  set_pmtPid 256 (newChannel zero_key true).

(** RTP datagrams.  A 16-byte datagram with the extension flag set and the
    given extension length field; a null packet; and a datagram of seven TS
    packets whose fourth is a PMT announcing 0x3ff bytes of program
    information. *)
Definition rtp_ext (hi lo : Z) : list Z :=
  [144; 33; 0; 1; 0; 0; 0; 0; 0; 0; 0; 0; 0; 0; hi; lo].

Definition rtp_header : list Z := [128; 33; 0; 1; 0; 0; 0; 0; 0; 0; 0; 0].

Definition null_ts : list Z := [71; 31; 255; 16] ++ repeat 255 184.

Definition pmt_overlong : list Z :=
  [71; 65; 0; 16; 0; 2; 176; 23; 0; 1; 193; 0; 0; 225; 1; 243; 255]
    ++ repeat 255 171.

Definition datagram_overlong : list Z :=
  rtp_header ++ elems sample_pat ++ null_ts ++ null_ts ++ pmt_overlong
    ++ null_ts ++ null_ts ++ null_ts.

(** The [n] consecutive 188-byte packets of [bytes] put through
    [processPacket] one after the other, each as a slice whose capacity
    reaches to the end of the buffer; the result is the bytes after
    processing. *)
Fixpoint process_all (n : nat) (bytes sp : list Z) : M (list Z) :=
  match n with
  | O => ret []
  | S n' =>
      p' <- processPacket {| elems := firstn 188 bytes;
                             spare := skipn 188 bytes ++ sp |} ;;
      out <- process_all n' (skipn 188 bytes) sp ;;
      ret (elems p' ++ out)
  end.

(** A datagram carrying the sample PAT, PMT, ECM and scrambled packet. *)
Definition datagram_sample : list Z :=
  rtp_header ++ elems sample_pat ++ elems (sample_pmt info_with_ca)
    ++ elems (sample_ecm 129) ++ elems (sample_ts 3).

(** ** Further notions

    The bytes a datagram occupies in the 1500-byte receive buffer: what was
    received, then the zero bytes [make] left there. *)
Definition in_buffer (data : list Z) : list Z :=
  data ++ repeat 0 (1500 - length data).

(** Whether [parseRTP] logs "RTP discontinuity detected" for a datagram
    with sequence number [seq]: on the first packet [lastRTPSeq] is set to
    [seq - 1] before the test [ch.lastRTPSeq+1 != seq], both in [uint16]. *)
Definition discontinuity (seq : Z) (ch : Channel) : bool :=
  let last := if firstPkt ch then u16 (seq - 1) else lastRTPSeq ch in
  negb (u16 (last + 1) =? seq).

(** A byte. *)
Definition is_byte (b : Z) : Prop := 0 <= b < 256.

(** A property of the channel that holds whenever a call returns an
    error. *)
Definition preserves_err {A} (P : Channel -> Prop) (m : M A) : Prop :=
  forall ch, P ch ->
    match m ch with
    | Err _ ch' => P ch'
    | _ => True
    end.

(** The ring and the [http] flag of [c] are those of [ch0]. *)
Definition ring_same (ch0 c : Channel) : Prop :=
  buf c = buf ch0 /\ slots c = slots ch0 /\ http c = http ch0.

(** What it means for the descrambler to work in place on [pkt]: it
    returns the packet with its length, its first four bytes and the bytes
    behind it as before and leaves the channel alone, or it panics; it
    returns no error and does not spin. *)
Definition in_place (pkt : slice) (ch : Channel) (o : outcome slice) : Prop :=
  match o with
  | Ret pkt' ch' =>
      ch' = ch
      /\ length (elems pkt') = length (elems pkt)
      /\ firstn 4 (elems pkt') = firstn 4 (elems pkt)
      /\ spare pkt' = spare pkt
  | Panic => True
  | Err _ _ | Spin => False
  end.

(** What one call of [processPacket] does to the ring: a packet that is
    returned has its length, its first four bytes and the bytes behind it
    as before, and on an HTTP channel it has been stored in the slot under
    the writer's cursor, which has moved on by one; an error leaves the
    ring as it was. *)
Definition publishes_one (pkt : slice) (ch : Channel) (o : outcome slice)
  : Prop :=
  match o with
  | Ret pkt' ch' =>
      length (elems pkt') = length (elems pkt)
      /\ firstn 4 (elems pkt') = firstn 4 (elems pkt)
      /\ spare pkt' = spare pkt
      /\ http ch' = http ch
      /\ (if http ch
          then exists p, buf ch = Some p /\ buf ch' = Some (Next p)
                         /\ slots ch' = store p (Some (elems pkt')) (slots ch)
          else buf ch' = buf ch /\ slots ch' = slots ch)
  | Err _ ch' => ring_same ch ch'
  | Panic | Spin => True
  end.

(** What [processRTP] leaves of a datagram it has walked through: the
    length, the bytes before the offset, the first four bytes of each of
    the [n] TS packets and the bytes behind the datagram are as before; on
    an HTTP channel the writer's cursor has moved on by [n]. *)
Definition walked (payload : slice) (offset : nat) (ch : Channel)
           (payload' : slice) (ch' : Channel) : Prop :=
  exists n : nat,
    length (elems payload) = (offset + 188 * n)%nat
    /\ length (elems payload') = length (elems payload)
    /\ firstn offset (elems payload') = firstn offset (elems payload)
    /\ (forall j, (j < n)%nat ->
          firstn 4 (skipn (offset + 188 * j) (elems payload'))
          = firstn 4 (skipn (offset + 188 * j) (elems payload)))
    /\ spare payload' = spare payload
    /\ http ch' = http ch
    /\ (if http ch
        then buf ch' = option_map (Nat.iter n Next) (buf ch)
        else buf ch' = buf ch /\ slots ch' = slots ch).

(** ** The engine loops *)

(** The loop of [decryptHTTP] over the results of its successive reads, as
    long as no client asks it to stop: it goes on until a turn fails. *)
Fixpoint decryptHTTP_loop (reads : list (option (list Z))) : M turn :=
  match reads with
  | [] => ret Continue
  | r :: reads' =>
      t <- decryptHTTP_turn r ;;
      match t with
      | Continue => decryptHTTP_loop reads'
      | Stopped cause => ret (Stopped cause)
      end
  end.

(** One turn of [decryptRTP]: the bytes handed to [dest.Write], that is the
    whole datagram after [processRTP], or [None] when the read, the framer
    or the packet walk fails and the loop is left. *)
Definition decryptRTP_turn (r : option (list Z)) : M (option (list Z)) :=
  fun ch =>
    match r with
    | None => Ret None ch
    | Some data =>
        match handleDatagram data ch with
        | Ret payload ch' => Ret (Some (elems payload)) ch'
        | Err _ ch' => Ret None ch'
        | Panic => Panic
        | Spin => Spin
        end
    end.

(** ** A reader on the ring *)

(** The ring of an HTTP channel: a cursor inside the 64 slots. *)
Definition ring_shape (ch : Channel) : Prop :=
  exists b, buf ch = Some b /\ (b < RingSize)%nat
            /\ length (slots ch) = RingSize.

(** A reader with cursor [r] is in step with the ring when every slot from
    its cursor up to the writer's holds a packet. *)
Definition reader_ok (r : nat) (ch : Channel) : Prop :=
  exists b, buf ch = Some b /\ (b < RingSize)%nat /\ (r < RingSize)%nat
            /\ length (slots ch) = RingSize
            /\ forall k, (k < (b + RingSize - r) mod RingSize)%nat ->
                 nth ((r + k) mod RingSize) (slots ch) None <> None.

(** What the reader of [chHandler] does between calls made on the channel
    by others: [ptr, val = ch.nextPtr(ptr)]. *)
Inductive event := Call (c : call) | Read.

(** The course of a reader: its cursor and the channel at the end, and for
    every read that returned the [ioerr] flag at that moment and the value
    it got.  A read that waits leaves everything as it is. *)
Fixpoint follow (es : list event) (ptr : option nat) (ch : Channel)
  : option (list (bool * option (list Z)) * option nat * Channel) :=
  match es with
  | [] => Some ([], ptr, ch)
  | Call c :: es' =>
      match run c ch with
      | Some ch' => follow es' ptr ch'
      | None => None
      end
  | Read :: es' =>
      match nextPtr ptr ch with
      | Waits => follow es' ptr ch
      | Returns ptr' v =>
          match follow es' ptr' ch with
          | Some (obs, p, c) => Some ((ioerr ch, v) :: obs, p, c)
          | None => None
          end
      | NilDeref => None
      end
  end.

(** [n] reads in a row by a reader that does not have to wait. *)
Fixpoint read_n (n : nat) (ptr : option nat) (ch : Channel)
  : list (option (list Z)) * option nat :=
  match n with
  | O => ([], ptr)
  | S n' =>
      match nextPtr ptr ch with
      | Returns ptr' v =>
          let (vs, p) := read_n n' ptr' ch in (v :: vs, p)
      | _ => ([], ptr)
      end
  end.

(** A later PAT that announces the PMT on PID 0x200 instead, alone in a
    datagram. *)
Definition sample_pat_moved : list Z :=
  [71; 64; 0; 16; 0; 0; 176; 13; 0; 1; 193; 0; 0; 0; 1; 226; 0]
    ++ repeat 255 171.

Definition datagram_pat_moved : list Z := rtp_header ++ sample_pat_moved.

(** ** The CA descriptor's PID field *)

(** A CA descriptor as broadcast: the three bits above the 13-bit PID are
    reserved and set, so the PID 0x0123 is carried as e1 23. *)
Definition info_reserved_bits : list Z :=
  [5; 4; 72; 68; 77; 86; 9; 4; 86; 1; 225; 35].

Definition datagram_reserved_bits : list Z :=
  rtp_header ++ elems sample_pat ++ elems (sample_pmt info_reserved_bits).

Definition datagram_ecm : list Z :=
  rtp_header ++ elems (sample_ecm 129) ++ elems (sample_ts 3).

(** ** The master key *)

(** A hexadecimal digit, by [reverseHexTable]. *)
Definition hex_digit (c : Ascii.ascii) : Prop := hex.fromHexChar c <> None.

Local Open Scope string_scope.
Definition long_key : String.string :=
  "000102030405060708090a0b0c0d0e0f101112131415161718191a1b1c1d1e1f".
Definition short_key : String.string := "0001020304050607".
Local Close Scope string_scope.

(** ** The registry of running channels *)

(** One entry of [channels]. *)
Module ChannelInfo.
Record t := mk { addr : String.string; masterKey : String.string }.
End ChannelInfo.

(** A Go map with string keys; [upd k (Some v)] assigns, [upd k None]
    deletes. *)
Definition upd {V} (k : String.string) (v : V) (m : String.string -> V)
  : String.string -> V :=
  fun k' => if String.eqb k k' then v else m k'.

(** [runningChannels] and, for every multicast address, the number of
    [decryptHTTP] goroutines started and not yet through the [done]
    handshake. *)
Record server := mkServer {
  runningChannels : String.string -> option Channel;
  engines : String.string -> nat
}.

Definition server_start : server :=
  {| runningChannels := fun _ => None; engines := fun _ => 0%nat |}.

(** The first locked section of [chHandler]: the channel is created and its
    engine started, or the channel found gets one more client. *)
Definition chHandler_enter (chInfo : ChannelInfo.t) (s : server) : server :=
  let a := ChannelInfo.addr chInfo in
  match runningChannels s a with
  | None =>
      {| runningChannels :=
           upd a (Some (newChannel (ChannelInfo.masterKey chInfo) true))
               (runningChannels s);
         engines := upd a (S (engines s a)) (engines s) |}
  | Some ch =>
      {| runningChannels :=
           upd a (Some (set_numClients (numClients ch + 1) ch))
               (runningChannels s);
         engines := engines s |}
  end.

(** The second locked section: one client fewer; the last one stops the
    engine through [done] and deletes the entry. *)
Definition chHandler_leave (chInfo : ChannelInfo.t) (s : server) : server :=
  let a := ChannelInfo.addr chInfo in
  match runningChannels s a with
  | Some ch =>
      let ch' := set_numClients (numClients ch - 1) ch in
      if numClients ch' =? 0
      then {| runningChannels := upd a None (runningChannels s);
              engines := upd a (Nat.pred (engines s a)) (engines s) |}
      else {| runningChannels := upd a (Some ch') (runningChannels s);
              engines := engines s |}
  | None => s
  end.

(** What happens on the server: a handler goes through its first or its
    second locked section, or the engine of an address takes some reads.  An
    engine that has closed the ring reads no more. *)
Inductive request :=
| Enter (chInfo : ChannelInfo.t)
| Leave (chInfo : ChannelInfo.t)
| Reads (a : String.string) (reads : list (option (list Z))).

Definition serve (r : request) (s : server) : option server :=
  match r with
  | Enter chInfo => Some (chHandler_enter chInfo s)
  | Leave chInfo => Some (chHandler_leave chInfo s)
  | Reads a reads =>
      match runningChannels s a with
      | None => Some s
      | Some ch =>
          if ioerr ch then Some s
          else match state_after (decryptHTTP_loop reads ch) with
               | Some ch' =>
                   Some {| runningChannels :=
                             upd a (Some ch') (runningChannels s);
                           engines := engines s |}
               | None => None
               end
      end
  end.

Fixpoint serve_all (rs : list request) (s : server) : option server :=
  match rs with
  | [] => Some s
  | r :: rs' =>
      match serve r s with
      | Some s' => serve_all rs' s'
      | None => None
      end
  end.

(** The handlers between their two sections, per address; [None] when a
    handler would leave that has not entered. *)
Fixpoint serving (rs : list request) (n : String.string -> nat)
  : option (String.string -> nat) :=
  match rs with
  | [] => Some n
  | Enter chInfo :: rs' =>
      let a := ChannelInfo.addr chInfo in serving rs' (upd a (S (n a)) n)
  | Leave chInfo :: rs' =>
      let a := ChannelInfo.addr chInfo in
      match n a with
      | O => None
      | S k => serving rs' (upd a k n)
      end
  | Reads _ _ :: rs' => serving rs' n
  end.

(** The registry agrees with the handlers being served. *)
Definition registry_ok (s : server) (n : String.string -> nat) : Prop :=
  forall a,
    match runningChannels s a with
    | None => n a = 0%nat /\ engines s a = 0%nat
    | Some ch => numClients ch = Z.of_nat (n a) /\ (0 < n a)%nat
                 /\ engines s a = 1%nat /\ http ch = true
    end.

Local Open Scope string_scope.
Definition info_one : ChannelInfo.t :=
  ChannelInfo.mk "239.0.0.1:5000" zero_key.
Definition info_two : ChannelInfo.t :=
  ChannelInfo.mk "239.0.0.2:5000" zero_key.
Local Close Scope string_scope.

(** ** The channel listing

    [fetchChannels] once the body has been read and unmarshalled: the value
    [json.Unmarshal] stores in an [interface{}], with [float64] left
    abstract, and [url.PathEscape] as given. *)
Section Listing.

Variable float64 : Type.
Variable PathEscape : String.string -> String.string.

#[warnings="-register-all"]
Inductive value :=
| VNil
| VBool (b : bool)
| VFloat (f : float64)
| VString (s : String.string)
| VArray (l : list value)
| VMap (m : String.string -> option value).

(** One turn of the loop over [all]; [None] for a failed type assertion or
    an index or slice bound out of range, which panic. *)
Definition fetchChannels_entry (c : value)
           (channels : String.string -> option ChannelInfo.t)
  : option (String.string -> option ChannelInfo.t) :=
  match c with
  | VArray v =>
      match nth_error v 0, nth_error v 1, nth_error v 2 with
      | Some (VString name), Some (VString addr), Some (VString key) =>
          if (String.length addr <? 7)%nat then None
          else Some (upd (PathEscape name)
                         (Some (ChannelInfo.mk
                                  (String.substring 7 (String.length addr - 7)
                                                    addr) key))
                         channels)
      | Some (VString name), Some (VString addr), Some _ => Some channels
      | _, _, _ => None
      end
  | _ => None
  end.

Fixpoint fetchChannels_loop (all : list value)
         (channels : String.string -> option ChannelInfo.t)
  : option (String.string -> option ChannelInfo.t) :=
  match all with
  | [] => Some channels
  | c :: rest =>
      match fetchChannels_entry c channels with
      | Some channels' => fetchChannels_loop rest channels'
      | None => None
      end
  end.

Local Open Scope string_scope.
Definition fetchChannels (f : value)
           (channels : String.string -> option ChannelInfo.t)
  : option (String.string -> option ChannelInfo.t) :=
  match f with
  | VMap m =>
      match m "channels" with
      | Some (VArray all) => fetchChannels_loop all channels
      | _ => None
      end
  | _ => None
  end.
Local Close Scope string_scope.

(** The escaped name of an entry that the loop stores. *)
Definition stored_name (c : value) : option String.string :=
  match c with
  | VArray v =>
      match nth_error v 0, nth_error v 2 with
      | Some (VString name), Some (VString _) => Some (PathEscape name)
      | _, _ => None
      end
  | _ => None
  end.

End Listing.

Arguments VNil {float64}.
Arguments VBool {float64} b.
Arguments VFloat {float64} f.
Arguments VString {float64} s.
Arguments VArray {float64} l.
Arguments VMap {float64} m.
Arguments fetchChannels_entry {float64} PathEscape c channels.
Arguments fetchChannels_loop {float64} PathEscape all channels.
Arguments fetchChannels {float64} PathEscape f channels.
Arguments stored_name {float64} PathEscape c.

Local Open Scope string_scope.
Definition listing_entries : list (value unit) :=
  [VArray [VString "One"; VString "igmp://239.0.0.1:5000"; VString zero_key];
   VArray [VString "Two"; VString "igmp://239.0.0.2:5000"; VFloat tt]].
Definition listing_map : String.string -> option (value unit) :=
  fun k =>
    if String.eqb k "channels" then Some (VArray listing_entries)
    else if String.eqb k "date" then Some (VString "2019-01-01")
    else None.
Definition listing_sample : value unit := VMap listing_map.
Definition channels_sample : String.string -> option ChannelInfo.t :=
  upd "Old" (Some info_two) (fun _ => None).
Local Close Scope string_scope.
(** * Properties *)

(** ** Lists and slices *)

Lemma firstn_app_exact {A} (n : nat) (a b : list A) :
  length a = n -> firstn n (a ++ b) = a.
Proof.
  intros <-. rewrite firstn_app, Nat.sub_diag, firstn_all. simpl.
  apply app_nil_r.
Qed.

Lemma skipn_app_exact {A} (n : nat) (a b : list A) :
  length a = n -> skipn n (a ++ b) = b.
Proof.
  intros <-. rewrite skipn_app, Nat.sub_diag, skipn_all. reflexivity.
Qed.

Lemma skipn_app_ge {A} (n : nat) (a b : list A) :
  (length a <= n)%nat -> skipn n (a ++ b) = skipn (n - length a) b.
Proof.
  intros H. rewrite skipn_app, (skipn_all2 a) by assumption. reflexivity.
Qed.

Lemma index_nth (s : slice) (i : nat) :
  (i < length (elems s))%nat ->
  index s (Z.of_nat i) = Some (nth i (elems s) 0).
Proof.
  intros H. unfold index, len.
  destruct (Z.leb_spec 0 (Z.of_nat i)); [|lia].
  destruct (Z.ltb_spec (Z.of_nat i) (Z.of_nat (length (elems s)))); [|lia].
  simpl. rewrite Nat2Z.id. apply nth_error_nth'. assumption.
Qed.

Lemma slice_from_ok (s : slice) (lo : nat) :
  (lo <= length (elems s))%nat ->
  slice_from s (Z.of_nat lo)
  = Some {| elems := skipn lo (elems s); spare := spare s |}.
Proof.
  intros H. unfold slice_from, len.
  destruct (Z.leb_spec 0 (Z.of_nat lo)); [|lia].
  destruct (Z.leb_spec (Z.of_nat lo) (Z.of_nat (length (elems s)))); [|lia].
  simpl. rewrite Nat2Z.id. reflexivity.
Qed.

Lemma slice_range_ok (s : slice) (lo hi : nat) :
  (lo <= hi)%nat -> (hi <= length (elems s) + length (spare s))%nat ->
  slice_range s (Z.of_nat lo) (Z.of_nat hi)
  = Some {| elems := firstn (hi - lo) (skipn lo (backing s));
            spare := skipn hi (backing s) |}.
Proof.
  intros H1 H2. unfold slice_range, cap.
  destruct (Z.leb_spec 0 (Z.of_nat lo)); [|lia].
  destruct (Z.leb_spec (Z.of_nat lo) (Z.of_nat hi)); [|lia].
  destruct (Z.leb_spec (Z.of_nat hi)
              (Z.of_nat (length (elems s) + length (spare s)))); [|lia].
  simpl. rewrite <- Nat2Z.inj_sub, !Nat2Z.id by assumption. reflexivity.
Qed.

(** ** AES blocks *)

Lemma DecryptBlock_length (c : aes.Block) (src : list Z) :
  length (aes.DecryptBlock c src) = 16%nat.
Proof.
  unfold aes.DecryptBlock.
  destruct c; unfold aes.AddRoundKey; rewrite length_map, length_seq;
    reflexivity.
Qed.

Lemma Decrypt_full (c : aes.Block) (dst src : list Z) :
  (16 <= length src)%nat -> (16 <= length dst)%nat ->
  Decrypt c dst src
  = Some (aes.DecryptBlock c (firstn 16 src) ++ skipn 16 dst).
Proof.
  intros Hs Hd. unfold Decrypt, aes.BlockSize.
  destruct (Nat.ltb_spec (length src) 16); [lia|].
  destruct (Nat.ltb_spec (length dst) 16); [lia|].
  reflexivity.
Qed.

Lemma Decrypt_length (c : aes.Block) (dst src d : list Z) :
  Decrypt c dst src = Some d -> length d = length dst.
Proof.
  unfold Decrypt, aes.BlockSize.
  destruct (Nat.ltb_spec (length src) 16); [discriminate|].
  destruct (Nat.ltb_spec (length dst) 16); [discriminate|].
  intros E.
  assert (d = aes.DecryptBlock c (firstn 16 src) ++ skipn 16 dst) as ->
    by congruence.
  rewrite length_app, DecryptBlock_length, length_skipn. lia.
Qed.

Lemma ecb_decrypt_length (c : aes.Block) (n : nat) :
  forall bs, length (ecb_decrypt n c bs) = (16 * n)%nat.
Proof.
  induction n as [|n IH]; intros bs; simpl.
  - reflexivity.
  - rewrite length_app, DecryptBlock_length, IH. lia.
Qed.

Lemma ecb_decrypt_S (c : aes.Block) (n : nat) (bs : list Z) :
  ecb_decrypt (S n) c bs
  = aes.DecryptBlock c (firstn 16 bs) ++ ecb_decrypt n c (skipn 16 bs).
Proof. reflexivity. Qed.

(** ECB decryption of [n] blocks reads the first [16 n] bytes only. *)
Lemma ecb_decrypt_firstn (c : aes.Block) (n : nat) :
  forall bs, ecb_decrypt n c (firstn (16 * n) bs) = ecb_decrypt n c bs.
Proof.
  induction n as [|n IH]; intros bs.
  - reflexivity.
  - rewrite !ecb_decrypt_S. f_equal.
    + f_equal. rewrite firstn_firstn. f_equal. lia.
    + rewrite <- (IH (skipn 16 bs)). f_equal.
      rewrite skipn_firstn_comm. f_equal. lia.
Qed.

(** ** ECM processor *)

Lemma processECM_loop_spec (c : aes.Block) (pkt : slice) (n : nat) :
  forall (j : nat) (ecm : list Z) (ch : Channel),
    (29 + 16 * (j + n) <= length (elems pkt))%nat ->
    (16 * (j + n) <= length ecm)%nat ->
    processECM_loop n (Z.of_nat j) (Some c) pkt ecm ch
    = Ret (firstn (16 * j) ecm
             ++ ecb_decrypt n c (skipn (29 + 16 * j) (elems pkt))
             ++ skipn (16 * (j + n)) ecm) ch.
Proof.
  induction n as [|n IH]; intros j ecm ch Hp He.
  - cbn [processECM_loop ecb_decrypt]. unfold ret.
    rewrite Nat.add_0_r. cbn [app]. rewrite firstn_skipn. reflexivity.
  - cbn [processECM_loop]. unfold bind at 1.
    replace (29 + Z.of_nat j * 16)%Z with (Z.of_nat (29 + 16 * j)) by lia.
    rewrite slice_from_ok by lia. cbn [must elems].
    unfold bind at 1. cbn [must]. unfold bind at 1.
    replace (Z.to_nat (Z.of_nat j * 16)) with (16 * j)%nat by lia.
    rewrite Decrypt_full by (rewrite length_skipn; lia). cbn [must].
    replace (Z.of_nat j + 1)%Z with (Z.of_nat (S j)) by lia.
    set (D := aes.DecryptBlock c (firstn 16 (skipn (29 + 16 * j) (elems pkt)))).
    assert (HD : length D = 16%nat) by apply DecryptBlock_length.
    assert (HF : length (firstn (16 * j) ecm) = (16 * j)%nat)
      by (rewrite length_firstn; lia).
    rewrite IH.
    + f_equal. rewrite ecb_decrypt_S. fold D.
      rewrite <- !app_assoc. 
      replace (16 * S j)%nat with (16 * j + 16)%nat by lia.
      rewrite firstn_app, HF.
      replace (16 * j + 16 - 16 * j)%nat with 16%nat by lia.
      rewrite (firstn_all2 (firstn (16 * j) ecm)) by lia.
      rewrite (firstn_app_exact 16 D) by assumption.
      rewrite <- !app_assoc. do 2 f_equal. f_equal.
      * rewrite skipn_skipn. do 2 f_equal. lia.
      * rewrite skipn_app_ge by lia. rewrite HF.
        rewrite skipn_app_ge by lia. rewrite HD.
        rewrite !skipn_skipn. f_equal. lia.
    + lia.
    + rewrite !length_app, HF, HD, !length_skipn. lia.
Qed.

Lemma processECM_loop_4 (c : aes.Block) (pkt : slice) (ch : Channel) :
  (93 <= length (elems pkt))%nat ->
  processECM_loop 4 0 (Some c) pkt (repeat 0 64) ch
  = Ret (ecm_plain c pkt) ch.
Proof.
  intros H. change 0 with (Z.of_nat 0) at 1.
  rewrite (processECM_loop_spec c pkt 4 0 (repeat 0 64) ch)
    by (rewrite ?repeat_length; lia).
  unfold ecm_plain.
  change (16 * (0 + 4))%nat with 64%nat. change (29 + 16 * 0)%nat with 29%nat.
  rewrite (skipn_all2 (repeat 0 64)) by (rewrite repeat_length; lia).
  change (firstn (16 * 0) (repeat 0 64)) with (@nil Z).
  rewrite app_nil_r. cbn [app].
  f_equal. symmetry. apply (ecb_decrypt_firstn c 4).
Qed.

Lemma ecm_plain_length (c : aes.Block) (pkt : slice) :
  length (ecm_plain c pkt) = 64%nat.
Proof. unfold ecm_plain. apply ecb_decrypt_length. Qed.

Lemma has_magic_iff (ecm : list Z) :
  (3 <= length ecm)%nat -> has_magic ecm = true <-> firstn 3 ecm = magic.
Proof.
  destruct ecm as [|a [|b [|c r]]]; cbn [length]; try lia. intros _.
  unfold has_magic, magic. cbn [nth firstn].
  rewrite !andb_true_iff, !Z.eqb_eq. split.
  - intros [[-> ->] ->]. reflexivity.
  - intros [= -> -> ->]. auto.
Qed.

(** [processECM] on a full TS packet, for a master key that gives a
    cipher. *)
Lemma processECM_spec (pkt : slice) (ch : Channel) (c : aes.Block) :
  length (elems pkt) = 188%nat ->
  aes.NewCipher (fst (hex.DecodeString (masterKey ch))) = Some c ->
  processECM pkt ch
  = let plain := ecm_plain c pkt in
    if has_magic plain then
      if nth 5 (elems pkt) 0 =? 129
      then Ret tt (set_keys (firstn 16 (skipn 9 plain))
                            (firstn 16 (skipn 25 plain)) ch)
      else Ret tt (set_keys (firstn 16 (skipn 25 plain))
                            (firstn 16 (skipn 9 plain)) ch)
    else Err EcmMagic ch.
Proof.
  intros Hlen Hc. unfold processECM.
  unfold bind at 1. cbn [get]. rewrite Hc.
  unfold bind at 1. rewrite processECM_loop_4 by lia.
  cbv zeta. unfold has_magic.
  destruct (nth 0 (ecm_plain c pkt) 0 =? 67); cbn [negb orb andb];
    [|reflexivity].
  destruct (nth 1 (ecm_plain c pkt) 0 =? 69); cbn [negb orb andb];
    [|reflexivity].
  destruct (nth 2 (ecm_plain c pkt) 0 =? 66); cbn [negb orb andb];
    [|reflexivity].
  unfold bind. change 5 with (Z.of_nat 5).
  rewrite index_nth by lia. cbn [must].
  destruct (nth 5 (elems pkt) 0 =? 129); reflexivity.
Qed.

(** C3 (ECM decryption and the magic check).  On a 188-byte TS packet and
    with a master key that yields a cipher, the ECM processor works on the
    AES-ECB decryption, in four 16-byte blocks, of the 64 bytes of the
    packet from byte 29 on; it returns an error exactly when that
    plaintext does not begin with 0x43 0x45 0x42, the error is [EcmMagic],
    and the channel, its two working keys included, is then left as it
    was.  Otherwise it returns normally. *)
Theorem processECM_magic (pkt : slice) (ch : Channel) (c : aes.Block) :
  length (elems pkt) = 188%nat ->
  aes.NewCipher (fst (hex.DecodeString (masterKey ch))) = Some c ->
  let plain := ecb_decrypt 4 c (firstn 64 (skipn 29 (elems pkt))) in
  length plain = 64%nat
  /\ processECM_loop 4 0 (Some c) pkt (repeat 0 64) ch = Ret plain ch
  /\ ((exists e ch', processECM pkt ch = Err e ch')
      <-> firstn 3 plain <> [67; 69; 66])
  /\ (firstn 3 plain <> [67; 69; 66] -> processECM pkt ch = Err EcmMagic ch)
  /\ (firstn 3 plain = [67; 69; 66] -> exists ch', processECM pkt ch = Ret tt ch')
  /\ (forall e ch', processECM pkt ch = Err e ch' ->
        aesKey1 ch' = aesKey1 ch /\ aesKey2 ch' = aesKey2 ch).
Proof.
  intros Hlen Hc plain.
  pose proof (processECM_spec pkt ch c Hlen Hc) as E. cbv zeta in E.
  fold (ecm_plain c pkt) in plain.
  assert (HL : length plain = 64%nat) by apply ecm_plain_length.
  pose proof (has_magic_iff plain ltac:(lia)) as HM. fold plain in E.
  unfold magic in HM.
  split; [assumption|].
  split; [apply processECM_loop_4; lia|].
  destruct (has_magic plain) eqn:Hm.
  - assert (Hf : firstn 3 plain = [67; 69; 66]) by (apply HM; reflexivity).
    repeat split.
    + intros (e & ch' & He). rewrite He in E.
      destruct (nth 5 (elems pkt) 0 =? 129); discriminate.
    + intros Hn. contradiction.
    + intros Hn. contradiction.
    + intros _. destruct (nth 5 (elems pkt) 0 =? 129); eauto.
    + rewrite E in H. destruct (nth 5 (elems pkt) 0 =? 129); discriminate.
    + rewrite E in H. destruct (nth 5 (elems pkt) 0 =? 129); discriminate.
  - assert (Hf : firstn 3 plain <> [67; 69; 66]).
    { intros Hf. apply HM in Hf. discriminate. }
    repeat split.
    + intros _. assumption.
    + intros _. eauto.
    + intros _. assumption.
    + intros Hn. contradiction.
    + rewrite E in H. injection H as _ <-. reflexivity.
    + rewrite E in H. injection H as _ <-. reflexivity.
Qed.

Lemma processECM_bad_key (pkt : slice) (ch : Channel) :
  aes.NewCipher (fst (hex.DecodeString (masterKey ch))) = None ->
  processECM pkt ch = Panic.
Proof.
  intros Hc. unfold processECM. unfold bind at 1. cbn [get]. rewrite Hc.
  unfold bind at 1. cbn [processECM_loop]. unfold bind at 1.
  unfold must. destruct (slice_from pkt (29 + 0 * 16)); reflexivity.
Qed.

Lemma processECM_magic_witness :
  let pkt := sample_ecm 129 in
  let ch := newChannel zero_key true in
  let c := aes.expandKey (repeat 0 16) in
  let plain := ecb_decrypt 4 c (firstn 64 (skipn 29 (elems pkt))) in
  length plain = 64%nat
  /\ processECM_loop 4 0 (Some c) pkt (repeat 0 64) ch = Ret plain ch
  /\ ((exists e ch', processECM pkt ch = Err e ch')
      <-> firstn 3 plain <> [67; 69; 66])
  /\ (firstn 3 plain <> [67; 69; 66] -> processECM pkt ch = Err EcmMagic ch)
  /\ (firstn 3 plain = [67; 69; 66] -> exists ch', processECM pkt ch = Ret tt ch')
  /\ (forall e ch', processECM pkt ch = Err e ch' ->
        aesKey1 ch' = aesKey1 ch /\ aesKey2 ch' = aesKey2 ch).
Proof.
  intros pkt ch c.
  apply (processECM_magic pkt ch c); vm_compute; reflexivity.
Defined.

(** C1 as amended (orientation of the two working keys).  When the ECM
    processor succeeds on a 188-byte packet, with [plain] the 64 decrypted
    bytes: if the selector byte at offset 5 is 0x81, the key used for
    scrambling-control 3 (odd) is [plain[9..25]] and the key used for
    scrambling-control 2 (even) is [plain[25..41]]; for any other selector
    the two are exchanged. *)
Theorem processECM_key_roles (pkt : slice) (ch ch' : Channel) (c : aes.Block) :
  length (elems pkt) = 188%nat ->
  aes.NewCipher (fst (hex.DecodeString (masterKey ch))) = Some c ->
  processECM pkt ch = Ret tt ch' ->
  let plain := ecb_decrypt 4 c (firstn 64 (skipn 29 (elems pkt))) in
  (nth 5 (elems pkt) 0 = 129 ->
     key_for 3 ch' = Some (firstn 16 (skipn 9 plain))
     /\ key_for 2 ch' = Some (firstn 16 (skipn 25 plain)))
  /\ (nth 5 (elems pkt) 0 <> 129 ->
     key_for 2 ch' = Some (firstn 16 (skipn 9 plain))
     /\ key_for 3 ch' = Some (firstn 16 (skipn 25 plain))).
Proof.
  intros Hlen Hc HR plain.
  rewrite (processECM_spec pkt ch c Hlen Hc) in HR. cbv zeta in HR.
  fold (ecm_plain c pkt) in plain. fold plain in HR.
  destruct (has_magic plain); [|discriminate].
  destruct (Z.eqb_spec (nth 5 (elems pkt) 0) 129) as [E|E];
    injection HR as <-; split; intros E'; try contradiction;
    split; reflexivity.
Qed.

Lemma processECM_key_roles_witness :
  let pkt := sample_ecm 129 in
  let ch := newChannel zero_key true in
  let c := aes.expandKey (repeat 0 16) in
  let ch' := set_keys key_10_1f key_20_2f ch in
  let plain := ecb_decrypt 4 c (firstn 64 (skipn 29 (elems pkt))) in
  (nth 5 (elems pkt) 0 = 129 ->
     key_for 3 ch' = Some (firstn 16 (skipn 9 plain))
     /\ key_for 2 ch' = Some (firstn 16 (skipn 25 plain)))
  /\ (nth 5 (elems pkt) 0 <> 129 ->
     key_for 2 ch' = Some (firstn 16 (skipn 9 plain))
     /\ key_for 3 ch' = Some (firstn 16 (skipn 25 plain))).
Proof.
  intros pkt ch c ch'.
  apply (processECM_key_roles pkt ch ch' c); vm_compute; reflexivity.
Defined.

(** C1 as stated fails: on the sample ECM, whose selector byte is 0x81, the
    processor succeeds and the key used for scrambling-control 2 (even) is
    [plain[25..41]], not [plain[9..25]]; likewise the key used for
    scrambling-control 3 (odd) is not [plain[25..41]]. *)
Lemma processECM_key_roles_counterexample :
  exists c ch',
    aes.NewCipher (fst (hex.DecodeString zero_key)) = Some c
    /\ processECM (sample_ecm 129) (newChannel zero_key true) = Ret tt ch'
    /\ nth 5 (elems (sample_ecm 129)) 0 = 129
    /\ key_for 2 ch'
       <> Some (firstn 16 (skipn 9
            (ecb_decrypt 4 c (firstn 64 (skipn 29 (elems (sample_ecm 129)))))))
    /\ key_for 3 ch'
       <> Some (firstn 16 (skipn 25
            (ecb_decrypt 4 c (firstn 64 (skipn 29 (elems (sample_ecm 129))))))).
Proof.
  exists (aes.expandKey (repeat 0 16)).
  exists (set_keys key_10_1f key_20_2f (newChannel zero_key true)).
  repeat split; try (vm_compute; reflexivity); vm_compute; discriminate.
Qed.

(** ** TS descrambler *)

Lemma scrambling_range (b : Z) : 0 <= scrambling b <= 3.
Proof.
  unfold scrambling.
  change (Z.land (Z.shiftr b 6) 3) with (Z.land (Z.shiftr b 6) (Z.ones 2)).
  rewrite Z.land_ones by lia. change (2 ^ 2) with 4.
  pose proof (Z.mod_pos_bound (Z.shiftr b 6) 4 ltac:(lia)). lia.
Qed.

Lemma NewCipher_16 (key : list Z) :
  length key = 16%nat -> aes.NewCipher key = Some (aes.expandKey key).
Proof. intros H. unfold aes.NewCipher. rewrite H. reflexivity. Qed.

(** The loop decrypts whole blocks as long as more than 16 bytes remain:
    of [16 k + r] bytes with [1 <= r <= 16] it decrypts [k] blocks and
    leaves the last [r] bytes. *)
Lemma decryptPacket_loop_spec (c : aes.Block) (k : nat) :
  forall (blocks tail : list Z) (fuel : nat) (ch : Channel),
    length blocks = (16 * k)%nat ->
    (length tail <= 16)%nat ->
    (k = 0 \/ 1 <= length tail)%nat ->
    (k <= fuel)%nat ->
    decryptPacket_loop fuel (Some c) (blocks ++ tail) ch
    = Ret (ecb_decrypt k c blocks ++ tail) ch.
Proof.
  induction k as [|k IH]; intros blocks tail fuel ch Hb Ht Hr Hf.
  - destruct blocks; [|discriminate]. cbn [app ecb_decrypt].
    destruct fuel; cbn [decryptPacket_loop];
      (destruct (Nat.ltb_spec 16 (length tail)); [lia|reflexivity]).
  - destruct fuel as [|fuel]; [lia|]. cbn [decryptPacket_loop].
    assert (HL : length (blocks ++ tail) = (length tail + 16 * S k)%nat)
      by (rewrite length_app; lia).
    destruct (Nat.ltb_spec 16 (length (blocks ++ tail))); [|lia].
    unfold bind at 1. cbn [must]. unfold bind at 1.
    rewrite Decrypt_full by lia. cbn [must].
    set (D := aes.DecryptBlock c (firstn 16 (blocks ++ tail))).
    assert (HD : length D = 16%nat) by apply DecryptBlock_length.
    rewrite (skipn_app_exact 16 D) by assumption.
    rewrite (firstn_app_exact 16 D) by assumption.
    rewrite skipn_app.
    replace (16 - length blocks)%nat with 0%nat by lia.
    change (skipn 0 tail) with tail.
    unfold bind.
    rewrite IH by (rewrite ?length_skipn; lia).
    unfold ret. f_equal. rewrite ecb_decrypt_S, <- app_assoc.
    subst D. rewrite firstn_app.
    replace (16 - length blocks)%nat with 0%nat by lia.
    change (firstn 0 tail) with (@nil Z). rewrite app_nil_r. reflexivity.
Qed.

Lemma decryptPacket_spec (pkt : slice) (ch : Channel) (k1 k2 key : list Z)
      (c : aes.Block) (k r : nat) :
  aesKey1 ch = Some k1 -> aesKey2 ch = Some k2 ->
  2 <= scramble_of pkt ->
  key_for (scramble_of pkt) ch = Some key ->
  aes.NewCipher key = Some c ->
  length (elems pkt) = (4 + 16 * k + r)%nat -> (1 <= r <= 16)%nat ->
  decryptPacket pkt ch
  = Ret {| elems := firstn 4 (elems pkt)
                    ++ ecb_decrypt k c (firstn (16 * k) (skipn 4 (elems pkt)))
                    ++ skipn (4 + 16 * k) (elems pkt);
           spare := spare pkt |} ch.
Proof.
  intros H1 H2 Hs Hk Hc Hlen Hr. unfold decryptPacket.
  unfold bind at 1. cbn [get]. rewrite H1, H2.
  unfold bind at 1. change (index pkt 3) with (index pkt (Z.of_nat 3)).
  rewrite index_nth by lia. cbn [must]. cbv zeta.
  fold (scramble_of pkt).
  destruct (Z.ltb_spec (scramble_of pkt) 2); [lia|].
  assert (Hkey : (if scramble_of pkt =? 2 then k2
                  else if scramble_of pkt =? 3 then k1 else []) = key).
  { unfold key_for in Hk.
    pose proof (scrambling_range (nth 3 (elems pkt) 0)) as Hrange.
    fold (scramble_of pkt) in Hrange.
    destruct (Z.eqb_spec (scramble_of pkt) 2); [congruence|].
    destruct (Z.eqb_spec (scramble_of pkt) 3); [congruence|lia]. }
  rewrite Hkey, Hc.
  unfold bind at 1.
  change (slice_from pkt 4) with (slice_from pkt (Z.of_nat 4)).
  rewrite slice_from_ok by lia. cbn [must elems].
  unfold bind at 1.
  rewrite <- (firstn_skipn (16 * k) (skipn 4 (elems pkt))) at 2.
  rewrite decryptPacket_loop_spec with (k := k).
  - unfold ret. rewrite skipn_skipn.
    replace (16 * k + 4)%nat with (4 + 16 * k)%nat by lia. reflexivity.
  - rewrite length_firstn, length_skipn. lia.
  - rewrite !length_skipn. lia.
  - rewrite !length_skipn. lia.
  - rewrite length_skipn. lia.
Qed.

(** C4 (block policy of the descrambler).  With both working keys
    installed as 16-byte keys and scrambling-control 2 or 3, the descrambler
    builds a cipher from the key that scrambling-control selects and, on a
    188-byte packet, returns the packet with bytes 0..3 as they were, bytes
    4..180 replaced by the AES-ECB decryption of these eleven 16-byte
    blocks, and the last 8 bytes as they were.  For any packet length
    [4 + 16 k + r] with [1 <= r <= 16] it decrypts [k] blocks and leaves the
    last [r] bytes, a full 16-byte tail included, untouched. *)
Theorem decryptPacket_blocks (pkt : slice) (ch : Channel) (k1 k2 : list Z) :
  aesKey1 ch = Some k1 -> aesKey2 ch = Some k2 ->
  length k1 = 16%nat -> length k2 = 16%nat ->
  2 <= scramble_of pkt ->
  exists key c,
    key_for (scramble_of pkt) ch = Some key
    /\ aes.NewCipher key = Some c
    /\ (length (elems pkt) = 188%nat ->
        decryptPacket pkt ch
        = Ret {| elems := firstn 4 (elems pkt)
                          ++ ecb_decrypt 11 c
                               (firstn 176 (skipn 4 (elems pkt)))
                          ++ skipn 180 (elems pkt);
                 spare := spare pkt |} ch)
    /\ (forall k r : nat,
          length (elems pkt) = (4 + 16 * k + r)%nat -> (1 <= r <= 16)%nat ->
          decryptPacket pkt ch
          = Ret {| elems := firstn 4 (elems pkt)
                            ++ ecb_decrypt k c
                                 (firstn (16 * k) (skipn 4 (elems pkt)))
                            ++ skipn (4 + 16 * k) (elems pkt);
                   spare := spare pkt |} ch).
Proof.
  intros H1 H2 L1 L2 Hs.
  pose proof (scrambling_range (nth 3 (elems pkt) 0)) as Hrange.
  fold (scramble_of pkt) in Hrange.
  assert (Hk : exists key, key_for (scramble_of pkt) ch = Some key
                           /\ length key = 16%nat).
  { unfold key_for.
    destruct (Z.eqb_spec (scramble_of pkt) 2); [eauto|].
    destruct (Z.eqb_spec (scramble_of pkt) 3); [eauto|lia]. }
  destruct Hk as (key & Hk & Lk).
  exists key, (aes.expandKey key).
  split; [assumption|]. split; [apply NewCipher_16; assumption|].
  split.
  - intros Hlen.
    apply (decryptPacket_spec pkt ch k1 k2 key (aes.expandKey key) 11 8);
      auto using NewCipher_16; lia.
  - intros k r Hlen Hr.
    apply (decryptPacket_spec pkt ch k1 k2 key (aes.expandKey key) k r);
      auto using NewCipher_16.
Qed.

(** C5 (descrambler pass-through).  On a 188-byte packet the descrambler
    returns the packet as it is when the scrambling-control bits are below
    2, and also when the working key that these bits select is not
    installed. *)
Theorem decryptPacket_passthrough (pkt : slice) (ch : Channel) :
  length (elems pkt) = 188%nat ->
  scramble_of pkt < 2 \/ key_for (scramble_of pkt) ch = None ->
  decryptPacket pkt ch = Ret pkt ch.
Proof.
  intros Hlen H. unfold decryptPacket. unfold bind at 1. cbn [get].
  destruct (aesKey1 ch) as [k1|] eqn:H1; [|reflexivity].
  destruct (aesKey2 ch) as [k2|] eqn:H2; [|reflexivity].
  unfold bind at 1. change (index pkt 3) with (index pkt (Z.of_nat 3)).
  rewrite index_nth by lia. cbn [must]. cbv zeta. fold (scramble_of pkt).
  destruct (Z.ltb_spec (scramble_of pkt) 2); [reflexivity|].
  destruct H as [H|H]; [lia|]. exfalso.
  pose proof (scrambling_range (nth 3 (elems pkt) 0)) as Hrange.
  fold (scramble_of pkt) in Hrange. unfold key_for in H.
  destruct (Z.eqb_spec (scramble_of pkt) 2); [congruence|].
  destruct (Z.eqb_spec (scramble_of pkt) 3); [congruence|lia].
Qed.

Lemma decryptPacket_blocks_witness :
  let pkt := sample_ts 3 in
  let ch := sample_keyed in
  exists key c,
    key_for (scramble_of pkt) ch = Some key
    /\ aes.NewCipher key = Some c
    /\ (length (elems pkt) = 188%nat ->
        decryptPacket pkt ch
        = Ret {| elems := firstn 4 (elems pkt)
                          ++ ecb_decrypt 11 c
                               (firstn 176 (skipn 4 (elems pkt)))
                          ++ skipn 180 (elems pkt);
                 spare := spare pkt |} ch)
    /\ (forall k r : nat,
          length (elems pkt) = (4 + 16 * k + r)%nat -> (1 <= r <= 16)%nat ->
          decryptPacket pkt ch
          = Ret {| elems := firstn 4 (elems pkt)
                            ++ ecb_decrypt k c
                                 (firstn (16 * k) (skipn 4 (elems pkt)))
                            ++ skipn (4 + 16 * k) (elems pkt);
                   spare := spare pkt |} ch).
Proof.
  intros pkt ch.
  apply (decryptPacket_blocks pkt ch key_10_1f key_20_2f);
    try reflexivity.
  vm_compute. discriminate.
Defined.

(** The sample packet, scrambled under the odd key, comes out with its
    header, the clear body 0, 1, ..., 175 and its tail. *)
Example decryptPacket_sample :
  decryptPacket (sample_ts 3) sample_keyed
  = Ret {| elems := [71; 1; 0; 208] ++ map Z.of_nat (seq 0 176)
                    ++ repeat 170 8;
           spare := [] |} sample_keyed.
Proof. vm_compute. reflexivity. Qed.

Lemma decryptPacket_passthrough_witness :
  decryptPacket (sample_ts 1) sample_keyed = Ret (sample_ts 1) sample_keyed
  /\ decryptPacket (sample_ts 3) (newChannel zero_key true)
     = Ret (sample_ts 3) (newChannel zero_key true).
Proof.
  split.
  - apply (decryptPacket_passthrough (sample_ts 1) sample_keyed).
    + reflexivity.
    + left. vm_compute. reflexivity.
  - apply (decryptPacket_passthrough (sample_ts 3) (newChannel zero_key true)).
    + reflexivity.
    + right. reflexivity.
Defined.

(** ** Properties kept by every call *)

Lemma bind_Ret {A B} (m : M A) (k : A -> M B) ch b ch2 :
  bind m k ch = Ret b ch2 ->
  exists a ch1, m ch = Ret a ch1 /\ k a ch1 = Ret b ch2.
Proof.
  unfold bind. destruct (m ch) as [a ch1| | |]; try discriminate. eauto.
Qed.

Lemma must_Ret {A} (o : option A) ch a ch1 :
  must o ch = Ret a ch1 -> o = Some a /\ ch1 = ch.
Proof.
  unfold must. destruct o; [|discriminate]. intros [= -> ->]. auto.
Qed.

Lemma pres_ret {A} P (a : A) : preserves P (ret a).
Proof. intros ch H. exact H. Qed.

Lemma pres_fail {A} P e : preserves P (@fail A e).
Proof. intros ch H. exact H. Qed.

Lemma pres_must {A} P (o : option A) : preserves P (must o).
Proof. intros ch H. unfold must. destruct o; [exact H|exact I]. Qed.

Lemma pres_get P : preserves P get.
Proof. intros ch H. exact H. Qed.

Lemma pres_spin {A} P : preserves P (@spin A).
Proof. intros ch H. exact I. Qed.

Lemma pres_panic {A} P : preserves P (@panic A).
Proof. intros ch H. exact I. Qed.

Lemma pres_modify P f :
  (forall ch, P ch -> P (f ch)) -> preserves P (modify f).
Proof. intros Hf ch H. apply Hf, H. Qed.

Lemma pres_bind {A B} P (m : M A) (k : A -> M B) :
  preserves P m -> (forall a, preserves P (k a)) -> preserves P (bind m k).
Proof.
  intros Hm Hk ch H. unfold bind. specialize (Hm ch H).
  destruct (m ch) as [a ch1|e ch1| |]; try exact Hm; try exact I.
  apply Hk, Hm.
Qed.

Ltac pres_step :=
  cbv zeta;
  lazymatch goal with
  | |- preserves _ (ret _) => apply pres_ret
  | |- preserves _ (fail _) => apply pres_fail
  | |- preserves _ (must _) => apply pres_must
  | |- preserves _ get => apply pres_get
  | |- preserves _ spin => apply pres_spin
  | |- preserves _ panic => apply pres_panic
  | |- preserves _ (modify _) => apply pres_modify; solve [auto]
  | |- preserves _ (bind _ _) => apply pres_bind; [|intro]
  | |- preserves _ (if ?b then _ else _) => destruct b
  | |- preserves _ (match ?o with _ => _ end) => destruct o
  end.

Ltac pres := repeat pres_step.

(** The ECM loop leaves the channel alone and keeps the size of [ecm]. *)
Lemma processECM_loop_Ret (cipher : option aes.Block) (pkt : slice) (n : nat) :
  forall (i : Z) (ecm ecm' : list Z) (ch ch' : Channel),
    0 <= i -> (Z.to_nat (i * 16) + 16 * n <= length ecm)%nat ->
    processECM_loop n i cipher pkt ecm ch = Ret ecm' ch' ->
    ch' = ch /\ length ecm' = length ecm.
Proof.
  induction n as [|n IH]; intros i ecm ecm' ch ch' Hi He HR.
  - cbn in HR. injection HR as <- <-. auto.
  - cbn [processECM_loop] in HR.
    apply bind_Ret in HR as (src & ch1 & H1 & HR).
    apply must_Ret in H1 as [_ ->].
    apply bind_Ret in HR as (c & ch1 & H1 & HR).
    apply must_Ret in H1 as [_ ->].
    apply bind_Ret in HR as (d & ch1 & H1 & HR).
    apply must_Ret in H1 as [Hd ->].
    apply Decrypt_length in Hd. rewrite length_skipn in Hd.
    apply IH in HR.
    + destruct HR as [-> ->]. split; [reflexivity|].
      rewrite length_app, length_firstn. lia.
    + lia.
    + rewrite length_app, length_firstn. lia.
Qed.

Section Invariants.

Variable P : Channel -> Prop.
Hypothesis P_rtp : forall s ch, P ch -> P (set_rtp s ch).
Hypothesis P_lastRTPSeq : forall s ch, P ch -> P (set_lastRTPSeq s ch).
Hypothesis P_pmtPid : forall v ch, P ch -> P (set_pmtPid v ch).
Hypothesis P_ecmPid : forall v ch, P ch -> P (set_ecmPid v ch).
Hypothesis P_keys :
  forall a b ch, length a = 16%nat -> length b = 16%nat ->
                 P ch -> P (set_keys a b ch).
Hypothesis P_ring : forall b sl ch, P ch -> P (set_ring b sl ch).
Hypothesis P_ioerr : forall ch, P ch -> P (set_ioerr ch).
Hypothesis P_numClients : forall n ch, P ch -> P (set_numClients n ch).

Lemma parseRTP_preserves pkt : preserves P (parseRTP pkt).
Proof. unfold parseRTP. pres. Qed.

Lemma processECM_preserves pkt : preserves P (processECM pkt).
Proof.
  intros ch H. unfold processECM. unfold bind at 1. cbn [get].
  unfold bind at 1.
  destruct (processECM_loop 4 0 _ pkt (repeat 0 64) ch) as [ecm ch1| | |] eqn:E;
    try exact I.
  - apply processECM_loop_Ret in E as [-> L];
      [|lia|rewrite repeat_length; cbn; lia].
    rewrite repeat_length in L.
    assert (pres_rest :
      preserves P
        (if negb (nth 0 ecm 0 =? 67) || negb (nth 1 ecm 0 =? 69)
            || negb (nth 2 ecm 0 =? 66)
         then fail EcmMagic
         else b5 <- must (index pkt 5) ;;
              if b5 =? 129
              then modify (set_keys (firstn 16 (skipn 9 ecm))
                                    (firstn 16 (skipn 25 ecm)))
              else modify (set_keys (firstn 16 (skipn 25 ecm))
                                    (firstn 16 (skipn 9 ecm))))).
    { pres; apply pres_modify; intros; apply P_keys;
        try assumption; rewrite length_firstn, length_skipn; lia. }
    apply pres_rest, H.
  - clear - E. exfalso. revert E. generalize (repeat 0 64).
    generalize 0. generalize 4%nat.
    intros n. induction n as [|n IH]; intros i ecm; cbn [processECM_loop].
    + discriminate.
    + unfold bind, must.
      destruct (slice_from pkt (29 + i * 16)); [|discriminate].
      destruct (aes.NewCipher _); [|discriminate].
      destruct (Decrypt _ _ _); [|discriminate].
      apply IH.
Qed.

Lemma decryptPacket_loop_preserves cipher fuel :
  forall pkt, preserves P (decryptPacket_loop fuel cipher pkt).
Proof.
  induction fuel as [|fuel IH]; intros pkt; cbn [decryptPacket_loop].
  - pres.
  - destruct (16 <? length pkt)%nat; [|pres].
    apply pres_bind; [pres|intro]. apply pres_bind; [pres|intro].
    apply pres_bind; [apply IH|intro]. pres.
Qed.

Lemma decryptPacket_preserves pkt : preserves P (decryptPacket pkt).
Proof.
  unfold decryptPacket. apply pres_bind; [pres|intro ch0].
  destruct (aesKey1 ch0); [|pres]. destruct (aesKey2 ch0); [|pres].
  apply pres_bind; [pres|intro]. cbv zeta.
  destruct (_ <? 2); [pres|].
  apply pres_bind; [pres|intro].
  apply pres_bind; [apply decryptPacket_loop_preserves|intro]. pres.
Qed.

Lemma parseEcmPid_loop_preserves fuel :
  forall desc, preserves P (parseEcmPid_loop fuel desc).
Proof.
  induction fuel as [|fuel IH]; intros desc; cbn [parseEcmPid_loop].
  - pres.
  - destruct (len desc >? 0); [|pres].
    apply pres_bind; [pres|intro tag]. apply pres_bind; [pres|intro l].
    cbv zeta.
    assert (Hnext : preserves P
              (desc' <- must (slice_from desc (u8 (2 + l))) ;;
               parseEcmPid_loop fuel desc')).
    { apply pres_bind; [pres|intro]. apply IH. }
    destruct (tag =? 9); [|exact Hnext].
    apply pres_bind; [pres|intro]. apply pres_bind; [pres|intro caid].
    destruct (caid =? 22017); [pres|exact Hnext].
Qed.

Lemma parseEcmPid_preserves desc : preserves P (parseEcmPid desc).
Proof. apply parseEcmPid_loop_preserves. Qed.

Lemma addToBuf_preserves val : preserves P (addToBuf val).
Proof. unfold addToBuf. pres. Qed.

Lemma currentPtr_preserves : preserves P currentPtr.
Proof. unfold currentPtr. pres. Qed.

Lemma closeBuf_preserves : preserves P closeBuf.
Proof. unfold closeBuf. pres. Qed.

Lemma clientJoin_preserves : preserves P clientJoin.
Proof. unfold clientJoin. pres. Qed.

Lemma clientLeave_preserves : preserves P clientLeave.
Proof. unfold clientLeave. pres. Qed.

Lemma processPAT_preserves pkt : preserves P (processPAT pkt).
Proof. unfold processPAT. pres. Qed.

Lemma processPMT_preserves pkt : preserves P (processPMT pkt).
Proof.
  unfold processPMT.
  apply pres_bind; [pres|intro]. destruct (negb _); [pres|].
  apply pres_bind; [pres|intro]. destruct (negb _); [pres|].
  apply pres_bind; [pres|intro]. apply pres_bind; [pres|intro]. cbv zeta.
  apply pres_bind; [pres|intro]. apply parseEcmPid_preserves.
Qed.

Lemma processPayload_preserves pid pkt : preserves P (processPayload pid pkt).
Proof.
  unfold processPayload.
  apply pres_bind; [pres|intro ch0].
  apply pres_bind.
  { destruct (_ && _); [apply processECM_preserves|pres]. }
  intros _. apply pres_bind; [apply decryptPacket_preserves|intro].
  apply pres_bind; [pres|intro ch1].
  apply pres_bind; [|intro; pres].
  destruct (http ch1); [apply addToBuf_preserves|pres].
Qed.

Lemma processPacket_preserves pkt : preserves P (processPacket pkt).
Proof.
  unfold processPacket.
  apply pres_bind; [pres|intro]. destruct (negb _); [pres|].
  apply pres_bind; [pres|intro]. apply pres_bind; [pres|intro]. cbv zeta.
  apply pres_bind; [pres|intro ch0].
  apply pres_bind.
  { destruct (_ && _); [apply processPAT_preserves|pres]. }
  intros _. apply pres_bind; [pres|intro ch1].
  apply pres_bind.
  { destruct (_ && _); [apply processPMT_preserves|pres]. }
  intros _. apply processPayload_preserves.
Qed.

Lemma processRTP_loop_preserves fuel :
  forall pkt, preserves P (processRTP_loop fuel pkt).
Proof.
  induction fuel as [|fuel IH]; intros pkt; cbn [processRTP_loop].
  - pres.
  - destruct (len pkt >? 0); [|pres].
    apply pres_bind; [pres|intro].
    apply pres_bind; [apply processPacket_preserves|intro].
    apply pres_bind; [pres|intro].
    apply pres_bind; [apply IH|intro]. pres.
Qed.

Lemma processRTP_preserves payload offset :
  preserves P (processRTP payload offset).
Proof.
  unfold processRTP. destruct (negb _); [pres|].
  apply pres_bind; [pres|intro].
  apply pres_bind; [apply processRTP_loop_preserves|intro]. pres.
Qed.

Lemma handleDatagram_preserves data : preserves P (handleDatagram data).
Proof.
  unfold handleDatagram. cbv zeta.
  apply pres_bind; [apply parseRTP_preserves|intro].
  apply processRTP_preserves.
Qed.

Lemma decryptHTTP_turn_preserves r : preserves P (decryptHTTP_turn r).
Proof.
  intros ch H. unfold decryptHTTP_turn. destruct r as [data|].
  - pose proof (handleDatagram_preserves data ch H) as Hd.
    destruct (handleDatagram data ch) as [a ch1|e ch1| |]; try exact I.
    + exact Hd.
    + assert (Hc : preserves P (closeBuf ;;; ret (Stopped (Some e)))).
      { apply pres_bind; [apply closeBuf_preserves|intro; pres]. }
      apply Hc, Hd.
  - assert (Hc : preserves P (closeBuf ;;; ret (Stopped None))).
    { apply pres_bind; [apply closeBuf_preserves|intro; pres]. }
    apply Hc, H.
Qed.

(** Every call that returns keeps the property. *)
Lemma run_preserves (c : call) (ch ch' : Channel) :
  P ch -> run c ch = Some ch' -> P ch'.
Proof.
  intros H R.
  assert (K : forall A (m : M A), preserves P m ->
                state_after (m ch) = Some ch' -> P ch').
  { intros A m Hm E. specialize (Hm ch H).
    destruct (m ch); cbn in E; try discriminate; injection E as <-;
      exact Hm. }
  destruct c; cbn [run] in R.
  - eapply K; [apply parseRTP_preserves|eassumption].
  - eapply K; [apply processECM_preserves|eassumption].
  - eapply K; [apply decryptPacket_preserves|eassumption].
  - eapply K; [apply parseEcmPid_preserves|eassumption].
  - eapply K; [apply processPacket_preserves|eassumption].
  - eapply K; [apply processRTP_preserves|eassumption].
  - eapply K; [apply handleDatagram_preserves|eassumption].
  - eapply K; [apply decryptHTTP_turn_preserves|eassumption].
  - eapply K; [apply addToBuf_preserves|eassumption].
  - eapply K; [apply currentPtr_preserves|eassumption].
  - destruct (nextPtr ptr ch); try discriminate; injection R as <-; exact H.
  - eapply K; [apply closeBuf_preserves|eassumption].
  - eapply K; [apply clientJoin_preserves|eassumption].
  - eapply K; [apply clientLeave_preserves|eassumption].
Qed.

Lemma runs_preserves (cs : list call) :
  forall ch ch', P ch -> runs cs ch = Some ch' -> P ch'.
Proof.
  induction cs as [|c cs IH]; intros ch ch' H R; cbn [runs] in R.
  - injection R as <-. exact H.
  - destruct (run c ch) as [ch1|] eqn:E; [|discriminate].
    eapply IH; [|eassumption]. eapply run_preserves; eassumption.
Qed.

End Invariants.

(** ** Ring closure *)

Lemma closeBuf_sets_ioerr (ch ch' : Channel) :
  closeBuf ch = Ret tt ch' -> ioerr ch' = true.
Proof.
  unfold closeBuf. unfold bind. cbn [get].
  destruct (buf ch); [|discriminate].
  unfold modify. intros [= <-]. reflexivity.
Qed.

Lemma nextPtr_closed (ptr : option nat) (ch : Channel) :
  ioerr ch = true -> nextPtr ptr ch = Returns ptr None.
Proof.
  intros H. unfold nextPtr. rewrite H. cbn [negb].
  rewrite andb_false_r. reflexivity.
Qed.

(** C8 (the closed ring stays closed).  From a channel whose [ioerr] flag
    is set, whatever calls are made and return, the flag is still set
    afterwards, and [nextPtr] then returns the reader's own cursor and no
    value, for every cursor. *)
Theorem ioerr_terminal (cs : list call) (ch ch' : Channel) :
  ioerr ch = true ->
  runs cs ch = Some ch' ->
  ioerr ch' = true /\ forall ptr, nextPtr ptr ch' = Returns ptr None.
Proof.
  intros H R.
  assert (H' : ioerr ch' = true).
  { apply (runs_preserves (fun c => ioerr c = true)) with (cs := cs) (ch := ch);
      try assumption; intros; first [assumption | reflexivity]. }
  split; [exact H'|]. intros ptr. apply nextPtr_closed, H'.
Qed.

Lemma ioerr_terminal_witness :
  let ch := set_ioerr (newChannel zero_key true) in
  let cs := [CallAddToBuf [1; 2; 3]; CallNextPtr (Some 5%nat);
             CallDecryptHTTP None; CallCurrentPtr; CallClientLeave] in
  exists ch', runs cs ch = Some ch'
              /\ ioerr ch' = true
              /\ forall ptr, nextPtr ptr ch' = Returns ptr None.
Proof.
  intros ch cs. eexists. split; [reflexivity|].
  apply (ioerr_terminal cs ch); reflexivity.
Defined.

(** ** The two working keys *)

Lemma processECM_installs (pkt : slice) (ch ch' : Channel) :
  processECM pkt ch = Ret tt ch' -> keys_installed ch'.
Proof.
  unfold processECM. intros R.
  apply bind_Ret in R as (ch0 & ch1 & G & R). injection G as <- <-.
  apply bind_Ret in R as (ecm & ch1 & L & R).
  apply processECM_loop_Ret in L as [-> L];
    [|lia|rewrite repeat_length; cbn; lia].
  rewrite repeat_length in L.
  destruct (_ || _); [discriminate|].
  apply bind_Ret in R as (b5 & ch1 & _ & R).
  assert (L9 : length (firstn 16 (skipn 9 ecm)) = 16%nat)
    by (rewrite length_firstn, length_skipn; lia).
  assert (L25 : length (firstn 16 (skipn 25 ecm)) = 16%nat)
    by (rewrite length_firstn, length_skipn; lia).
  destruct (b5 =? 129); injection R as <-; unfold keys_installed;
    cbn [set_keys aesKey1 aesKey2]; eauto 6.
Qed.

Lemma keys_paired_runs (cs : list call) (ch ch' : Channel) :
  keys_paired ch -> runs cs ch = Some ch' -> keys_paired ch'.
Proof.
  intros H R.
  apply (runs_preserves keys_paired) with (cs := cs) (ch := ch);
    try assumption; try (intros; assumption).
  intros a b c La Lb _. right. exists a, b. auto.
Qed.

(** C10 (the working keys come in pairs).  In every state a channel
    reaches from [newChannel], the two working keys are both unset or both
    set to 16-byte values; a successful run of the ECM processor leaves
    both set; and the descrambler returns a changed packet only when both
    are set. *)
Theorem keys_paired_always (k : String.string) (h : bool) (cs : list call)
        (ch : Channel) :
  runs cs (newChannel k h) = Some ch ->
  keys_paired ch
  /\ (forall pkt ch1, processECM pkt ch = Ret tt ch1 -> keys_installed ch1)
  /\ (forall pkt pkt' ch1,
        decryptPacket pkt ch = Ret pkt' ch1 -> pkt' <> pkt ->
        keys_installed ch).
Proof.
  intros R.
  assert (HP : keys_paired ch).
  { apply (keys_paired_runs cs (newChannel k h)); [|assumption].
    left. split; reflexivity. }
  split; [exact HP|]. split.
  - intros pkt ch1. apply processECM_installs.
  - intros pkt pkt' ch1 D Hne.
    destruct HP as [[N1 N2]|HI]; [|exact HI]. exfalso.
    unfold decryptPacket in D. unfold bind at 1 in D. cbn [get] in D.
    rewrite N1 in D. injection D as <- _. apply Hne. reflexivity.
Qed.

Lemma keys_paired_always_witness :
  let cs := [CallProcessECM (sample_ecm 129);
             CallDecryptPacket (sample_ts 3); CallClientJoin] in
  exists ch,
    runs cs (newChannel zero_key true) = Some ch
    /\ keys_paired ch
    /\ (forall pkt ch1, processECM pkt ch = Ret tt ch1 -> keys_installed ch1)
    /\ (forall pkt pkt' ch1,
          decryptPacket pkt ch = Ret pkt' ch1 -> pkt' <> pkt ->
          keys_installed ch).
Proof.
  intros cs. eexists. split; [vm_compute; reflexivity|].
  apply (keys_paired_always zero_key true cs). vm_compute. reflexivity.
Defined.

(** ** PSI walker *)

Lemma firstn2_skipn (l r : list Z) (i : nat) :
  (i + 2 <= length l)%nat ->
  firstn 2 (skipn i (l ++ r)) = [nth i l 0; nth (S i) l 0].
Proof.
  revert l. induction i as [|i IH]; intros l H.
  - destruct l as [|a [|b l]]; cbn [length] in H; try lia. reflexivity.
  - destruct l as [|a l]; cbn [length] in H; [lia|].
    cbn [skipn app nth]. apply IH. lia.
Qed.

Lemma Uint16_pair (a b : Z) (l sp : list Z) :
  Uint16 {| elems := a :: b :: l; spare := sp |} = Some (u16be a b).
Proof.
  unfold Uint16.
  change (index ?s 1) with (index s (Z.of_nat 1)).
  change (index ?s 0) with (index s (Z.of_nat 0)).
  rewrite !index_nth by (cbn [elems length]; lia). reflexivity.
Qed.

(** Reading a big-endian 16-bit field inside the packet. *)
Lemma slice_u16 (pkt : slice) (i : nat) :
  (i + 2 <= length (elems pkt))%nat ->
  exists s, slice_range pkt (Z.of_nat i) (Z.of_nat (i + 2)) = Some s
            /\ Uint16 s = Some (u16be (nth i (elems pkt) 0)
                                      (nth (S i) (elems pkt) 0)).
Proof.
  intros H. eexists. split.
  - apply slice_range_ok; lia.
  - replace (i + 2 - i)%nat with 2%nat by lia.
    unfold backing. rewrite firstn2_skipn by assumption.
    apply Uint16_pair.
Qed.

Lemma processPAT_188 (pkt : slice) (ch : Channel) :
  length (elems pkt) = 188%nat ->
  processPAT pkt ch
  = if negb (nth 4 (elems pkt) 0 =? 0) then Err PatPointer ch
    else if negb (nth 5 (elems pkt) 0 =? 0)
         then Err (PatTable (nth 5 (elems pkt) 0)) ch
         else Ret tt (set_pmtPid
                        (Z.land (u16be (nth 15 (elems pkt) 0)
                                       (nth 16 (elems pkt) 0)) 8191) ch).
Proof.
  intros Hlen. unfold processPAT.
  change (index pkt 4) with (index pkt (Z.of_nat 4)).
  change (index pkt 5) with (index pkt (Z.of_nat 5)).
  unfold bind at 1. rewrite index_nth by lia. cbn [must].
  destruct (negb (nth 4 (elems pkt) 0 =? 0)); [reflexivity|].
  unfold bind at 1. rewrite index_nth by lia. cbn [must].
  destruct (negb (nth 5 (elems pkt) 0 =? 0)); [reflexivity|].
  destruct (slice_u16 pkt 15 ltac:(lia)) as (s & Hs & Hu).
  change (slice_range pkt 15 17)
    with (slice_range pkt (Z.of_nat 15) (Z.of_nat (15 + 2))).
  unfold bind at 1. rewrite Hs. cbn [must].
  unfold bind at 1. rewrite Hu. reflexivity.
Qed.

Lemma processPMT_188 (pkt : slice) (ch : Channel) :
  length (elems pkt) = 188%nat ->
  processPMT pkt ch
  = if negb (nth 4 (elems pkt) 0 =? 0) then Err PmtPointer ch
    else if negb (nth 5 (elems pkt) 0 =? 2)
         then Err (PmtTable (nth 5 (elems pkt) 0)) ch
         else
           (desc <- must (slice_range pkt 17
                            (u16 (17 + Z.land (u16be (nth 15 (elems pkt) 0)
                                                     (nth 16 (elems pkt) 0))
                                              1023))) ;;
            parseEcmPid desc) ch.
Proof.
  intros Hlen. unfold processPMT.
  change (index pkt 4) with (index pkt (Z.of_nat 4)).
  change (index pkt 5) with (index pkt (Z.of_nat 5)).
  unfold bind at 1. rewrite index_nth by lia. cbn [must].
  destruct (negb (nth 4 (elems pkt) 0 =? 0)); [reflexivity|].
  unfold bind at 1. rewrite index_nth by lia. cbn [must].
  destruct (negb (nth 5 (elems pkt) 0 =? 2)); [reflexivity|].
  destruct (slice_u16 pkt 15 ltac:(lia)) as (s & Hs & Hu).
  change (slice_range pkt 15 17)
    with (slice_range pkt (Z.of_nat 15) (Z.of_nat (15 + 2))).
  unfold bind at 1. rewrite Hs. cbn [must].
  unfold bind at 1. rewrite Hu. reflexivity.
Qed.

Lemma processPacket_188 (pkt : slice) (ch : Channel) :
  length (elems pkt) = 188%nat ->
  nth 0 (elems pkt) 0 = 71 ->
  processPacket pkt ch
  = ((if negb (pmtPidFound ch) && (pid_of pkt =? 0) then processPAT pkt
      else ret tt) ;;;
     ch1 <- get ;;
     (if negb (ecmPidFound ch1) && pmtPidFound ch1
         && (pid_of pkt =? pmtPid ch1)
      then processPMT pkt
      else ret tt) ;;;
     processPayload (pid_of pkt) pkt) ch.
Proof.
  intros Hlen Hsync. unfold processPacket.
  change (index pkt 0) with (index pkt (Z.of_nat 0)).
  unfold bind at 1. rewrite index_nth by lia. cbn [must].
  rewrite Hsync. cbn [Z.eqb Pos.eqb negb].
  destruct (slice_u16 pkt 1 ltac:(lia)) as (s & Hs & Hu).
  change (slice_range pkt 1 3)
    with (slice_range pkt (Z.of_nat 1) (Z.of_nat (1 + 2))).
  unfold bind at 1. rewrite Hs. cbn [must].
  unfold bind at 1. rewrite Hu. cbn [must]. cbv zeta.
  fold (pid_of pkt). unfold bind at 1. cbn [get]. reflexivity.
Qed.

(** On a well-formed descriptor sequence of at most 255 bytes the loop of
    [parseEcmPid] computes the scan of the specification. *)
Lemma parseEcmPid_loop_scan (region : list Z) (r : option Z) :
  scan region r ->
  forall (sp : list Z) (fuel : nat) (ch : Channel),
    (length region <= 255)%nat -> (length region <= fuel)%nat ->
    parseEcmPid_loop fuel {| elems := region; spare := sp |} ch
    = match r with
      | Some v => Ret tt (set_ecmPid v ch)
      | None => Err EcmPidNotFound ch
      end.
Proof.
  induction 1 as [ | l c0 c1 p0 p1 rest Hc
                   | tag l value rest r Ht Hl Hs IH
                   | l c0 c1 value rest r Hc Hl Hs IH ];
    intros sp fuel ch Hb Hf.
  - destruct fuel; reflexivity.
  - cbn [length] in Hf. destruct fuel as [|fuel]; [lia|].
    cbn [parseEcmPid_loop].
    replace (len _ >? 0) with true
      by (symmetry; apply Z.gtb_lt; unfold len; cbn [elems length]; lia).
    change (index ?s 0) with (index s (Z.of_nat 0)).
    change (index ?s 1) with (index s (Z.of_nat 1)).
    unfold bind at 1. rewrite index_nth by (cbn [elems length]; lia).
    cbn [must]. unfold bind at 1.
    rewrite index_nth by (cbn [elems length]; lia). cbn [must elems nth].
    cbv zeta. cbn [Z.eqb Pos.eqb].
    change (slice_range ?s 2 4)
      with (slice_range s (Z.of_nat 2) (Z.of_nat 4)).
    change (slice_range ?s 4 6)
      with (slice_range s (Z.of_nat 4) (Z.of_nat 6)).
    unfold bind at 1.
    rewrite slice_range_ok by (cbn [elems length]; lia).
    cbn [must]. unfold bind at 1.
    cbn [backing elems spare app skipn firstn Nat.sub].
    rewrite Uint16_pair. cbn [must]. rewrite Hc. cbn [Z.eqb Pos.eqb].
    unfold bind at 1.
    rewrite slice_range_ok by (cbn [elems length]; lia).
    cbn [must]. unfold bind at 1.
    cbn [backing elems spare app skipn firstn Nat.sub].
    rewrite Uint16_pair. reflexivity.
  - cbn [length] in Hb, Hf. rewrite length_app in Hb, Hf.
    destruct fuel as [|fuel]; [lia|].
    cbn [parseEcmPid_loop].
    replace (len _ >? 0) with true
      by (symmetry; apply Z.gtb_lt; unfold len; cbn [elems length]; lia).
    change (index ?s 0) with (index s (Z.of_nat 0)).
    change (index ?s 1) with (index s (Z.of_nat 1)).
    unfold bind at 1. rewrite index_nth by (cbn [elems length]; lia).
    cbn [must]. unfold bind at 1.
    rewrite index_nth by (cbn [elems length]; lia). cbn [must elems nth].
    cbv zeta.
    destruct (Z.eqb_spec tag 9) as [E|_]; [contradiction|].
    replace (u8 (2 + l)) with (Z.of_nat (2 + length value))
      by (unfold u8; rewrite Z.mod_small; lia).
    unfold bind at 1.
    rewrite slice_from_ok by (cbn [elems length]; rewrite length_app; lia).
    cbn [must elems spare]. change (2 + length value)%nat
      with (S (S (length value))). cbn [skipn].
    rewrite skipn_app_exact by reflexivity.
    apply IH; lia.
  - cbn [length] in Hb, Hf. rewrite length_app in Hb, Hf.
    destruct fuel as [|fuel]; [lia|].
    cbn [parseEcmPid_loop].
    replace (len _ >? 0) with true
      by (symmetry; apply Z.gtb_lt; unfold len; cbn [elems length]; lia).
    change (index ?s 0) with (index s (Z.of_nat 0)).
    change (index ?s 1) with (index s (Z.of_nat 1)).
    unfold bind at 1. rewrite index_nth by (cbn [elems length]; lia).
    cbn [must]. unfold bind at 1.
    rewrite index_nth by (cbn [elems length]; lia). cbn [must elems nth].
    cbv zeta. cbn [Z.eqb Pos.eqb].
    change (slice_range ?s 2 4)
      with (slice_range s (Z.of_nat 2) (Z.of_nat 4)).
    unfold bind at 1.
    rewrite slice_range_ok by (cbn [elems length]; lia).
    cbn [must]. unfold bind at 1.
    cbn [backing elems spare app skipn firstn Nat.sub].
    rewrite Uint16_pair. cbn [must].
    destruct (Z.eqb_spec (u16be c0 c1) 22017) as [E|_]; [contradiction|].
    replace (u8 (2 + l)) with (Z.of_nat (4 + length value))
      by (unfold u8; rewrite Z.mod_small; lia).
    unfold bind at 1.
    rewrite slice_from_ok by (cbn [elems length]; rewrite length_app; lia).
    cbn [must elems spare]. change (4 + length value)%nat
      with (S (S (S (S (length value))))). cbn [skipn].
    rewrite skipn_app_exact by reflexivity.
    apply IH; lia.
Qed.

Lemma processPMT_scan (pkt : slice) (ch : Channel) (r : option Z) :
  length (elems pkt) = 188%nat ->
  nth 4 (elems pkt) 0 = 0 -> nth 5 (elems pkt) 0 = 2 ->
  let piLength :=
    Z.land (u16be (nth 15 (elems pkt) 0) (nth 16 (elems pkt) 0)) 1023 in
  17 + piLength <= 188 ->
  scan (firstn (Z.to_nat piLength) (skipn 17 (elems pkt))) r ->
  processPMT pkt ch
  = match r with
    | Some v => Ret tt (set_ecmPid v ch)
    | None => Err EcmPidNotFound ch
    end.
Proof.
  intros Hlen H4 H5 piLength Hpi Hscan.
  rewrite processPMT_188 by assumption. rewrite H4, H5.
  cbn [Z.eqb Pos.eqb negb]. fold piLength.
  assert (H0 : 0 <= piLength) by (apply Z.land_nonneg; right; lia).
  replace (u16 (17 + piLength)) with (Z.of_nat (17 + Z.to_nat piLength))
    by (unfold u16; rewrite Z.mod_small; lia).
  change (slice_range pkt 17) with (slice_range pkt (Z.of_nat 17)).
  unfold bind. rewrite slice_range_ok by lia. cbn [must].
  replace (17 + Z.to_nat piLength - 17)%nat with (Z.to_nat piLength) by lia.
  unfold backing. rewrite (skipn_app 17), firstn_app.
  replace (17 - length (elems pkt))%nat with 0%nat by lia.
  replace (Z.to_nat piLength - length (skipn 17 (elems pkt)))%nat with 0%nat
    by (rewrite length_skipn; lia).
  change (firstn 0 (skipn 0 (spare pkt))) with (@nil Z). rewrite app_nil_r.
  unfold parseEcmPid. cbn [elems].
  apply parseEcmPid_loop_scan.
  - assumption.
  - rewrite length_firstn, length_skipn. lia.
  - lia.
Qed.

Lemma state_after_preserves {A} P (m : M A) (ch ch' : Channel) :
  preserves P m -> P ch -> state_after (m ch) = Some ch' -> P ch'.
Proof.
  intros Hm H E. specialize (Hm ch H).
  destruct (m ch); cbn in E; try discriminate; injection E as <-; exact Hm.
Qed.

(** C6 (PSI walker).  For a 188-byte packet with the sync byte:
    - while the PMT PID is unknown, a packet on PID 0 fails with
      [PatPointer] if byte 4 is not 0 and with [PatTable] if byte 5 is not
      0, so that it is accepted only with both bytes 0; with both bytes 0
      the PAT block sets [pmtPid] to [u16be(bytes[15:17]) & 0x1fff] and
      [pmtPidFound], and they are so in whatever state the call returns;
    - while the ECM PID is unknown and the PMT PID is known, for a packet
      on the PMT PID with byte 4 = 0 and byte 5 = 2 whose program-info
      bytes lie inside the packet: if the descriptor scan finds tag 0x09
      with system 0x5601, the PMT block sets [ecmPid] to [u16be(value[2:4])]
      and [ecmPidFound], and they are so in whatever state the call
      returns; if the scan ends without a match the call fails with
      [EcmPidNotFound]. *)
Theorem psi_walker (pkt : slice) (ch : Channel) :
  length (elems pkt) = 188%nat ->
  nth 0 (elems pkt) 0 = 71 ->
  let b4 := nth 4 (elems pkt) 0 in
  let b5 := nth 5 (elems pkt) 0 in
  let v := u16be (nth 15 (elems pkt) 0) (nth 16 (elems pkt) 0) in
  (pmtPidFound ch = false -> pid_of pkt = 0 ->
     (b4 <> 0 -> processPacket pkt ch = Err PatPointer ch)
     /\ (b4 = 0 -> b5 <> 0 -> processPacket pkt ch = Err (PatTable b5) ch)
     /\ (forall pkt' ch', processPacket pkt ch = Ret pkt' ch' ->
           b4 = 0 /\ b5 = 0)
     /\ (b4 = 0 -> b5 = 0 ->
           processPAT pkt ch = Ret tt (set_pmtPid (Z.land v 8191) ch)
           /\ forall ch', state_after (processPacket pkt ch) = Some ch' ->
                pmtPidFound ch' = true /\ pmtPid ch' = Z.land v 8191))
  /\ (ecmPidFound ch = false -> pmtPidFound ch = true ->
      pid_of pkt = pmtPid ch -> b4 = 0 -> b5 = 2 ->
      17 + Z.land v 1023 <= 188 ->
      let region :=
        firstn (Z.to_nat (Z.land v 1023)) (skipn 17 (elems pkt)) in
      (forall e, scan region (Some e) ->
         processPMT pkt ch = Ret tt (set_ecmPid e ch)
         /\ forall ch', state_after (processPacket pkt ch) = Some ch' ->
              ecmPidFound ch' = true /\ ecmPid ch' = e)
      /\ (scan region None ->
          processPacket pkt ch = Err EcmPidNotFound ch)).
Proof.
  intros Hlen Hsync b4 b5 v. split.
  - intros Hpmt Hpid.
    pose proof (processPacket_188 pkt ch Hlen Hsync) as E.
    rewrite Hpmt, Hpid in E. cbn [negb andb Z.eqb] in E.
    unfold bind at 1 in E. rewrite processPAT_188 in E by assumption.
    fold b4 b5 v in E.
    assert (K : forall ch',
               state_after
                 ((ch1 <- get ;;
                   (if negb (ecmPidFound ch1) && pmtPidFound ch1
                       && (0 =? pmtPid ch1)
                    then processPMT pkt else ret tt) ;;;
                   processPayload 0 pkt)
                    (set_pmtPid (Z.land v 8191) ch)) = Some ch' ->
               pmtPidFound ch' = true /\ pmtPid ch' = Z.land v 8191).
    { intros ch'.
      apply (state_after_preserves
               (fun c => pmtPidFound c = true /\ pmtPid c = Z.land v 8191));
        [|split; reflexivity].
      apply pres_bind; [apply pres_get|intro ch1].
      apply pres_bind.
      - destruct (_ && _); [|apply pres_ret].
        apply processPMT_preserves. intros ? ? Hc. exact Hc.
      - intros _. apply processPayload_preserves; intros; assumption. }
    split; [|split; [|split]].
    + intros N4. destruct (Z.eqb_spec b4 0); [contradiction|]. exact E.
    + intros E4 N5. destruct (Z.eqb_spec b4 0); [|contradiction].
      destruct (Z.eqb_spec b5 0); [contradiction|]. exact E.
    + intros pkt' ch' R. rewrite R in E.
      destruct (Z.eqb_spec b4 0); [|discriminate].
      destruct (Z.eqb_spec b5 0); [|discriminate]. auto.
    + intros E4 E5. split.
      * rewrite processPAT_188 by assumption. fold b4 b5 v.
        rewrite E4, E5. reflexivity.
      * intros ch'. rewrite E, E4, E5. cbn [Z.eqb negb]. apply K.
  - intros Hecm Hpmt Hpid E4 E5 Hpi region.
    pose proof (processPacket_188 pkt ch Hlen Hsync) as E.
    rewrite Hpmt in E. cbn [negb andb] in E.
    unfold bind at 1 in E. cbn [ret] in E.
    unfold bind at 1 in E. cbn [get] in E.
    rewrite Hecm, Hpmt, Hpid, Z.eqb_refl in E. cbn [negb andb] in E.
    unfold bind at 1 in E.
    split.
    + intros e Hscan.
      pose proof (processPMT_scan pkt ch (Some e) Hlen E4 E5 Hpi Hscan) as S.
      split; [exact S|]. rewrite S in E. intros ch'. rewrite E.
      apply (state_after_preserves
               (fun c => ecmPidFound c = true /\ ecmPid c = e));
        [|split; reflexivity].
      apply processPayload_preserves; intros; assumption.
    + intros Hscan.
      pose proof (processPMT_scan pkt ch None Hlen E4 E5 Hpi Hscan) as S.
      rewrite S in E. exact E.
Qed.

Lemma scan_info_with_ca : scan info_with_ca (Some 291).
Proof.
  apply (scan_skip 5 4 [72; 68; 77; 86] [9; 4; 86; 1; 1; 35]);
    [discriminate|reflexivity|].
  apply (scan_found 4 86 1 1 35 []). reflexivity.
Qed.

Lemma scan_info_without_ca : scan info_without_ca None.
Proof.
  apply (scan_skip 5 4 [72; 68; 77; 86] []); [discriminate|reflexivity|].
  apply scan_end.
Qed.

Lemma psi_walker_witness :
  let ch0 := newChannel zero_key true in
  (processPAT sample_pat ch0 = Ret tt (set_pmtPid 256 ch0)
   /\ forall ch', state_after (processPacket sample_pat ch0) = Some ch' ->
        pmtPidFound ch' = true /\ pmtPid ch' = 256)
  /\ (processPMT (sample_pmt info_with_ca) sample_pat_seen
      = Ret tt (set_ecmPid 291 sample_pat_seen)
      /\ forall ch',
           state_after (processPacket (sample_pmt info_with_ca) sample_pat_seen)
           = Some ch' ->
           ecmPidFound ch' = true /\ ecmPid ch' = 291)
  /\ processPacket (sample_pmt info_without_ca) sample_pat_seen
     = Err EcmPidNotFound sample_pat_seen.
Proof.
  intros ch0. split; [|split].
  - destruct (psi_walker sample_pat ch0 eq_refl eq_refl) as [HPAT _].
    destruct (HPAT eq_refl eq_refl) as (_ & _ & _ & H).
    exact (H eq_refl eq_refl).
  - destruct (psi_walker (sample_pmt info_with_ca) sample_pat_seen
                         eq_refl eq_refl) as [_ HPMT].
    destruct (HPMT eq_refl eq_refl eq_refl eq_refl eq_refl
                   ltac:(vm_compute; discriminate)) as [H _].
    exact (H 291 scan_info_with_ca).
  - destruct (psi_walker (sample_pmt info_without_ca) sample_pat_seen
                         eq_refl eq_refl) as [_ HPMT].
    destruct (HPMT eq_refl eq_refl eq_refl eq_refl eq_refl
                   ltac:(vm_compute; discriminate)) as [_ H].
    exact (H scan_info_without_ca).
Defined.

(** ** RTP framer *)

(** What [parseRTP] returns on a datagram of at least 16 bytes: the
    extension length is multiplied by 4 in 16 bits. *)
Lemma parseRTP_spec (data : list Z) (ch : Channel) :
  (16 <= length data)%nat ->
  let b0 := nth 0 data 0 in
  let seq := u16be (nth 2 data 0) (nth 3 data 0) in
  parseRTP (received data) ch
  = if negb (Z.shiftr b0 6 =? 2) then Err (RtpVersion (Z.shiftr b0 6)) ch
    else Ret (12 + (if Z.land (Z.shiftr b0 4) 1 >? 0
                    then 4 + u16 (u16be (nth 14 data 0) (nth 15 data 0) * 4)
                    else 0))
             (set_lastRTPSeq seq
                (if firstPkt ch then set_rtp (u16 (seq - 1)) ch else ch)).
Proof.
  intros Hlen b0 seq. unfold parseRTP.
  set (pkt := received data).
  assert (He : elems pkt = data) by reflexivity.
  change (index pkt 0) with (index pkt (Z.of_nat 0)).
  unfold bind at 1. rewrite index_nth by (rewrite He; lia).
  cbn [must]. rewrite He. fold b0. cbv zeta.
  destruct (negb (Z.shiftr b0 6 =? 2)); [reflexivity|].
  destruct (slice_u16 pkt 2 ltac:(rewrite He; lia)) as (s & Hs & Hu).
  change (slice_range pkt 2 4)
    with (slice_range pkt (Z.of_nat 2) (Z.of_nat (2 + 2))).
  unfold bind at 1. rewrite Hs. cbn [must].
  unfold bind at 1. rewrite Hu. cbn [must]. rewrite He. fold seq.
  unfold bind at 1. cbn [get].
  destruct (slice_u16 pkt 14 ltac:(rewrite He; lia)) as (s' & Hs' & Hu').
  change (slice_range pkt 14 16)
    with (slice_range pkt (Z.of_nat 14) (Z.of_nat (14 + 2))).
  rewrite He in Hu'.
  destruct (firstPkt ch);
    destruct (Z.land (Z.shiftr b0 4) 1 >? 0);
    unfold bind, modify, ret; rewrite ?Hs'; cbn [must]; rewrite ?Hu';
    reflexivity.
Qed.

(** C2 at the failing input: on the 16-byte datagram with the extension
    flag set and extension length 0x4000 the framer accepts and returns
    offset 16, whereas 12 + 4 + 4 * 0x4000 is 65552. *)
Theorem parseRTP_extension_wraps :
  exists ch',
    parseRTP (received (rtp_ext 64 0)) (newChannel zero_key true) = Ret 16 ch'
    /\ Z.land (Z.shiftr (nth 0 (rtp_ext 64 0) 0) 4) 1 = 1
    /\ 12 + 4 + 4 * u16be (nth 14 (rtp_ext 64 0) 0) (nth 15 (rtp_ext 64 0) 0)
       = 65552.
Proof. eexists. split; [vm_compute; reflexivity|split; reflexivity]. Qed.

(** Below 0x4000 words there is no wraparound. *)
Lemma parseRTP_offset_small (data : list Z) (ch ch' : Channel) (off : Z) :
  (16 <= length data)%nat ->
  0 <= u16be (nth 14 data 0) (nth 15 data 0) < 16384 ->
  parseRTP (received data) ch = Ret off ch' ->
  off = if Z.land (Z.shiftr (nth 0 data 0) 4) 1 >? 0
        then 12 + 4 + 4 * u16be (nth 14 data 0) (nth 15 data 0)
        else 12.
Proof.
  intros Hlen Hb R. rewrite parseRTP_spec in R by assumption.
  cbv zeta in R.
  destruct (negb _); [discriminate|].
  pose proof (f_equal (fun o => match o with Ret a _ => a | _ => 0 end) R)
    as E.
  cbv beta iota in E. rewrite <- E.
  destruct (_ >? 0); [|reflexivity].
  unfold u16. rewrite Z.mod_small by lia. lia.
Qed.

(** ** Datagrams *)

Lemma processRTP_not_multiple (payload : slice) (offset : Z) (ch : Channel) :
  Z.rem (len payload - offset) 188 <> 0 ->
  processRTP payload offset ch = Err (RtpPayloadLength (len payload)) ch.
Proof.
  intros H. unfold processRTP.
  destruct (Z.eqb_spec (Z.rem (len payload - offset) 188) 0);
    [contradiction|reflexivity].
Qed.

(** One turn of the loop: the first 188 bytes go through [processPacket],
    as a slice whose capacity reaches to the end of the buffer, then the
    loop goes on with what follows. *)
Lemma processRTP_loop_step (p rest sp : list Z) (fuel : nat) (ch : Channel) :
  length p = 188%nat ->
  processRTP_loop (S fuel) {| elems := p ++ rest; spare := sp |} ch
  = (p' <- processPacket {| elems := p; spare := rest ++ sp |} ;;
     out <- processRTP_loop fuel {| elems := rest; spare := sp |} ;;
     ret (elems p' ++ out)) ch.
Proof.
  intros Hp. cbn [processRTP_loop].
  replace (len _ >? 0) with true
    by (symmetry; apply Z.gtb_lt; unfold len; cbn [elems];
        rewrite length_app; lia).
  unfold slice_to.
  change (slice_range ?s 0 188)
    with (slice_range s (Z.of_nat 0) (Z.of_nat 188)).
  change (slice_from ?s 188) with (slice_from s (Z.of_nat 188)).
  unfold bind at 1.
  rewrite slice_range_ok by (cbn [elems spare]; rewrite ?length_app; lia).
  cbn [must]. unfold backing. cbn [elems spare Nat.sub].
  change (skipn 0 ?l) with l.
  rewrite <- app_assoc.
  rewrite firstn_app_exact, skipn_app_exact by assumption.
  rewrite slice_from_ok by (cbn [elems]; rewrite length_app; lia).
  cbn [elems spare]. rewrite skipn_app_exact by assumption.
  unfold bind.
  destruct (processPacket _ ch) as [p' ch1|e ch1| |]; reflexivity.
Qed.

Lemma processRTP_loop_done (sp : list Z) (fuel : nat) (ch : Channel) :
  processRTP_loop fuel {| elems := []; spare := sp |} ch = Ret [] ch.
Proof. destruct fuel; reflexivity. Qed.

(** C7 at the failing input: on the 16-byte datagram with the extension
    flag set and extension length 47 the framer returns offset 204; the
    difference 16 - 204 is a multiple of 188, [processRTP] lets it through
    its length test and panics on [payload[204:]]. *)
Theorem processRTP_negative_multiple :
  exists ch1,
    parseRTP (received (rtp_ext 0 47)) (newChannel zero_key true)
    = Ret 204 ch1
    /\ Z.rem (len (received (rtp_ext 0 47)) - 204) 188 = 0
    /\ processRTP (received (rtp_ext 0 47)) 204 ch1 = Panic
    /\ handleDatagram (rtp_ext 0 47) (newChannel zero_key true) = Panic.
Proof.
  eexists. split; [vm_compute; reflexivity|].
  repeat split; vm_compute; reflexivity.
Qed.

(** ** Bounds in the PMT block *)

(** C9 at failing inputs: a datagram of seven TS packets whose fourth is a
    PMT with program-info length 0x3ff panics in [pkt[17 : 17+piLength]];
    a PMT whose only descriptor announces 10 bytes in a 2-byte
    program-info loop panics in [desc[2+length:]]; and one whose
    program-info loop is a single byte panics in [desc[1]]. *)
Theorem processPMT_out_of_bounds :
  handleDatagram datagram_overlong (newChannel zero_key true) = Panic
  /\ processPacket (sample_pmt [5; 10]) sample_pat_seen = Panic
  /\ processPacket (sample_pmt [5]) sample_pat_seen = Panic.
Proof. repeat split; vm_compute; reflexivity. Qed.

(** ** The loops and their fuel *)

(** With [length pkt] turns the descrambler loop always comes to an end. *)
Lemma decryptPacket_loop_terminates (cipher : option aes.Block) (fuel : nat) :
  forall (pkt : list Z) (ch : Channel),
    (length pkt <= fuel)%nat ->
    decryptPacket_loop fuel cipher pkt ch <> Spin.
Proof.
  induction fuel as [|fuel IH]; intros pkt ch Hf; cbn [decryptPacket_loop].
  - destruct (Nat.ltb_spec 16 (length pkt)); [lia|discriminate].
  - destruct (Nat.ltb_spec 16 (length pkt)); [|discriminate].
    unfold bind, must. destruct cipher as [c|]; [|discriminate].
    rewrite Decrypt_full by lia.
    rewrite skipn_app_exact by apply DecryptBlock_length.
    specialize (IH (skipn 16 pkt) ch ltac:(rewrite length_skipn; lia)).
    destruct (decryptPacket_loop fuel (Some c) (skipn 16 pkt) ch);
      try discriminate. contradiction.
Qed.

(** The datagram loop over [n] whole packets is [process_all]. *)
Lemma processRTP_loop_all (n : nat) :
  forall (bytes sp : list Z) (fuel : nat) (ch : Channel),
    length bytes = (188 * n)%nat -> (n <= fuel)%nat ->
    processRTP_loop fuel {| elems := bytes; spare := sp |} ch
    = process_all n bytes sp ch.
Proof.
  induction n as [|n IH]; intros bytes sp fuel ch Hb Hf.
  - destruct bytes; [|discriminate]. apply processRTP_loop_done.
  - destruct fuel as [|fuel]; [lia|].
    rewrite <- (firstn_skipn 188 bytes) at 1.
    rewrite processRTP_loop_step by (rewrite length_firstn; lia).
    cbn [process_all]. unfold bind.
    destruct (processPacket _ ch) as [p' ch1|e ch1| |]; try reflexivity.
    rewrite IH by (rewrite ?length_skipn; lia). reflexivity.
Qed.

(** [processRTP] when the offset lies inside the datagram and a whole
    number of packets follows it. *)
Lemma processRTP_whole (payload : slice) (offset n : nat) (ch : Channel) :
  length (elems payload) = (offset + 188 * n)%nat ->
  processRTP payload (Z.of_nat offset) ch
  = (out <- process_all n (skipn offset (elems payload)) (spare payload) ;;
     ret {| elems := firstn offset (elems payload) ++ out;
            spare := spare payload |}) ch.
Proof.
  intros Hlen. unfold processRTP, len. rewrite Hlen.
  replace (Z.of_nat (offset + 188 * n) - Z.of_nat offset)
    with (Z.of_nat n * 188) by lia.
  rewrite Z.rem_mul by lia. cbn [Z.eqb negb].
  unfold bind at 1. rewrite slice_from_ok by lia. cbn [must elems spare].
  unfold bind.
  rewrite processRTP_loop_all with (n := n)
    by (rewrite length_skipn; lia).
  rewrite Nat2Z.id. reflexivity.
Qed.

(** When the [uint8] sum [2+length] wraps to 0 on a descriptor that is not
    a CA descriptor, the loop of [parseEcmPid] spins whatever the number of
    turns it is given. *)
Lemma parseEcmPid_loop_spins (desc : slice) (tag l : Z) (ch : Channel) :
  index desc 0 = Some tag -> index desc 1 = Some l ->
  tag <> 9 -> u8 (2 + l) = 0 ->
  forall fuel, parseEcmPid_loop fuel desc ch = Spin.
Proof.
  intros H0 H1 Ht Hw fuel.
  assert (Hlen : (len desc >? 0) = true).
  { apply Z.gtb_lt. unfold index in H0.
    destruct (Z.ltb_spec 0 (len desc)); [assumption|].
    rewrite andb_false_r in H0. discriminate. }
  induction fuel as [|fuel IH]; cbn [parseEcmPid_loop]; rewrite Hlen.
  - reflexivity.
  - unfold bind at 1. rewrite H0. cbn [must].
    unfold bind at 1. rewrite H1. cbn [must]. cbv zeta.
    destruct (Z.eqb_spec tag 9); [contradiction|].
    rewrite Hw. unfold bind.
    change (slice_from desc 0) with (slice_from desc (Z.of_nat 0)).
    rewrite slice_from_ok by lia. cbn [must skipn].
    destruct desc. exact IH.
Qed.

Lemma slice_from_0 (desc : slice) : slice_from desc 0 = Some desc.
Proof.
  change (slice_from desc 0) with (slice_from desc (Z.of_nat 0)).
  rewrite slice_from_ok by lia. destruct desc. reflexivity.
Qed.

Lemma parseEcmPid_loop_stuck (desc : slice) (ch : Channel) :
  (len desc >? 0) = true ->
  (forall f, parseEcmPid_loop (S f) desc ch = parseEcmPid_loop f desc ch) ->
  forall f, parseEcmPid_loop f desc ch = Spin.
Proof.
  intros L H f. induction f as [|f IH].
  - cbn [parseEcmPid_loop]. rewrite L. reflexivity.
  - rewrite H. exact IH.
Qed.

Lemma slice_from_shorter (desc desc' : slice) (lo : Z) :
  slice_from desc lo = Some desc' -> 0 < lo ->
  (length (elems desc') < length (elems desc))%nat.
Proof.
  unfold slice_from, len. intros H Hlo.
  destruct (Z.leb_spec 0 lo); [|discriminate].
  destruct (Z.leb_spec lo (Z.of_nat (length (elems desc)))); [|discriminate].
  cbn [andb] in H.
  assert (E : elems desc' = skipn (Z.to_nat lo) (elems desc))
    by (destruct desc'; cbn [elems]; congruence).
  rewrite E, length_skipn. lia.
Qed.

(** One turn of the loop of [parseEcmPid], spelled out. *)
Lemma parseEcmPid_loop_S (f : nat) (desc : slice) (ch : Channel) :
  parseEcmPid_loop (S f) desc ch
  = if len desc >? 0 then
      match index desc 0, index desc 1 with
      | Some tag, Some l =>
          let next :=
            match slice_from desc (u8 (2 + l)) with
            | Some desc' => parseEcmPid_loop f desc' ch
            | None => Panic
            end in
          if tag =? 9 then
            match slice_range desc 2 4 with
            | Some s =>
                match Uint16 s with
                | Some caid =>
                    if caid =? 22017 then
                      match slice_range desc 4 6 with
                      | Some s' =>
                          match Uint16 s' with
                          | Some pid => Ret tt (set_ecmPid pid ch)
                          | None => Panic
                          end
                      | None => Panic
                      end
                    else next
                | None => Panic
                end
            | None => Panic
            end
          else next
      | _, _ => Panic
      end
    else Err EcmPidNotFound ch.
Proof.
  cbn [parseEcmPid_loop]. destruct (len desc >? 0); [|reflexivity].
  unfold bind, must, modify.
  destruct (index desc 0) as [tag|]; [|reflexivity].
  destruct (index desc 1) as [l|]; [|reflexivity]. cbv zeta.
  destruct (tag =? 9).
  - destruct (slice_range desc 2 4) as [s|]; [|reflexivity].
    destruct (Uint16 s) as [caid|]; [|reflexivity].
    destruct (caid =? 22017).
    + destruct (slice_range desc 4 6) as [s'|]; [|reflexivity].
      destruct (Uint16 s'); reflexivity.
    + destruct (slice_from desc (u8 (2 + l))); reflexivity.
  - destruct (slice_from desc (u8 (2 + l))); reflexivity.
Qed.

(** The number of turns [parseEcmPid] gives its loop is enough: with any
    number of turns from [length desc] on the loop ends in the same way,
    and where it runs out of them it does so for every such number. *)
Lemma parseEcmPid_loop_enough (ch : Channel) :
  forall (f1 f2 : nat) (desc : slice),
    (length (elems desc) <= f1)%nat -> (length (elems desc) <= f2)%nat ->
    parseEcmPid_loop f1 desc ch = parseEcmPid_loop f2 desc ch.
Proof.
  induction f1 as [|f1 IH]; intros f2 desc H1 H2.
  - assert (L : (len desc >? 0) = false)
      by (unfold len; destruct (Z.gtb_spec (Z.of_nat (length (elems desc))) 0);
          [lia|reflexivity]).
    destruct f2; cbn [parseEcmPid_loop]; rewrite L; reflexivity.
  - destruct f2 as [|f2].
    { assert (L : (len desc >? 0) = false)
        by (unfold len;
            destruct (Z.gtb_spec (Z.of_nat (length (elems desc))) 0);
            [lia|reflexivity]).
      cbn [parseEcmPid_loop]. rewrite L. reflexivity. }
    pose proof (fun f => parseEcmPid_loop_S f desc ch) as Turn.
    rewrite !Turn.
    destruct (len desc >? 0) eqn:L; [|reflexivity].
    destruct (index desc 0) as [tag|]; [|reflexivity].
    destruct (index desc 1) as [l|]; [|reflexivity]. cbv zeta in *.
    assert (Next :
      (forall f, parseEcmPid_loop (S f) desc ch
                 = match slice_from desc (u8 (2 + l)) with
                   | Some desc' => parseEcmPid_loop f desc' ch
                   | None => Panic
                   end) ->
      match slice_from desc (u8 (2 + l)) with
      | Some desc' => parseEcmPid_loop f1 desc' ch
      | None => Panic
      end
      = match slice_from desc (u8 (2 + l)) with
        | Some desc' => parseEcmPid_loop f2 desc' ch
        | None => Panic
        end).
    { intros Path.
      destruct (slice_from desc (u8 (2 + l))) as [desc'|] eqn:SF;
        [|reflexivity].
      destruct (Z.eq_dec (u8 (2 + l)) 0) as [Z0|NZ].
      - rewrite Z0, slice_from_0 in SF. injection SF as <-.
        rewrite !(parseEcmPid_loop_stuck desc ch L Path). reflexivity.
      - assert (0 < u8 (2 + l))
          by (unfold u8 in *;
              pose proof (Z.mod_pos_bound (2 + l) 256 ltac:(lia)); lia).
        pose proof (slice_from_shorter desc desc' _ SF ltac:(assumption)).
        apply IH; lia. }
    destruct (tag =? 9).
    + destruct (slice_range desc 2 4) as [s|]; [|reflexivity].
      destruct (Uint16 s) as [caid|]; [|reflexivity].
      destruct (caid =? 22017); [reflexivity|].
      apply Next, Turn.
    + apply Next, Turn.
Qed.

(** A loop that has come to an end comes to the same end with more
    turns. *)
Lemma parseEcmPid_loop_more (ch : Channel) :
  forall (f : nat) (desc : slice),
    parseEcmPid_loop f desc ch <> Spin ->
    parseEcmPid_loop (S f) desc ch = parseEcmPid_loop f desc ch.
Proof.
  induction f as [|f IH]; intros desc H.
  - cbn [parseEcmPid_loop] in *.
    destruct (len desc >? 0); [contradiction H|]; reflexivity.
  - rewrite !parseEcmPid_loop_S in *.
    destruct (len desc >? 0); [|reflexivity].
    destruct (index desc 0) as [tag|]; [|reflexivity].
    destruct (index desc 1) as [l|]; [|reflexivity]. cbv zeta in *.
    destruct (tag =? 9).
    + destruct (slice_range desc 2 4) as [s|]; [|reflexivity].
      destruct (Uint16 s) as [caid|]; [|reflexivity].
      destruct (caid =? 22017); [reflexivity|].
      destruct (slice_from desc (u8 (2 + l))); [|reflexivity].
      apply IH, H.
    + destruct (slice_from desc (u8 (2 + l))); [|reflexivity].
      apply IH, H.
Qed.

Lemma parseEcmPid_loop_mono (ch : Channel) (desc : slice) (f g : nat) :
  (f <= g)%nat ->
  parseEcmPid_loop f desc ch <> Spin ->
  parseEcmPid_loop g desc ch = parseEcmPid_loop f desc ch.
Proof.
  intros Hle H. induction Hle as [|g Hle IH]; [reflexivity|].
  rewrite parseEcmPid_loop_more; [exact IH|]. rewrite IH. exact H.
Qed.

(** So [Spin] from [parseEcmPid] stands for a loop that no number of
    turns brings to an end. *)
Lemma parseEcmPid_Spin (desc : slice) (ch : Channel) :
  parseEcmPid desc ch = Spin ->
  forall f, parseEcmPid_loop f desc ch = Spin.
Proof.
  unfold parseEcmPid. intros H f.
  destruct (Nat.le_ge_cases (length (elems desc)) f) as [G|G].
  - rewrite <- H. apply parseEcmPid_loop_enough; lia.
  - destruct (parseEcmPid_loop f desc ch) eqn:E; try reflexivity;
      rewrite (parseEcmPid_loop_mono ch desc f _ G) in H;
      rewrite E in *; discriminate.
Qed.

Example parseEcmPid_spins_sample :
  processPacket (sample_pmt [5; 254]) sample_pat_seen = Spin
  /\ forall fuel,
       parseEcmPid_loop fuel {| elems := [5; 254]; spare := repeat 255 169 |}
                        sample_pat_seen = Spin.
Proof.
  split; [vm_compute; reflexivity|].
  apply (parseEcmPid_loop_spins _ 5 254); try reflexivity. discriminate.
Qed.

(** ** The engine on a whole datagram *)

(** With selector 0x80 the two keys are installed the other way round. *)
Example processECM_selector_0x80 :
  processECM (sample_ecm 128) (newChannel zero_key true)
  = Ret tt (set_keys key_20_2f key_10_1f (newChannel zero_key true)).
Proof. vm_compute. reflexivity. Qed.

(** PAT, PMT, ECM and a packet scrambled under the odd key, in one
    datagram on a fresh HTTP channel: the PIDs are found, the keys are
    installed, and the fourth slot of the ring holds the packet in clear. *)
Example handleDatagram_sample :
  exists payload ch,
    handleDatagram datagram_sample (newChannel zero_key true) = Ret payload ch
    /\ pmtPid ch = 256 /\ ecmPid ch = 291
    /\ aesKey1 ch = Some key_10_1f /\ aesKey2 ch = Some key_20_2f
    /\ buf ch = Some 4%nat
    /\ nth 3 (slots ch) None
       = Some ([71; 1; 0; 208] ++ map Z.of_nat (seq 0 176) ++ repeat 170 8)
    /\ skipn 576 (elems payload)
       = [71; 1; 0; 208] ++ map Z.of_nat (seq 0 176) ++ repeat 170 8.
Proof.
  eexists. eexists. split; [vm_compute; reflexivity|].
  repeat split.
Qed.

(** ** Library checks *)

(** FIPS-197, Appendix C: the example vectors for the three key sizes. *)
Example aes128_fips197 :
  option_map (fun c => aes.DecryptBlock c
    [105; 196; 224; 216; 106; 123; 4; 48; 216; 205; 183; 128; 112; 180; 197; 90])
    (aes.NewCipher (map Z.of_nat (seq 0 16)))
  = Some [0; 17; 34; 51; 68; 85; 102; 119; 136; 153; 170; 187; 204; 221; 238; 255].
Proof. vm_compute. reflexivity. Qed.

Example aes192_fips197 :
  option_map (fun c => aes.DecryptBlock c
    [221; 169; 124; 164; 134; 76; 223; 224; 110; 175; 112; 160; 236; 13; 113; 145])
    (aes.NewCipher (map Z.of_nat (seq 0 24)))
  = Some [0; 17; 34; 51; 68; 85; 102; 119; 136; 153; 170; 187; 204; 221; 238; 255].
Proof. vm_compute. reflexivity. Qed.

Example aes256_fips197 :
  option_map (fun c => aes.DecryptBlock c
    [142; 162; 183; 202; 81; 103; 69; 191; 234; 252; 73; 144; 75; 73; 96; 137])
    (aes.NewCipher (map Z.of_nat (seq 0 32)))
  = Some [0; 17; 34; 51; 68; 85; 102; 119; 136; 153; 170; 187; 204; 221; 238; 255].
Proof. vm_compute. reflexivity. Qed.

Example aes_key_sizes :
  aes.NewCipher (repeat 0 15) = None /\ aes.NewCipher [] = None.
Proof. split; reflexivity. Qed.

Local Open Scope string_scope.
Example hex_DecodeString_samples :
  hex.DecodeString zero_key = (repeat 0 16, None)
  /\ hex.DecodeString "0aFf1" = ([10; 255], Some hex.ErrLength)
  /\ fst (hex.DecodeString "12zz34") = [18].
Proof. repeat split. Qed.
Local Close Scope string_scope.

(** Scenario of the specification: extension flag set and extension
    length 2 give offset 24. *)
Example parseRTP_offset_24 :
  exists ch', parseRTP (received (rtp_ext 0 2)) (newChannel zero_key true)
              = Ret 24 ch'.
Proof. eexists. vm_compute. reflexivity. Qed.

(** * Further properties of the code *)

(** ** RTP framer on the receive buffer *)

Lemma slice_u16_backing (pkt : slice) (i : nat) :
  (i + 2 <= length (backing pkt))%nat ->
  exists s, slice_range pkt (Z.of_nat i) (Z.of_nat (i + 2)) = Some s
            /\ Uint16 s = Some (u16be (nth i (backing pkt) 0)
                                      (nth (S i) (backing pkt) 0)).
Proof.
  intros H. unfold backing in H. rewrite length_app in H.
  eexists. split.
  - apply slice_range_ok; lia.
  - replace (i + 2 - i)%nat with 2%nat by lia.
    rewrite <- (app_nil_r (backing pkt)) at 1.
    rewrite firstn2_skipn by (unfold backing; rewrite length_app; lia).
    apply Uint16_pair.
Qed.

Lemma in_buffer_length (data : list Z) :
  (length data <= 1500)%nat -> length (in_buffer data) = 1500%nat.
Proof.
  intros H. unfold in_buffer. rewrite length_app, repeat_length. lia.
Qed.

Lemma parseRTP_on_buffer (data : list Z) (ch : Channel) :
  (1 <= length data <= 1500)%nat ->
  let b0 := nth 0 data 0 in
  let seq := u16be (nth 2 (in_buffer data) 0) (nth 3 (in_buffer data) 0) in
  let ext := u16be (nth 14 (in_buffer data) 0) (nth 15 (in_buffer data) 0) in
  parseRTP (received data) ch
  = (if negb (Z.shiftr b0 6 =? 2) then Err (RtpVersion (Z.shiftr b0 6)) ch
     else Ret (12 + (if Z.land (Z.shiftr b0 4) 1 >? 0
                     then 4 + u16 (ext * 4) else 0))
              (set_lastRTPSeq seq
                 (if firstPkt ch then set_rtp (u16 (seq - 1)) ch else ch))).
Proof.
  intros Hlen b0 seq ext.
  unfold parseRTP. set (pkt := received data).
  assert (He : elems pkt = data) by reflexivity.
  assert (Hb : backing pkt = in_buffer data) by reflexivity.
  assert (HL : length (backing pkt) = 1500%nat)
    by (rewrite Hb; apply in_buffer_length; lia).
  change (index pkt 0) with (index pkt (Z.of_nat 0)).
  unfold bind at 1. rewrite index_nth by (rewrite He; lia).
  cbn [must]. rewrite He. fold b0. cbv zeta.
  destruct (negb (Z.shiftr b0 6 =? 2)); [reflexivity|].
  destruct (slice_u16_backing pkt 2 ltac:(lia)) as (s & Hs & Hu).
  change (slice_range pkt 2 4)
    with (slice_range pkt (Z.of_nat 2) (Z.of_nat (2 + 2))).
  unfold bind at 1. rewrite Hs. cbn [must].
  unfold bind at 1. rewrite Hu. cbn [must]. rewrite Hb. fold seq.
  unfold bind at 1. cbn [get].
  destruct (slice_u16_backing pkt 14 ltac:(lia)) as (s' & Hs' & Hu').
  change (slice_range pkt 14 16)
    with (slice_range pkt (Z.of_nat 14) (Z.of_nat (14 + 2))).
  rewrite Hb in Hu'. fold ext in Hu'.
  destruct (firstPkt ch);
    destruct (Z.land (Z.shiftr b0 4) 1 >? 0);
    unfold bind, modify, ret; rewrite ?Hs'; cbn [must]; rewrite ?Hu';
    reflexivity.
Qed.

(** The framer never panics on a non-empty datagram: a field that lies
    beyond the end of a short datagram is read from the zero bytes of the
    receive buffer.  It rejects exactly the datagrams whose version is not
    2, leaving the channel as it was; on every other datagram it records
    the sequence number, clears [firstPkt] and changes nothing else.  An
    empty datagram makes it panic on [pkt[0]]. *)
Theorem parseRTP_received (data : list Z) (ch : Channel) :
  (1 <= length data <= 1500)%nat ->
  let b0 := nth 0 data 0 in
  let seq := u16be (nth 2 (in_buffer data) 0) (nth 3 (in_buffer data) 0) in
  let ext := u16be (nth 14 (in_buffer data) 0) (nth 15 (in_buffer data) 0) in
  parseRTP (received data) ch
  = (if negb (Z.shiftr b0 6 =? 2) then Err (RtpVersion (Z.shiftr b0 6)) ch
     else Ret (12 + (if Z.land (Z.shiftr b0 4) 1 >? 0
                     then 4 + u16 (ext * 4) else 0))
              (set_lastRTPSeq seq
                 (if firstPkt ch then set_rtp (u16 (seq - 1)) ch else ch)))
  /\ parseRTP (received []) ch = Panic.
Proof.
  intros Hlen. split; [|reflexivity].
  exact (parseRTP_on_buffer data ch Hlen).
Qed.

Lemma parseRTP_received_witness :
  let data := [128; 33; 18; 52] in
  let ch := newChannel zero_key true in
  parseRTP (received data) ch = Ret 12 (set_lastRTPSeq 4660 (set_rtp 4659 ch))
  /\ parseRTP (received []) ch = Panic.
Proof.
  intros data ch.
  exact (parseRTP_received data ch ltac:(cbn; lia)).
Defined.

Lemma land_byte_shiftl (a b : Z) :
  is_byte b -> Z.land b (Z.shiftl a 8) = 0.
Proof.
  intros [Hb0 Hb1]. apply Z.bits_inj'. intros n Hn.
  rewrite Z.land_spec, Z.bits_0.
  destruct (Z.lt_ge_cases n 8) as [L|G].
  - rewrite (Z.shiftl_spec_low a 8 n L). apply andb_false_r.
  - destruct (Z.eq_dec b 0) as [->|Hnz].
    + rewrite Z.bits_0. reflexivity.
    + rewrite (Z.bits_above_log2 b n); [reflexivity|lia|].
      assert (Z.log2 b < 8) by (apply Z.log2_lt_pow2; lia). lia.
Qed.

(** On bytes the big-endian 16-bit value is [256 b0 + b1]. *)
Lemma u16be_bytes (b0 b1 : Z) :
  is_byte b0 -> is_byte b1 ->
  u16be b0 b1 = 256 * b0 + b1 /\ 0 <= u16be b0 b1 < 65536.
Proof.
  intros H0 H1. unfold u16be.
  pose proof (Z.add_lor_land b1 (Z.shiftl b0 8)) as E.
  rewrite (land_byte_shiftl b0 b1 H1), Z.shiftl_mul_pow2 in E by lia.
  change (2 ^ 8) with 256 in E. rewrite Z.shiftl_mul_pow2 by lia.
  change (2 ^ 8) with 256. unfold is_byte in *. lia.
Qed.

(** Sequence tracking.  The first datagram of a channel is never reported
    as a discontinuity, whatever its sequence number; after a datagram
    with sequence number [seq] has been accepted, the next one is reported
    exactly when its sequence number is not [seq + 1] modulo 2^16. *)
Theorem rtp_discontinuity (data : list Z) (ch ch' : Channel) (off seq' : Z) :
  (1 <= length data <= 1500)%nat ->
  is_byte (nth 2 (in_buffer data) 0) -> is_byte (nth 3 (in_buffer data) 0) ->
  parseRTP (received data) ch = Ret off ch' ->
  let seq := u16be (nth 2 (in_buffer data) 0) (nth 3 (in_buffer data) 0) in
  (firstPkt ch = true -> discontinuity seq ch = false)
  /\ discontinuity seq' ch' = negb ((seq + 1) mod 65536 =? seq').
Proof.
  intros Hlen B2 B3 R seq.
  destruct (u16be_bytes _ _ B2 B3) as [_ Hr]. fold seq in Hr.
  split.
  - intros F. unfold discontinuity. rewrite F. cbv zeta. unfold u16.
    rewrite Zplus_mod_idemp_l.
    replace (seq - 1 + 1) with seq by lia.
    rewrite Z.mod_small by lia. rewrite Z.eqb_refl. reflexivity.
  - pose proof (parseRTP_on_buffer data ch Hlen) as E.
    cbv zeta in E. fold seq in E. rewrite E in R.
    destruct (negb _); [discriminate|].
    assert (Hch : ch' = set_lastRTPSeq seq
                          (if firstPkt ch then set_rtp (u16 (seq - 1)) ch
                           else ch)) by congruence.
    rewrite Hch. unfold discontinuity.
    destruct (firstPkt ch) eqn:F;
      cbn [firstPkt lastRTPSeq set_lastRTPSeq set_rtp]; rewrite ?F;
      reflexivity.
Qed.

Lemma rtp_discontinuity_witness :
  let data := [128; 33; 255; 255] in
  let ch := newChannel zero_key true in
  let ch' := set_lastRTPSeq 65535 (set_rtp 65534 ch) in
  (firstPkt ch = true -> discontinuity 65535 ch = false)
  /\ discontinuity 0 ch' = negb ((65535 + 1) mod 65536 =? 0).
Proof.
  intros data ch ch'.
  apply (rtp_discontinuity data ch ch' 12 0);
    [cbn; lia | unfold is_byte; cbn; lia | unfold is_byte; cbn; lia
    | reflexivity].
Defined.

(** ** The descrambler and the packet walk work in place *)

Lemma bind_Err {A B} (m : M A) (k : A -> M B) ch e ch2 :
  bind m k ch = Err e ch2 ->
  m ch = Err e ch2 \/ exists a ch1, m ch = Ret a ch1 /\ k a ch1 = Err e ch2.
Proof.
  unfold bind. destruct (m ch) as [a ch1|e1 ch1| |]; try discriminate.
  - eauto.
  - intros [= -> ->]. auto.
Qed.

Lemma ret_Ret {A} (a b : A) ch ch' :
  ret a ch = Ret b ch' -> b = a /\ ch' = ch.
Proof. unfold ret. intros H. split; congruence. Qed.

Lemma must_not_Err {A} (o : option A) ch e ch1 : must o ch <> Err e ch1.
Proof. unfold must. destruct o; discriminate. Qed.

Lemma decryptPacket_loop_Ret (cipher : option aes.Block) (fuel : nat) :
  forall (pkt out : list Z) (ch ch' : Channel),
    decryptPacket_loop fuel cipher pkt ch = Ret out ch' ->
    ch' = ch /\ length out = length pkt.
Proof.
  induction fuel as [|fuel IH]; intros pkt out ch ch' R;
    cbn [decryptPacket_loop] in R.
  - destruct (16 <? length pkt)%nat; [discriminate|].
    injection R as <- <-. auto.
  - destruct (Nat.ltb_spec 16 (length pkt)).
    + apply bind_Ret in R as (c & ch1 & H1 & R).
      apply must_Ret in H1 as [_ ->].
      apply bind_Ret in R as (d & ch1 & H1 & R).
      apply must_Ret in H1 as [Hd ->].
      apply bind_Ret in R as (rest & ch1 & H1 & R).
      apply IH in H1 as [-> Hr]. apply ret_Ret in R as [-> ->].
      split; [reflexivity|].
      apply Decrypt_length in Hd.
      rewrite length_app, length_firstn, Hr, length_skipn. lia.
    + injection R as <- <-. auto.
Qed.

Lemma decryptPacket_loop_not_Err (cipher : option aes.Block) (fuel : nat) :
  forall (pkt : list Z) (ch : Channel) e ch',
    decryptPacket_loop fuel cipher pkt ch <> Err e ch'.
Proof.
  induction fuel as [|fuel IH]; intros pkt ch e ch';
    cbn [decryptPacket_loop].
  - destruct (16 <? length pkt)%nat; discriminate.
  - destruct (16 <? length pkt)%nat; [|discriminate].
    unfold bind, must. destruct cipher; [|discriminate].
    destruct (Decrypt _ _ _); [|discriminate].
    specialize (IH (skipn 16 l) ch).
    destruct (decryptPacket_loop fuel _ _ ch); try discriminate.
    intros H. apply (IH e ch'). congruence.
Qed.

Lemma decryptPacket_shape (pkt : slice) (ch : Channel) :
  in_place pkt ch (decryptPacket pkt ch).
Proof.
  assert (Same : in_place pkt ch (Ret pkt ch)) by (cbn; auto).
  unfold decryptPacket. unfold bind at 1. cbn [get].
  destruct (aesKey1 ch) as [k1|]; [|exact Same].
  destruct (aesKey2 ch) as [k2|]; [|exact Same].
  unfold bind at 1. unfold must at 1.
  destruct (index pkt 3) as [b3|] eqn:H3; [|exact I].
  cbv zeta.
  destruct (scrambling b3 <? 2); [exact Same|].
  set (cipher := aes.NewCipher _).
  unfold bind at 1. unfold must at 1.
  destruct (slice_from pkt 4) as [body|] eqn:Hb; [|exact I].
  assert (Hbody : elems body = skipn 4 (elems pkt)).
  { unfold slice_from in Hb. destruct (_ && _); [|discriminate].
    assert (E : body = {| elems := skipn (Z.to_nat 4) (elems pkt);
                          spare := spare pkt |}) by congruence.
    rewrite E. reflexivity. }
  assert (H4 : (4 <= length (elems pkt))%nat).
  { unfold index in H3. destruct (Z.ltb_spec 3 (len pkt)).
    - unfold len in *. lia.
    - rewrite andb_false_r in H3. discriminate. }
  unfold bind.
  pose proof (decryptPacket_loop_terminates cipher (length (elems body))
                (elems body) ch (Nat.le_refl _)) as HT.
  pose proof (decryptPacket_loop_not_Err cipher (length (elems body))
                (elems body) ch) as HE.
  destruct (decryptPacket_loop (length (elems body)) cipher (elems body) ch)
    as [out ch1|e ch1| |] eqn:L.
  - apply decryptPacket_loop_Ret in L as [-> Lo].
    unfold ret, in_place. cbn [elems spare]. repeat split.
    + rewrite length_app, length_firstn, Lo, Hbody, length_skipn. lia.
    + apply firstn_app_exact. rewrite length_firstn. lia.
  - exfalso. apply (HE e ch1). reflexivity.
  - exact I.
  - contradiction.
Qed.

(** The descrambler works in place: it never returns an error and never
    spins, and whenever it returns, on any packet and with any keys, the
    channel is as before and the packet has its length, its first four
    bytes and the bytes behind it as before. *)
Theorem decryptPacket_in_place (pkt : slice) (ch : Channel) :
  (forall e ch', decryptPacket pkt ch <> Err e ch')
  /\ decryptPacket pkt ch <> Spin
  /\ forall pkt' ch',
       decryptPacket pkt ch = Ret pkt' ch' ->
       ch' = ch
       /\ length (elems pkt') = length (elems pkt)
       /\ firstn 4 (elems pkt') = firstn 4 (elems pkt)
       /\ spare pkt' = spare pkt.
Proof.
  pose proof (decryptPacket_shape pkt ch) as H.
  destruct (decryptPacket pkt ch) as [p c|e c| |]; cbn [in_place] in H.
  - split; [discriminate|]. split; [discriminate|].
    intros pkt' ch' E. assert (p = pkt') by congruence.
    assert (c = ch') by congruence. subst. exact H.
  - contradiction.
  - split; [discriminate|]. split; discriminate.
  - contradiction.
Qed.

Lemma decryptPacket_in_place_witness :
  exists pkt',
    decryptPacket (sample_ts 3) sample_keyed = Ret pkt' sample_keyed
    /\ elems pkt' <> elems (sample_ts 3)
    /\ length (elems pkt') = 188%nat
    /\ firstn 4 (elems pkt') = [71; 1; 0; 208].
Proof.
  let o := eval vm_compute in (decryptPacket (sample_ts 3) sample_keyed) in
  lazymatch o with
  | Ret ?p _ =>
      exists p;
      destruct (proj2 (proj2 (decryptPacket_in_place (sample_ts 3)
                                sample_keyed)) p sample_keyed)
        as (_ & L & F & _); [vm_compute; reflexivity|];
      split; [vm_compute; reflexivity|];
      split; [vm_compute; discriminate|];
      split; [rewrite L; reflexivity|rewrite F; vm_compute; reflexivity]
  end.
Defined.

Lemma get_Ret ch c ch1 : get ch = Ret c ch1 -> c = ch /\ ch1 = ch.
Proof. unfold get. intros H. split; congruence. Qed.

Lemma fail_not_Ret {A} e ch (a : A) ch' : fail e ch <> Ret a ch'.
Proof. discriminate. Qed.

Lemma pres_if_ret P (b : bool) (m : M unit) :
  preserves P m -> preserves P (if b then m else ret tt).
Proof. intros H. destruct b; [exact H|apply pres_ret]. Qed.

Lemma pres_err_of_pres {A} P (m : M A) : preserves P m -> preserves_err P m.
Proof.
  intros H ch Hc. specialize (H ch Hc). destruct (m ch); auto.
Qed.

Lemma pres_err_bind {A B} P (m : M A) (k : A -> M B) :
  preserves P m -> (forall a, preserves_err P (k a)) ->
  preserves_err P (bind m k).
Proof.
  intros Hm Hk ch H. unfold bind. specialize (Hm ch H).
  destruct (m ch) as [a ch1|e ch1| |]; try exact I; try exact Hm.
  apply Hk, Hm.
Qed.

Lemma ring_same_refl ch : ring_same ch ch.
Proof. repeat split. Qed.

(** The stages of [processPacket] before the ring is written keep the
    ring. *)
Lemma processPAT_ring ch0 pkt : preserves (ring_same ch0) (processPAT pkt).
Proof. apply processPAT_preserves. intros ? ? H. exact H. Qed.

Lemma processPMT_ring ch0 pkt : preserves (ring_same ch0) (processPMT pkt).
Proof. apply processPMT_preserves. intros ? ? H. exact H. Qed.

Lemma processECM_ring ch0 pkt : preserves (ring_same ch0) (processECM pkt).
Proof. apply processECM_preserves. intros ? ? ? _ _ H. exact H. Qed.

Lemma decryptPacket_ring ch0 pkt :
  preserves (ring_same ch0) (decryptPacket pkt).
Proof. apply decryptPacket_preserves. Qed.

Lemma addToBuf_not_Err val ch e ch' : addToBuf val ch <> Err e ch'.
Proof.
  unfold addToBuf, bind, get, must, modify. destruct (buf ch); discriminate.
Qed.

Lemma processPacket_err_ring ch0 pkt :
  preserves_err (ring_same ch0) (processPacket pkt).
Proof.
  unfold processPacket.
  apply pres_err_bind; [apply pres_must|intro b0].
  destruct (negb _); [apply pres_err_of_pres, pres_fail|].
  apply pres_err_bind; [apply pres_must|intro].
  apply pres_err_bind; [apply pres_must|intro]. cbv zeta.
  apply pres_err_bind; [apply pres_get|intro].
  apply pres_err_bind; [apply pres_if_ret, processPAT_ring|intro].
  apply pres_err_bind; [apply pres_get|intro].
  apply pres_err_bind; [apply pres_if_ret, processPMT_ring|intro].
  unfold processPayload.
  apply pres_err_bind; [apply pres_get|intro].
  apply pres_err_bind; [apply pres_if_ret, processECM_ring|intro].
  apply pres_err_bind; [apply decryptPacket_ring|intro p1].
  apply pres_err_bind; [apply pres_get|intro c].
  intros ch H. unfold bind.
  destruct (http c).
  - pose proof (addToBuf_not_Err (elems p1) ch) as N.
    destruct (addToBuf (elems p1) ch); try exact I. exfalso. eapply N.
    reflexivity.
  - exact I.
Qed.

Lemma processPacket_shape (pkt : slice) (ch : Channel) :
  publishes_one pkt ch (processPacket pkt ch).
Proof.
  destruct (processPacket pkt ch) as [pkt' ch'|e ch'| |] eqn:R;
    try exact I.
  2:{ pose proof (processPacket_err_ring ch pkt ch (ring_same_refl ch)) as H.
      rewrite R in H. exact H. }
  unfold processPacket in R.
  apply bind_Ret in R as (b0 & ch1 & H & R). apply must_Ret in H as [_ ->].
  destruct (negb _); [discriminate|].
  apply bind_Ret in R as (s & ch1 & H & R). apply must_Ret in H as [_ ->].
  apply bind_Ret in R as (v & ch1 & H & R). apply must_Ret in H as [_ ->].
  cbv zeta in R.
  apply bind_Ret in R as (c0 & ch1 & H & R). apply get_Ret in H as [-> ->].
  apply bind_Ret in R as (u1 & chA & HA & R).
  apply bind_Ret in R as (c1 & ch1 & H & R). apply get_Ret in H as [-> ->].
  apply bind_Ret in R as (u2 & chB & HB & R).
  unfold processPayload in R.
  apply bind_Ret in R as (c2 & ch1 & H & R). apply get_Ret in H as [-> ->].
  apply bind_Ret in R as (u3 & chC & HC & R).
  apply bind_Ret in R as (p1 & chD & HD & R).
  apply bind_Ret in R as (c3 & ch1 & H & R). apply get_Ret in H as [-> ->].
  apply bind_Ret in R as (u4 & chE & HE & R).
  apply ret_Ret in R as [-> ->].
  assert (SA : ring_same ch chA).
  { eapply (state_after_preserves (ring_same ch));
      [apply pres_if_ret, processPAT_ring|apply ring_same_refl|].
    rewrite HA. reflexivity. }
  assert (SB : ring_same ch chB).
  { eapply (state_after_preserves (ring_same ch));
      [apply pres_if_ret, processPMT_ring|exact SA|].
    rewrite HB. reflexivity. }
  assert (SC : ring_same ch chC).
  { eapply (state_after_preserves (ring_same ch));
      [apply pres_if_ret, processECM_ring|exact SB|].
    rewrite HC. reflexivity. }
  pose proof (decryptPacket_shape pkt chC) as IP. rewrite HD in IP.
  destruct IP as (-> & L & F & S).
  destruct SC as (Sb & Ss & Sh).
  unfold publishes_one. repeat split; try assumption.
  - rewrite Sh in HE. destruct (http ch).
    + unfold addToBuf, bind, get, must, modify in HE.
      destruct (buf chC); [|discriminate].
      assert (chE = set_ring (Some (Next n))
                      (store n (Some (elems p1)) (slots chC)) chC)
        by congruence.
      subst chE. exact Sh.
    + apply ret_Ret in HE as [_ ->]. exact Sh.
  - rewrite Sh in HE. destruct (http ch).
    + unfold addToBuf, bind, get, must, modify in HE.
      rewrite Sb in HE.
      destruct (buf ch) as [p|]; [|discriminate].
      assert (chE = set_ring (Some (Next p))
                      (store p (Some (elems p1)) (slots chC)) chC)
        by congruence.
      subst chE. exists p. cbn [buf slots set_ring]. rewrite Ss. auto.
    + apply ret_Ret in HE as [_ ->]. auto.
Qed.

(** One call of [processPacket] publishes at most once.  A packet that is
    returned has its length, its first four bytes and the bytes behind it
    as before; on an HTTP channel it has been stored, as it is after
    descrambling, in the slot under the writer's cursor, and the cursor has
    moved on by one; on any other channel the ring is not touched.  A
    packet that is refused with an error is not published: the ring is as
    it was. *)
Theorem processPacket_publishes (pkt : slice) (ch : Channel) :
  (forall pkt' ch',
      processPacket pkt ch = Ret pkt' ch' ->
      length (elems pkt') = length (elems pkt)
      /\ firstn 4 (elems pkt') = firstn 4 (elems pkt)
      /\ spare pkt' = spare pkt
      /\ http ch' = http ch
      /\ (if http ch
          then exists p, buf ch = Some p /\ buf ch' = Some (Next p)
                         /\ slots ch' = store p (Some (elems pkt')) (slots ch)
          else buf ch' = buf ch /\ slots ch' = slots ch))
  /\ (forall e ch',
        processPacket pkt ch = Err e ch' ->
        buf ch' = buf ch /\ slots ch' = slots ch).
Proof.
  pose proof (processPacket_shape pkt ch) as H. split.
  - intros pkt' ch' E. rewrite E in H. exact H.
  - intros e ch' E. rewrite E in H. destruct H as (A & B & _).
    split; [exact A|exact B].
Qed.

Lemma processPacket_publishes_witness :
  exists pkt' ch',
    processPacket (sample_ts 3) sample_keyed = Ret pkt' ch'
    /\ buf sample_keyed = Some 0%nat
    /\ buf ch' = Some 1%nat
    /\ nth 0 (slots ch') None = Some (elems pkt').
Proof.
  let o := eval vm_compute in (processPacket (sample_ts 3) sample_keyed) in
  lazymatch o with
  | Ret ?p ?c =>
      exists p, c;
      destruct (proj1 (processPacket_publishes (sample_ts 3) sample_keyed)
                      p c) as (_ & _ & _ & _ & H);
        [vm_compute; reflexivity|];
      change (http sample_keyed) with true in H;
      destruct H as (q & B0 & B1 & SL);
      assert (Q : q = 0%nat) by (vm_compute in B0; congruence);
      split; [vm_compute; reflexivity|];
      split; [reflexivity|];
      split; [rewrite B1, Q; reflexivity|rewrite SL, Q; reflexivity]
  end.
Defined.

(** ** A datagram is walked in place *)

Lemma slice_from_Some (s s' : slice) (lo : Z) :
  slice_from s lo = Some s' ->
  0 <= lo <= len s
  /\ elems s' = skipn (Z.to_nat lo) (elems s) /\ spare s' = spare s.
Proof.
  unfold slice_from.
  destruct (Z.leb_spec 0 lo); [|discriminate].
  destruct (Z.leb_spec lo (len s)); [|discriminate]. cbn [andb].
  intros E.
  assert (s' = {| elems := skipn (Z.to_nat lo) (elems s);
                  spare := spare s |}) as -> by congruence.
  auto.
Qed.

Lemma slice_to_Some (s s' : slice) (hi : nat) :
  slice_to s (Z.of_nat hi) = Some s' ->
  elems s' = firstn hi (backing s) /\ spare s' = skipn hi (backing s)
  /\ (hi <= length (backing s))%nat.
Proof.
  unfold slice_to, slice_range, cap. change (0 <=? 0) with true.
  destruct (Z.leb_spec 0 (Z.of_nat hi)); [|lia]. cbn [andb].
  destruct (Z.leb_spec (Z.of_nat hi)
              (Z.of_nat (length (elems s) + length (spare s))));
    [|discriminate].
  intros E.
  assert (s' = {| elems := firstn (Z.to_nat (Z.of_nat hi - 0))
                             (skipn (Z.to_nat 0) (backing s));
                  spare := skipn (Z.to_nat (Z.of_nat hi)) (backing s) |})
    as -> by congruence.
  cbn [elems spare]. rewrite Z.sub_0_r, Nat2Z.id.
  change (Z.to_nat 0) with 0%nat. change (skipn 0 ?l) with l.
  unfold backing. rewrite length_app. repeat split. lia.
Qed.

Lemma processRTP_loop_walked (fuel : nat) :
  forall (pkt : slice) (out : list Z) (ch ch' : Channel),
    processRTP_loop fuel pkt ch = Ret out ch' ->
    walked pkt 0 ch {| elems := out; spare := spare pkt |} ch'.
Proof.
  assert (Base : forall pkt ch, len pkt <= 0 ->
            walked pkt 0 ch {| elems := []; spare := spare pkt |} ch).
  { intros pkt ch G. exists 0%nat. unfold len in G. cbn [elems spare].
    assert (E : elems pkt = []) by (destruct (elems pkt); [reflexivity|
                                    cbn [length] in G; lia]).
    rewrite E. repeat split; try lia.
    destruct (http ch); [destruct (buf ch); reflexivity|auto]. }
  induction fuel as [|fuel IH]; intros pkt out ch ch' R;
    cbn [processRTP_loop] in R.
  - destruct (Z.gtb_spec (len pkt) 0); [discriminate|].
    apply ret_Ret in R as [-> ->]. apply Base. lia.
  - destruct (Z.gtb_spec (len pkt) 0) as [G|G].
    2:{ apply ret_Ret in R as [-> ->]. apply Base. lia. }
    apply bind_Ret in R as (p & ch1 & H & R).
    apply must_Ret in H as [Hp ->].
    change 188 with (Z.of_nat 188) in Hp.
    apply slice_to_Some in Hp as (Ep & _ & _).
    apply bind_Ret in R as (p' & ch1 & HP & R).
    apply bind_Ret in R as (rest & ch2 & H & R).
    apply must_Ret in H as [Hr ->].
    apply slice_from_Some in Hr as (Hlo & Er & Sr).
    change (Z.to_nat 188) with 188%nat in Er. unfold len in Hlo.
    apply bind_Ret in R as (out' & ch2 & HL & R).
    apply ret_Ret in R as [-> ->].
    apply IH in HL as (n' & L1 & L2 & _ & L4 & _ & L6 & L7).
    cbn [elems spare] in *.
    pose proof (processPacket_shape p ch) as PP. rewrite HP in PP.
    destruct PP as (P1 & P2 & _ & P4 & P5).
    assert (Ep' : elems p = firstn 188 (elems pkt)).
    { rewrite Ep. unfold backing. rewrite firstn_app.
      replace (188 - length (elems pkt))%nat with 0%nat by lia.
      change (firstn 0 (spare pkt)) with (@nil Z). apply app_nil_r. }
    assert (Lp : length (elems p') = 188%nat).
    { rewrite P1, Ep', length_firstn. lia. }
    assert (Lr : length (elems rest) = (length (elems pkt) - 188)%nat)
      by (rewrite Er; apply length_skipn).
    exists (S n'). cbn [elems spare].
    split; [lia|].
    split; [rewrite length_app; lia|].
    split; [reflexivity|].
    split.
    { intros j Hj. destruct j as [|j].
      - change (0 + 188 * 0)%nat with 0%nat. change (skipn 0 ?l) with l.
        rewrite firstn_app, Lp.
        change (firstn (4 - 188) out') with (@nil Z). rewrite app_nil_r.
        rewrite P2, Ep', firstn_firstn. reflexivity.
      - rewrite skipn_app_ge by lia. rewrite Lp.
        replace (0 + 188 * S j - 188)%nat with (0 + 188 * j)%nat by lia.
        rewrite L4 by lia. rewrite Er, skipn_skipn. do 2 f_equal. lia. }
    split; [reflexivity|].
    split; [congruence|].
    rewrite P4 in L7. destruct (http ch).
    + destruct P5 as (p0 & B0 & B1 & _). rewrite L7, B1, B0.
      cbn [option_map]. rewrite Nat.iter_succ_r. reflexivity.
    + destruct P5 as [B1 S1]. destruct L7 as [B2 S2].
      split; congruence.
Qed.

Lemma processRTP_walked (payload payload' : slice) (offset : Z)
        (ch ch' : Channel) :
  processRTP payload offset ch = Ret payload' ch' ->
  0 <= offset /\ walked payload (Z.to_nat offset) ch payload' ch'.
Proof.
  unfold processRTP. intros R.
  destruct (negb _); [discriminate|].
  apply bind_Ret in R as (pkt & ch1 & H & R).
  apply must_Ret in H as [Hp ->].
  apply slice_from_Some in Hp as (Hlo & Ep & Sp). unfold len in Hlo.
  apply bind_Ret in R as (out & ch1 & HL & R).
  apply ret_Ret in R as [-> ->].
  apply processRTP_loop_walked in HL
    as (n & L1 & L2 & _ & L4 & _ & L6 & L7).
  cbn [elems spare] in *. split; [lia|].
  assert (Lf : length (firstn (Z.to_nat offset) (elems payload))
               = Z.to_nat offset) by (rewrite length_firstn; lia).
  assert (Lk : length (elems pkt)
               = (length (elems payload) - Z.to_nat offset)%nat)
    by (rewrite Ep; apply length_skipn).
  exists n. cbn [elems spare].
  split; [lia|].
  split; [rewrite length_app; lia|].
  split; [apply firstn_app_exact; exact Lf|].
  split.
  { intros j Hj. rewrite skipn_app_ge by lia. rewrite Lf.
    replace (Z.to_nat offset + 188 * j - Z.to_nat offset)%nat
      with (0 + 188 * j)%nat by lia.
    rewrite L4 by assumption. rewrite Ep, skipn_skipn. do 2 f_equal. lia. }
  split; [reflexivity|].
  split; [exact L6|exact L7].
Qed.

(** Whenever [processRTP] returns, the datagram has been walked in place:
    the offset is not negative, the payload is a whole number [n] of
    188-byte packets, and the datagram has its length, the bytes before the
    offset (the RTP header), the first four bytes of each of the [n] TS
    packets and the bytes behind it as before.  On an HTTP channel the
    writer's cursor has moved on by [n]; on any other channel the ring is
    not touched. *)
Theorem processRTP_in_place (payload payload' : slice) (offset : Z)
        (ch ch' : Channel) :
  processRTP payload offset ch = Ret payload' ch' ->
  0 <= offset
  /\ exists n : nat,
      length (elems payload) = (Z.to_nat offset + 188 * n)%nat
      /\ length (elems payload') = length (elems payload)
      /\ firstn (Z.to_nat offset) (elems payload')
         = firstn (Z.to_nat offset) (elems payload)
      /\ (forall j, (j < n)%nat ->
            firstn 4 (skipn (Z.to_nat offset + 188 * j) (elems payload'))
            = firstn 4 (skipn (Z.to_nat offset + 188 * j) (elems payload)))
      /\ spare payload' = spare payload
      /\ http ch' = http ch
      /\ (if http ch
          then buf ch' = option_map (Nat.iter n Next) (buf ch)
          else buf ch' = buf ch /\ slots ch' = slots ch).
Proof.
  exact (processRTP_walked payload payload' offset ch ch').
Qed.

Lemma processRTP_in_place_witness :
  exists payload' ch',
    0 <= 12
    /\ walked (received datagram_sample) (Z.to_nat 12)
              (newChannel zero_key true) payload' ch'.
Proof.
  eexists. eexists.
  apply (processRTP_in_place (received datagram_sample) _ 12
           (newChannel zero_key true)).
  vm_compute. reflexivity.
Defined.

(** ** Properties kept by the engine *)

Section Engine.

Variable P : Channel -> Prop.
Hypothesis P_parseRTP : forall pkt, preserves P (parseRTP pkt).
Hypothesis P_processPacket : forall pkt, preserves P (processPacket pkt).
Hypothesis P_closeBuf : preserves P closeBuf.

Lemma processRTP_loop_keeps fuel :
  forall pkt, preserves P (processRTP_loop fuel pkt).
Proof.
  induction fuel as [|fuel IH]; intros pkt; cbn [processRTP_loop].
  - pres.
  - destruct (len pkt >? 0); [|pres].
    apply pres_bind; [pres|intro].
    apply pres_bind; [apply P_processPacket|intro].
    apply pres_bind; [pres|intro].
    apply pres_bind; [apply IH|intro]. pres.
Qed.

Lemma processRTP_keeps payload offset :
  preserves P (processRTP payload offset).
Proof.
  unfold processRTP. destruct (negb _); [pres|].
  apply pres_bind; [pres|intro].
  apply pres_bind; [apply processRTP_loop_keeps|intro]. pres.
Qed.

Lemma handleDatagram_keeps data : preserves P (handleDatagram data).
Proof.
  unfold handleDatagram. cbv zeta.
  apply pres_bind; [apply P_parseRTP|intro]. apply processRTP_keeps.
Qed.

Lemma decryptHTTP_turn_keeps r : preserves P (decryptHTTP_turn r).
Proof.
  assert (Hc : forall t, preserves P (closeBuf ;;; ret (Stopped t))).
  { intros t. apply pres_bind; [apply P_closeBuf|intro; pres]. }
  intros ch H. unfold decryptHTTP_turn. destruct r as [data|].
  - pose proof (handleDatagram_keeps data ch H) as Hd.
    destruct (handleDatagram data ch) as [a ch1|e ch1| |]; try exact I.
    + exact Hd.
    + apply Hc, Hd.
  - apply Hc, H.
Qed.

Lemma decryptHTTP_loop_keeps reads : preserves P (decryptHTTP_loop reads).
Proof.
  induction reads as [|r reads IH]; cbn [decryptHTTP_loop].
  - pres.
  - apply pres_bind; [apply decryptHTTP_turn_keeps|intros [|cause]].
    + exact IH.
    + pres.
Qed.

Lemma decryptRTP_turn_keeps r : preserves P (decryptRTP_turn r).
Proof.
  intros ch H. unfold decryptRTP_turn. destruct r as [data|]; [|exact H].
  pose proof (handleDatagram_keeps data ch H) as Hd.
  destruct (handleDatagram data ch); try exact I; exact Hd.
Qed.

End Engine.

(** Properties that every setter but the ring's keeps, and that a
    publication keeps. *)
Section Publishing.

Variable P : Channel -> Prop.
Hypothesis P_rtp : forall s ch, P ch -> P (set_rtp s ch).
Hypothesis P_lastRTPSeq : forall s ch, P ch -> P (set_lastRTPSeq s ch).
Hypothesis P_pmtPid : forall v ch, P ch -> P (set_pmtPid v ch).
Hypothesis P_ecmPid : forall v ch, P ch -> P (set_ecmPid v ch).
Hypothesis P_keys :
  forall a b ch, length a = 16%nat -> length b = 16%nat ->
                 P ch -> P (set_keys a b ch).
Hypothesis P_ioerr : forall ch, P ch -> P (set_ioerr ch).
Hypothesis P_numClients : forall n ch, P ch -> P (set_numClients n ch).
Hypothesis P_addToBuf : forall val, preserves P (addToBuf val).

Lemma processPacket_keeps pkt : preserves P (processPacket pkt).
Proof.
  unfold processPacket.
  apply pres_bind; [pres|intro]. destruct (negb _); [pres|].
  apply pres_bind; [pres|intro]. apply pres_bind; [pres|intro]. cbv zeta.
  apply pres_bind; [pres|intro].
  apply pres_bind;
    [apply pres_if_ret, processPAT_preserves; assumption|intro].
  apply pres_bind; [pres|intro].
  apply pres_bind;
    [apply pres_if_ret, processPMT_preserves; assumption|intro].
  unfold processPayload.
  apply pres_bind; [pres|intro].
  apply pres_bind;
    [apply pres_if_ret, processECM_preserves; assumption|intro].
  apply pres_bind; [apply decryptPacket_preserves|intro].
  apply pres_bind; [pres|intro c].
  apply pres_bind; [apply pres_if_ret, P_addToBuf|intro]. pres.
Qed.

Lemma run_keeps (c : call) (ch ch' : Channel) :
  P ch -> run c ch = Some ch' -> P ch'.
Proof.
  intros H R.
  assert (K : forall A (m : M A), preserves P m ->
                state_after (m ch) = Some ch' -> P ch').
  { intros A m Hm E. exact (state_after_preserves P m ch ch' Hm H E). }
  assert (Hparse : forall pkt, preserves P (parseRTP pkt))
    by (intro; apply parseRTP_preserves; assumption).
  assert (Hclose : preserves P closeBuf)
    by (apply closeBuf_preserves; assumption).
  destruct c; cbn [run] in R.
  - eapply K; [apply Hparse|eassumption].
  - eapply K; [apply processECM_preserves; assumption|eassumption].
  - eapply K; [apply decryptPacket_preserves|eassumption].
  - eapply K; [apply parseEcmPid_preserves; assumption|eassumption].
  - eapply K; [apply processPacket_keeps|eassumption].
  - eapply K; [|eassumption].
    apply processRTP_keeps. apply processPacket_keeps.
  - eapply K; [|eassumption].
    apply handleDatagram_keeps; [apply Hparse|apply processPacket_keeps].
  - eapply K; [|eassumption].
    apply decryptHTTP_turn_keeps;
      [apply Hparse|apply processPacket_keeps|apply Hclose].
  - eapply K; [apply P_addToBuf|eassumption].
  - eapply K; [apply currentPtr_preserves|eassumption].
  - destruct (nextPtr ptr ch); try discriminate.
    + assert (ch' = ch) as -> by congruence. exact H.
    + assert (ch' = ch) as -> by congruence. exact H.
  - eapply K; [apply Hclose|eassumption].
  - eapply K; [apply clientJoin_preserves; assumption|eassumption].
  - eapply K; [apply clientLeave_preserves; assumption|eassumption].
Qed.

Lemma runs_keeps (cs : list call) :
  forall ch ch', P ch -> runs cs ch = Some ch' -> P ch'.
Proof.
  induction cs as [|c cs IH]; intros ch ch' H R; cbn [runs] in R.
  - assert (ch' = ch) as -> by congruence. exact H.
  - destruct (run c ch) as [ch1|] eqn:E; [|discriminate].
    eapply IH; [|eassumption]. eapply run_keeps; eassumption.
Qed.

End Publishing.

(** ** The ring *)

Lemma store_length {A} (i : nat) (v : A) (l : list A) :
  length (store i v l) = length l.
Proof.
  revert i. induction l as [|x l IH]; intros i; [destruct i; reflexivity|].
  destruct i; cbn [store length]; [reflexivity|]. rewrite IH. reflexivity.
Qed.

Lemma nth_store_eq {A} (i : nat) (v d : A) (l : list A) :
  (i < length l)%nat -> nth i (store i v l) d = v.
Proof.
  revert i. induction l as [|x l IH]; intros i H; cbn [length] in H; [lia|].
  destruct i; cbn [store nth]; [reflexivity|]. apply IH. lia.
Qed.

Lemma nth_store_neq {A} (i j : nat) (v d : A) (l : list A) :
  i <> j -> nth j (store i v l) d = nth j l d.
Proof.
  revert i j. induction l as [|x l IH]; intros i j H;
    [destruct i; reflexivity|].
  destruct i, j; cbn [store nth]; try reflexivity; [lia|].
  apply IH. lia.
Qed.

Lemma mod64_cases (x : nat) :
  (x < 128)%nat ->
  (x mod 64 = if x <? 64 then x else x - 64)%nat.
Proof.
  intros H. destruct (Nat.ltb_spec x 64).
  - apply Nat.mod_small. assumption.
  - replace x with (x - 64 + 1 * 64)%nat at 1 by lia.
    rewrite Nat.Div0.mod_add. apply Nat.mod_small. lia.
Qed.

Ltac mod64 :=
  unfold Next, RingSize in *;
  repeat match goal with
         | H : context [(?x mod 64)%nat] |- _ =>
             rewrite (mod64_cases x) in H by lia;
             destruct (Nat.ltb_spec x 64)
         | |- context [(?x mod 64)%nat] =>
             rewrite (mod64_cases x) by lia;
             destruct (Nat.ltb_spec x 64)
         end.

Lemma addToBuf_Ret (val : list Z) (ch : Channel) (p : nat) :
  buf ch = Some p ->
  addToBuf val ch
  = Ret tt (set_ring (Some (Next p)) (store p (Some val) (slots ch)) ch).
Proof.
  intros H. unfold addToBuf, bind, get, must, modify. rewrite H.
  reflexivity.
Qed.

Lemma addToBuf_ring_shape val : preserves ring_shape (addToBuf val).
Proof.
  intros ch (b & Hb & Lb & Ls). rewrite (addToBuf_Ret val ch b Hb).
  exists (Next b). cbn [buf slots set_ring]. rewrite store_length.
  repeat split; try assumption.
  unfold Next. apply Nat.mod_upper_bound. discriminate.
Qed.

Lemma addToBuf_reader_ok r val : preserves (reader_ok r) (addToBuf val).
Proof.
  intros ch (b & Hb & Lb & Lr & Ls & Hs).
  rewrite (addToBuf_Ret val ch b Hb).
  exists (Next b). cbn [buf slots set_ring]. rewrite store_length.
  split; [reflexivity|].
  split; [unfold Next; apply Nat.mod_upper_bound; discriminate|].
  split; [assumption|]. split; [assumption|].
  intros k Hk.
  destruct (Nat.eq_dec ((r + k) mod RingSize) b) as [E|E].
  - rewrite E, nth_store_eq by lia. discriminate.
  - rewrite nth_store_neq by congruence. apply Hs.
    unfold Next, RingSize in *.
    assert (k < 64)%nat.
    { pose proof (Nat.mod_upper_bound (S b mod 64 + 64 - r) 64). lia. }
    pose proof (Nat.mod_upper_bound (S b) 64 ltac:(discriminate)).
    rewrite (mod64_cases (S b)) in * by lia.
    rewrite (mod64_cases (r + k)) in E by lia.
    rewrite (mod64_cases (b + 64 - r)) by lia.
    destruct (Nat.ltb_spec (S b) 64);
      destruct (Nat.ltb_spec (r + k) 64);
      destruct (Nat.ltb_spec (b + 64 - r) 64);
      try (rewrite (mod64_cases (S b + 64 - r)) in Hk by lia);
      try (rewrite (mod64_cases (S b - 64 + 64 - r)) in Hk by lia);
      repeat match goal with
             | H : context [(?x <? 64)%nat] |- _ =>
                 destruct (Nat.ltb_spec x 64)
             end; lia.
Qed.

Lemma ring_shape_reachable (k : String.string) (cs : list call)
      (ch : Channel) :
  runs cs (newChannel k true) = Some ch -> ring_shape ch.
Proof.
  apply (runs_keeps ring_shape); try (intros; assumption).
  - apply addToBuf_ring_shape.
  - exists 0%nat. cbn. repeat split. unfold RingSize. lia.
Qed.

Lemma reader_ok_at_cursor (ch : Channel) (b : nat) :
  ring_shape ch -> buf ch = Some b -> reader_ok b ch.
Proof.
  intros (b' & Hb & Lb & Ls) E. rewrite E in Hb. injection Hb as <-.
  exists b. repeat split; try assumption.
  intros k Hk. exfalso. unfold RingSize in *.
  rewrite (mod64_cases (b + 64 - b)) in Hk by lia.
  destruct (Nat.ltb_spec (b + 64 - b) 64); lia.
Qed.

Lemma nextPtr_reader_ok (r : nat) (ch : Channel) :
  reader_ok r ch ->
  match nextPtr (Some r) ch with
  | Waits => ioerr ch = false
  | Returns ptr' v =>
      (ioerr ch = true /\ v = None /\ ptr' = Some r)
      \/ (ioerr ch = false /\ v <> None /\ ptr' = Some (Next r)
          /\ reader_ok (Next r) ch)
  | NilDeref => False
  end.
Proof.
  intros (b & Hb & Lb & Lr & Ls & Hs). unfold nextPtr. rewrite Hb.
  cbn [ptr_eqb]. destruct (ioerr ch) eqn:Hio; cbn [negb].
  - rewrite andb_false_r. left. auto.
  - rewrite andb_true_r. destruct (Nat.eqb_spec r b) as [E|E];
      [reflexivity|].
    right. unfold RingSize in *.
    assert (D : (0 < (b + 64 - r) mod 64)%nat).
    { rewrite (mod64_cases (b + 64 - r)) by lia.
      destruct (Nat.ltb_spec (b + 64 - r) 64); lia. }
    split; [reflexivity|]. split.
    { specialize (Hs 0%nat D). rewrite Nat.add_0_r in Hs.
      rewrite Nat.mod_small in Hs by assumption. exact Hs. }
    split; [reflexivity|].
    exists b. unfold Next, RingSize.
    pose proof (Nat.mod_upper_bound (S r) 64 ltac:(discriminate)).
    repeat split; try assumption.
    intros k Hk.
    assert (k < 64)%nat.
    { pose proof (Nat.mod_upper_bound (b + 64 - S r mod 64) 64). lia. }
    replace ((S r mod 64 + k) mod 64)%nat with ((r + S k) mod 64)%nat.
    + apply Hs.
      rewrite (mod64_cases (S r)) in Hk by lia.
      rewrite (mod64_cases (b + 64 - r)) by lia.
      destruct (Nat.ltb_spec (S r) 64);
        destruct (Nat.ltb_spec (b + 64 - r) 64);
        try (rewrite (mod64_cases (b + 64 - S r)) in Hk by lia);
        try (rewrite (mod64_cases (b + 64 - (S r - 64))) in Hk by lia);
        repeat match goal with
               | H : context [(?x <? 64)%nat] |- _ =>
                   destruct (Nat.ltb_spec x 64)
               end; lia.
    + rewrite Nat.Div0.add_mod_idemp_l. f_equal. lia.
Qed.

Lemma follow_reader_ok (es : list event) :
  forall (r : nat) (ch : Channel) obs p c,
    reader_ok r ch ->
    follow es (Some r) ch = Some (obs, p, c) ->
    Forall (fun o => snd o = None <-> fst o = true) obs.
Proof.
  induction es as [|e es IH]; intros r ch obs p c H F; cbn [follow] in F.
  - assert (obs = []) as -> by congruence. constructor.
  - destruct e as [cl|].
    + destruct (run cl ch) as [ch1|] eqn:R; [|discriminate].
      apply (IH r ch1 obs p c); [|exact F].
      apply (run_keeps (reader_ok r)) with (c := cl) (ch := ch);
        try (intros; assumption).
      apply addToBuf_reader_ok.
    + pose proof (nextPtr_reader_ok r ch H) as N.
      destruct (nextPtr (Some r) ch) as [|ptr' v|]; [| |contradiction].
      * apply (IH r ch obs p c H F).
      * destruct N as [(Hio & -> & ->)|(Hio & Hv & -> & H')].
        -- destruct (follow es (Some r) ch) as [[[obs' p'] c']|] eqn:F';
             [|discriminate].
           assert (obs = (ioerr ch, None) :: obs') as -> by congruence.
           constructor; [cbn; tauto|].
           apply (IH r ch obs' p' c' H F').
        -- destruct (follow es (Some (Next r)) ch) as [[[obs' p'] c']|]
             eqn:F'; [|discriminate].
           assert (obs = (ioerr ch, v) :: obs') as -> by congruence.
           constructor.
           ++ cbn. rewrite Hio. split; [contradiction|discriminate].
           ++ apply (IH (Next r) ch obs' p' c' H' F').
Qed.

(** A reader that takes the writer's cursor of an HTTP channel and follows
    the ring from there, whatever calls are made on the channel in
    between, gets no value exactly from the reads made while [ioerr] is
    set: as long as the ring is open every read that returns gives a
    packet, so that [val == nil] in [chHandler] means the end of the
    stream and nothing else. *)
Theorem reader_nil_iff_closed (k : String.string) (cs : list call)
        (ch0 : Channel) (es : list event)
        (obs : list (bool * option (list Z))) (p : option nat)
        (c : Channel) :
  runs cs (newChannel k true) = Some ch0 ->
  follow es (buf ch0) ch0 = Some (obs, p, c) ->
  Forall (fun o => snd o = None <-> fst o = true) obs.
Proof.
  intros R F. pose proof (ring_shape_reachable k cs ch0 R) as S.
  destruct S as (b & Hb & Lb & Ls). rewrite Hb in F.
  apply (follow_reader_ok es b ch0 obs p c); [|exact F].
  apply reader_ok_at_cursor; [|exact Hb]. exists b. auto.
Qed.

Lemma reader_nil_iff_closed_witness :
  let cs := [CallAddToBuf [7]] in
  let es := [Read; Call (CallAddToBuf [1]); Read; Read;
             Call CallCloseBuf; Read] in
  Forall (fun o => snd o = None <-> fst o = true)
         [(false, Some [1]); (true, None)].
Proof.
  intros cs es.
  eapply (reader_nil_iff_closed zero_key cs _ es); reflexivity.
Defined.

Lemma offset_Next (j p : nat) :
  (j < 64)%nat -> (p < 64)%nat ->
  (j = p /\ (j + 64 - p) mod 64 = 0 /\ (j + 64 - Next p) mod 64 = 63)%nat
  \/ (j <> p /\ (j + 64 - p) mod 64 = S ((j + 64 - Next p) mod 64))%nat.
Proof.
  intros Hj Hp. unfold Next, RingSize.
  rewrite (mod64_cases (S p)) by lia.
  rewrite (mod64_cases (j + 64 - p)) by lia.
  destruct (Nat.ltb_spec (S p) 64).
  - rewrite (mod64_cases (j + 64 - S p)) by lia.
    destruct (Nat.ltb_spec (j + 64 - p) 64);
      destruct (Nat.ltb_spec (j + 64 - S p) 64); lia.
  - rewrite (mod64_cases (j + 64 - (S p - 64))) by lia.
    destruct (Nat.ltb_spec (j + 64 - p) 64);
      destruct (Nat.ltb_spec (j + 64 - (S p - 64)) 64); lia.
Qed.

(** [n <= 64] publications in a row: the cursor has moved on by [n], the
    [n] slots from the old cursor on hold the values in order, and the
    other slots are as they were. *)
Lemma publish_n (vals : list (list Z)) :
  forall (ch : Channel) (p : nat),
    buf ch = Some p -> (p < 64)%nat -> length (slots ch) = 64%nat ->
    (length vals <= 64)%nat ->
    exists ch',
      runs (map CallAddToBuf vals) ch = Some ch'
      /\ buf ch' = Some ((p + length vals) mod 64)%nat
      /\ length (slots ch') = 64%nat
      /\ ioerr ch' = ioerr ch
      /\ forall j, (j < 64)%nat ->
           nth j (slots ch') None
           = if ((j + 64 - p) mod 64 <? length vals)%nat
             then Some (nth ((j + 64 - p) mod 64) vals [])
             else nth j (slots ch) None.
Proof.
  induction vals as [|v vals IH]; intros ch p Hb Hp Hs Hn.
  - exists ch. cbn [map runs length]. rewrite Nat.add_0_r.
    rewrite Nat.mod_small by assumption. repeat split; auto.
  - cbn [length] in Hn. cbn [map runs run].
    rewrite (addToBuf_Ret v ch p Hb). cbn [state_after].
    set (ch1 := set_ring (Some (Next p)) (store p (Some v) (slots ch)) ch).
    assert (Hp1 : (Next p < 64)%nat)
      by (unfold Next, RingSize; apply Nat.mod_upper_bound; discriminate).
    destruct (IH ch1 (Next p) eq_refl Hp1
                 ltac:(cbn [ch1 slots set_ring]; rewrite store_length;
                       exact Hs)
                 ltac:(lia))
      as (ch' & R & B & L & E & SL).
    exists ch'. split; [exact R|]. split.
    { rewrite B. f_equal. unfold Next, RingSize. cbn [length].
      rewrite Nat.Div0.add_mod_idemp_l. f_equal. lia. }
    split; [exact L|]. split; [exact E|].
    intros j Hj. rewrite (SL j Hj). cbn [length ch1 slots set_ring].
    destruct (offset_Next j p Hj Hp) as [(-> & -> & ->)|(Hne & ->)].
    + rewrite nth_store_eq by lia.
      destruct (Nat.ltb_spec 63 (length vals)); [lia|]. reflexivity.
    + rewrite nth_store_neq by congruence.
      set (a := ((j + 64 - Next p) mod 64)%nat). cbn [nth].
      destruct (Nat.ltb_spec a (length vals));
        destruct (Nat.ltb_spec (S a) (S (length vals)));
        try lia; reflexivity.
Qed.

Lemma ring_offset (p i : nat) :
  (p < 64)%nat -> (i < 64)%nat ->
  ((p + i) mod 64 < 64 /\ ((p + i) mod 64 + 64 - p) mod 64 = i)%nat.
Proof.
  intros Hp Hi. rewrite (mod64_cases (p + i)) by lia.
  destruct (Nat.ltb_spec (p + i) 64).
  - rewrite (mod64_cases (p + i + 64 - p)) by lia.
    destruct (Nat.ltb_spec (p + i + 64 - p) 64); lia.
  - rewrite (mod64_cases (p + i - 64 + 64 - p)) by lia.
    destruct (Nat.ltb_spec (p + i - 64 + 64 - p) 64); lia.
Qed.

Lemma ring_offset_inj (p i n : nat) :
  (p < 64)%nat -> (i < 64)%nat -> (n < 64)%nat ->
  ((p + i) mod 64 = (p + n) mod 64)%nat -> i = n.
Proof.
  intros Hp Hi Hn E.
  destruct (ring_offset p i Hp Hi) as [_ <-].
  destruct (ring_offset p n Hp Hn) as [_ <-]. rewrite E. reflexivity.
Qed.

Lemma skipn_nth_cons {A} (i : nat) (l : list A) (d : A) :
  (i < length l)%nat -> skipn i l = nth i l d :: skipn (S i) l.
Proof.
  revert l. induction i as [|i IH]; intros [|x l] H; cbn [length] in H;
    try lia; [reflexivity|].
  cbn [skipn nth]. rewrite (IH l) by lia. reflexivity.
Qed.

Lemma read_n_window (ch : Channel) (p : nat) (vals : list (list Z)) :
  (p < 64)%nat -> (length vals < 64)%nat -> ioerr ch = false ->
  buf ch = Some ((p + length vals) mod 64)%nat ->
  (forall j, (j < 64)%nat ->
     ((j + 64 - p) mod 64 < length vals)%nat ->
     nth j (slots ch) None = Some (nth ((j + 64 - p) mod 64) vals [])) ->
  forall m i, (i + m <= length vals)%nat ->
    read_n m (Some ((p + i) mod 64)%nat) ch
    = (map Some (firstn m (skipn i vals)), Some ((p + i + m) mod 64)%nat).
Proof.
  intros Hp Hn Hio Hb Hs. induction m as [|m IH]; intros i H.
  - cbn [read_n firstn map]. rewrite Nat.add_0_r. reflexivity.
  - cbn [read_n]. unfold nextPtr. rewrite Hb, Hio. cbn [ptr_eqb negb].
    rewrite andb_true_r.
    destruct (Nat.eqb_spec ((p + i) mod 64) ((p + length vals) mod 64))
      as [E|_].
    { apply ring_offset_inj in E; lia. }
    destruct (ring_offset p i Hp ltac:(lia)) as [Hq Ho].
    rewrite (Hs _ Hq) by (rewrite Ho; lia). rewrite Ho.
    replace (Next ((p + i) mod 64)) with ((p + S i) mod 64)%nat.
    2:{ unfold Next, RingSize.
        replace (S ((p + i) mod 64)) with ((p + i) mod 64 + 1)%nat by lia.
        rewrite Nat.Div0.add_mod_idemp_l. f_equal. lia. }
    rewrite (IH (S i)) by lia.
    rewrite (skipn_nth_cons i vals []) by lia. cbn [firstn map].
    do 3 f_equal. lia.
Qed.

(** The ring is a first-in first-out window of 64 slots.  After [n]
    packets have been published on an open ring, a reader whose cursor
    was the writer's before them: for [n < 64], reads exactly these
    packets in their order and then waits at the writer's cursor; for
    [n = 64], finds the writer's cursor on its own again and waits, all 64
    packets lost to it. *)
Theorem ring_fifo (ch : Channel) (p : nat) (vals : list (list Z)) :
  buf ch = Some p -> (p < 64)%nat -> length (slots ch) = 64%nat ->
  ioerr ch = false -> (length vals <= 64)%nat ->
  exists ch',
    runs (map CallAddToBuf vals) ch = Some ch'
    /\ (length vals < 64 ->
        read_n (length vals) (Some p) ch' = (map Some vals, buf ch')
        /\ nextPtr (buf ch') ch' = Waits)%nat
    /\ (length vals = 64%nat ->
        buf ch' = Some p /\ nextPtr (Some p) ch' = Waits
        /\ read_n 1 (Some p) ch' = ([], Some p)).
Proof.
  intros Hb Hp Hs Hio Hn.
  destruct (publish_n vals ch p Hb Hp Hs Hn) as (ch' & R & B & L & E & SL).
  rewrite Hio in E.
  assert (W : forall q, buf ch' = Some q -> nextPtr (Some q) ch' = Waits).
  { intros q Hq. unfold nextPtr. rewrite Hq, E. cbn [ptr_eqb negb].
    rewrite Nat.eqb_refl. reflexivity. }
  exists ch'. split; [exact R|]. split.
  - intros Hlt.
    pose proof (read_n_window ch' p vals Hp Hlt E B) as RW.
    specialize (RW ltac:(intros j Hj Ho; rewrite (SL j Hj);
                        destruct (Nat.ltb_spec ((j + 64 - p) mod 64)
                                    (length vals)); [reflexivity|lia])).
    specialize (RW (length vals) 0%nat ltac:(lia)).
    rewrite Nat.add_0_r, Nat.mod_small in RW by assumption.
    cbn [skipn] in RW. rewrite firstn_all in RW.
    rewrite RW, B. split; [reflexivity|]. apply W, B.
  - intros H64. rewrite H64 in B.
    replace ((p + 64) mod 64)%nat with p in B.
    2:{ rewrite (mod64_cases (p + 64)) by lia.
        destruct (Nat.ltb_spec (p + 64) 64); lia. }
    split; [exact B|]. split; [apply W, B|].
    cbn [read_n]. rewrite (W p B). reflexivity.
Qed.

Lemma ring_fifo_witness :
  exists ch',
    runs (map CallAddToBuf [[1]; [2]; [3]]) (newChannel zero_key true)
    = Some ch'
    /\ ((3 < 64)%nat ->
        read_n 3 (Some 0%nat) ch' = (map Some [[1]; [2]; [3]], buf ch')
        /\ nextPtr (buf ch') ch' = Waits)
    /\ (3%nat = 64%nat ->
        buf ch' = Some 0%nat /\ nextPtr (Some 0%nat) ch' = Waits
        /\ read_n 1 (Some 0%nat) ch' = ([], Some 0%nat)).
Proof.
  apply (ring_fifo (newChannel zero_key true) 0 [[1]; [2]; [3]]);
    try reflexivity; cbn; lia.
Defined.

(** ** The engine loops *)

Lemma closeBuf_Ret_inv (ch ch' : Channel) (u : unit) :
  closeBuf ch = Ret u ch' -> ch' = set_ioerr ch.
Proof.
  unfold closeBuf, bind, get, modify. destruct (buf ch); [|discriminate].
  intros H. congruence.
Qed.

Lemma closeBuf_not_Err (ch : Channel) e ch' : closeBuf ch <> Err e ch'.
Proof.
  unfold closeBuf, bind, get, modify. destruct (buf ch); discriminate.
Qed.

Lemma handleDatagram_ioerr (data : list Z) (x : bool) :
  preserves (fun c => ioerr c = x) (handleDatagram data).
Proof. apply handleDatagram_preserves; intros; assumption. Qed.

Lemma decryptHTTP_turn_Ret (r : option (list Z)) (ch ch' : Channel)
      (t : turn) :
  decryptHTTP_turn r ch = Ret t ch' ->
  match t with
  | Continue => ioerr ch' = ioerr ch
  | Stopped _ => ioerr ch' = true
  end.
Proof.
  unfold decryptHTTP_turn. intros R.
  assert (C : forall c cause,
            (closeBuf ;;; ret (Stopped cause)) c = Ret t ch' ->
            match t with
            | Continue => ioerr ch' = ioerr ch
            | Stopped _ => ioerr ch' = true
            end).
  { intros c cause H. apply bind_Ret in H as (u & c1 & H1 & H2).
    apply closeBuf_Ret_inv in H1 as ->.
    apply ret_Ret in H2 as [-> ->]. reflexivity. }
  destruct r as [data|]; [|eapply C; eassumption].
  pose proof (handleDatagram_ioerr data (ioerr ch) ch eq_refl) as K.
  destruct (handleDatagram data ch) as [a c1|e c1| |]; try discriminate.
  - assert (t = Continue /\ ch' = c1) as [-> ->] by (split; congruence).
    exact K.
  - eapply C; eassumption.
Qed.

Lemma decryptHTTP_turn_not_Err (r : option (list Z)) (ch : Channel) e ch' :
  decryptHTTP_turn r ch <> Err e ch'.
Proof.
  assert (C : forall c cause,
            (closeBuf ;;; ret (Stopped cause)) c <> Err e ch').
  { intros c cause H. apply bind_Err in H as [H|(u & c1 & _ & H)].
    - exact (closeBuf_not_Err _ _ _ H).
    - discriminate. }
  unfold decryptHTTP_turn. destruct r as [data|]; [|apply C].
  destruct (handleDatagram data ch); try discriminate. apply C.
Qed.

(** The loop of [decryptHTTP] never returns an error of its own: it goes
    on, or it stops.  When it has stopped, on a failed read or on the
    first datagram that the framer or the packet walk refuses, the ring is
    closed, and the datagrams that follow are not looked at; as long as it
    goes on the ring stays as open or closed as it was. *)
Theorem decryptHTTP_loop_stops (reads : list (option (list Z)))
        (ch ch' : Channel) (t : turn) :
  decryptHTTP_loop reads ch = Ret t ch' ->
  match t with
  | Continue => ioerr ch' = ioerr ch
  | Stopped _ =>
      ioerr ch' = true
      /\ forall more, decryptHTTP_loop (reads ++ more) ch = Ret t ch'
  end
  /\ forall rs c e c', decryptHTTP_loop rs c <> Err e c'.
Proof.
  intros R. split.
  - revert ch R. induction reads as [|r reads IH]; intros ch R;
      cbn [decryptHTTP_loop] in R.
    + apply ret_Ret in R as [-> ->]. reflexivity.
    + apply bind_Ret in R as (t1 & ch1 & H1 & R).
      pose proof (decryptHTTP_turn_Ret r ch ch1 t1 H1) as K.
      destruct t1 as [|cause].
      * specialize (IH ch1 R). destruct t as [|cause].
        -- congruence.
        -- destruct IH as [I1 I2]. split; [exact I1|].
           intros more. cbn [app decryptHTTP_loop]. unfold bind.
           rewrite H1. apply I2.
      * apply ret_Ret in R as [-> ->]. split; [exact K|].
        intros more. cbn [app decryptHTTP_loop]. unfold bind.
        rewrite H1. reflexivity.
  - clear. induction rs as [|r rs IH]; intros c e c';
      cbn [decryptHTTP_loop].
    + discriminate.
    + intros H. apply bind_Err in H as [H|(t1 & c1 & _ & H)].
      * exact (decryptHTTP_turn_not_Err _ _ _ _ H).
      * destruct t1; [exact (IH _ _ _ H)|discriminate].
Qed.

Lemma decryptHTTP_loop_stops_witness :
  let ch := newChannel zero_key true in
  let reads := [Some datagram_sample; Some [0]; Some datagram_sample] in
  exists ch',
    decryptHTTP_loop reads ch = Ret (Stopped (Some (RtpVersion 0))) ch'
    /\ (ioerr ch' = true
        /\ forall more,
             decryptHTTP_loop (reads ++ more) ch
             = Ret (Stopped (Some (RtpVersion 0))) ch')
    /\ forall rs c e c', decryptHTTP_loop rs c <> Err e c'.
Proof.
  intros ch reads. eexists. split; [vm_compute; reflexivity|].
  apply (decryptHTTP_loop_stops reads ch _ (Stopped (Some (RtpVersion 0)))).
  vm_compute. reflexivity.
Defined.

(** What the unicast engine hands to its destination: a datagram of the
    length received, with the twelve bytes of the fixed RTP header as they
    came; the channel of such an engine has no ring and gets none. *)
Theorem decryptRTP_turn_writes (data out : list Z) (ch ch' : Channel) :
  (1 <= length data <= 1500)%nat ->
  http ch = false ->
  decryptRTP_turn (Some data) ch = Ret (Some out) ch' ->
  length out = length data
  /\ firstn 12 out = firstn 12 data
  /\ buf ch' = buf ch /\ slots ch' = slots ch.
Proof.
  intros Hlen Hh R. unfold decryptRTP_turn in R.
  destruct (handleDatagram data ch) as [payload c1|e c1| |] eqn:H;
    try discriminate.
  assert (out = elems payload /\ ch' = c1) as [-> ->]
    by (split; congruence).
  unfold handleDatagram in H. cbv zeta in H.
  apply bind_Ret in H as (off & c0 & HP & HR).
  pose proof (parseRTP_on_buffer data ch Hlen) as E. cbv zeta in E.
  rewrite E in HP. destruct (negb _); [discriminate|].
  assert (Hoff : 12 <= off).
  { assert (off = 12 + (if Z.land (Z.shiftr (nth 0 data 0) 4) 1 >? 0
                        then 4 + u16 (u16be (nth 14 (in_buffer data) 0)
                                            (nth 15 (in_buffer data) 0) * 4)
                        else 0)) as -> by congruence.
    destruct (_ >? 0); [|lia]. unfold u16.
    pose proof (Z.mod_pos_bound
                  (u16be (nth 14 (in_buffer data) 0)
                         (nth 15 (in_buffer data) 0) * 4) 65536
                  ltac:(lia)). lia. }
  assert (Hc0 : http c0 = false /\ buf c0 = buf ch /\ slots c0 = slots ch).
  { assert (c0 = set_lastRTPSeq
                   (u16be (nth 2 (in_buffer data) 0)
                          (nth 3 (in_buffer data) 0))
                   (if firstPkt ch
                    then set_rtp (u16 (u16be (nth 2 (in_buffer data) 0)
                                             (nth 3 (in_buffer data) 0) - 1))
                                 ch
                    else ch)) as -> by congruence.
    destruct (firstPkt ch); cbn; auto. }
  destruct Hc0 as (Hh0 & Hb0 & Hs0).
  apply processRTP_walked in HR
    as (_ & n & L1 & L2 & L3 & _ & _ & _ & L7).
  cbn [received elems] in *. rewrite Hh0 in L7. destruct L7 as [B S].
  split; [exact L2|]. split; [|split; congruence].
  assert (F : forall l : list Z,
            firstn 12 l = firstn 12 (firstn (Z.to_nat off) l)).
  { intros l. rewrite firstn_firstn. f_equal. lia. }
  rewrite (F (elems payload)), (F data), L3. reflexivity.
Qed.

Lemma decryptRTP_turn_writes_witness :
  exists out ch',
    decryptRTP_turn (Some datagram_sample) (newChannel zero_key false)
    = Ret (Some out) ch'
    /\ length out = length datagram_sample
    /\ firstn 12 out = firstn 12 datagram_sample
    /\ buf ch' = buf (newChannel zero_key false)
    /\ slots ch' = slots (newChannel zero_key false).
Proof.
  eexists. eexists. split; [vm_compute; reflexivity|].
  apply (decryptRTP_turn_writes datagram_sample _
           (newChannel zero_key false));
    [cbn; lia|reflexivity|vm_compute; reflexivity].
Defined.

(** ** What the PSI walker never does again *)

Lemma pres_get_bind {B} P (k : Channel -> M B) :
  (forall c, P c -> preserves P (k c)) -> preserves P (bind get k).
Proof. intros H ch Hc. unfold bind, get. apply H; exact Hc. Qed.

Lemma land_8191_range (v : Z) : 0 <= Z.land v 8191 <= 8191.
Proof.
  change 8191 with (Z.ones 13) at 1 2. rewrite Z.land_ones by lia.
  change (2 ^ 13) with 8192.
  pose proof (Z.mod_pos_bound v 8192 ltac:(lia)). lia.
Qed.

Lemma processPayload_simple P pid pkt :
  (forall a b ch, P ch -> P (set_keys a b ch)) ->
  (forall b sl ch, P ch -> P (set_ring b sl ch)) ->
  preserves P (processPayload pid pkt).
Proof.
  intros K R. apply processPayload_preserves.
  - intros a b ch _ _. apply K.
  - exact R.
Qed.

(** Once the PMT PID is known no packet changes it. *)
Lemma processPacket_pmt_latched (a : Z) (pkt : slice) :
  preserves (fun c => pmtPidFound c = true /\ pmtPid c = a)
            (processPacket pkt).
Proof.
  unfold processPacket.
  apply pres_bind; [pres|intro]. destruct (negb _); [pres|].
  apply pres_bind; [pres|intro]. apply pres_bind; [pres|intro v].
  cbv zeta.
  apply pres_get_bind. intros c [Hf Hp]. rewrite Hf. cbn [negb andb].
  apply pres_bind; [pres|intros _].
  apply pres_bind; [pres|intro c1].
  apply pres_bind.
  - apply pres_if_ret, processPMT_preserves. intros ? ? H. exact H.
  - intros _. apply processPayload_simple; intros; assumption.
Qed.

(** Once the ECM PID is known no packet changes it. *)
Lemma processPacket_ecm_latched (b : Z) (pkt : slice) :
  preserves (fun c => ecmPidFound c = true /\ ecmPid c = b)
            (processPacket pkt).
Proof.
  unfold processPacket.
  apply pres_bind; [pres|intro]. destruct (negb _); [pres|].
  apply pres_bind; [pres|intro]. apply pres_bind; [pres|intro v].
  cbv zeta.
  apply pres_bind; [pres|intro c0].
  apply pres_bind.
  { apply pres_if_ret, processPAT_preserves. intros ? ? H. exact H. }
  intros _.
  apply pres_get_bind. intros c [Hf Hp]. rewrite Hf. cbn [negb andb].
  apply pres_bind; [pres|intros _].
  apply processPayload_simple; intros; assumption.
Qed.

(** The PIDs are latched: whatever the engine reads after the PMT PID has
    been found, [pmtPid] keeps its value, and likewise [ecmPid] once it has
    been found; a later PAT or PMT that announces other PIDs is not
    followed. *)
Theorem psi_latched (reads : list (option (list Z))) (ch ch' : Channel)
        (t : turn) :
  decryptHTTP_loop reads ch = Ret t ch' ->
  (pmtPidFound ch = true ->
   pmtPidFound ch' = true /\ pmtPid ch' = pmtPid ch)
  /\ (ecmPidFound ch = true ->
      ecmPidFound ch' = true /\ ecmPid ch' = ecmPid ch).
Proof.
  intros R. split; intros F.
  - apply (state_after_preserves
             (fun c => pmtPidFound c = true /\ pmtPid c = pmtPid ch)
             (decryptHTTP_loop reads) ch ch'); [|auto|rewrite R; reflexivity].
    apply decryptHTTP_loop_keeps.
    + intro. apply parseRTP_preserves; intros; assumption.
    + apply processPacket_pmt_latched.
    + apply closeBuf_preserves. intros; assumption.
  - apply (state_after_preserves
             (fun c => ecmPidFound c = true /\ ecmPid c = ecmPid ch)
             (decryptHTTP_loop reads) ch ch'); [|auto|rewrite R; reflexivity].
    apply decryptHTTP_loop_keeps.
    + intro. apply parseRTP_preserves; intros; assumption.
    + apply processPacket_ecm_latched.
    + apply closeBuf_preserves. intros; assumption.
Qed.

Lemma psi_latched_witness :
  exists ch0 ch',
    decryptHTTP_loop [Some datagram_sample] (newChannel zero_key true)
    = Ret Continue ch0
    /\ decryptHTTP_loop [Some datagram_pat_moved] ch0 = Ret Continue ch'
    /\ pmtPid ch' = 256 /\ ecmPid ch' = 291.
Proof.
  let o := eval vm_compute in
             (decryptHTTP_loop [Some datagram_sample]
                               (newChannel zero_key true)) in
  lazymatch o with
  | Ret _ ?c0 =>
      let o' := eval vm_compute in
                  (decryptHTTP_loop [Some datagram_pat_moved] c0) in
      lazymatch o' with
      | Ret _ ?c1 =>
          exists c0, c1;
          split; [vm_compute; reflexivity|];
          split; [vm_compute; reflexivity|];
          destruct (psi_latched [Some datagram_pat_moved] c0 c1 Continue)
            as [A B]; [vm_compute; reflexivity|]
      end
  end.
  destruct (A eq_refl) as [_ A']. destruct (B eq_refl) as [_ B'].
  split; [exact A'|exact B'].
Defined.

(** ** The ECM PID is compared unmasked *)

Lemma processPacket_ecm_out_of_reach (k1 k2 : option (list Z)) (pkt : slice) :
  preserves (fun c => (ecmPidFound c = true /\ 8191 < ecmPid c)
                      /\ aesKey1 c = k1 /\ aesKey2 c = k2)
            (processPacket pkt).
Proof.
  unfold processPacket.
  apply pres_bind; [pres|intro]. destruct (negb _); [pres|].
  apply pres_bind; [pres|intro]. apply pres_bind; [pres|intro v].
  cbv zeta.
  apply pres_bind; [pres|intro c0].
  apply pres_bind.
  { apply pres_if_ret, processPAT_preserves. intros ? ? H. exact H. }
  intros _.
  apply pres_get_bind. intros c [[Hf Hp] _]. rewrite Hf. cbn [negb andb].
  apply pres_bind; [pres|intros _].
  unfold processPayload.
  apply pres_get_bind. intros c1 [[Hf1 Hp1] _]. rewrite Hf1. cbn [andb].
  pose proof (land_8191_range v) as Hr.
  replace (Z.land v 8191 =? ecmPid c1) with false
    by (symmetry; apply Z.eqb_neq; lia).
  apply pres_bind; [pres|intros _].
  apply pres_bind; [apply decryptPacket_preserves|intro].
  apply pres_bind; [pres|intro c2].
  apply pres_bind; [|intro; pres].
  destruct (http c2); [apply addToBuf_preserves|pres].
  intros ? ? ? H. exact H.
Qed.

(** The ECM PID is taken from the CA descriptor as the whole 16-bit field,
    while the PID of every packet is masked to 13 bits.  When the field
    carries any of its three upper bits, as with the reserved bits set, no
    packet is ever taken for an ECM: whatever the engine reads, the working
    keys stay as they were. *)
Theorem ecm_pid_unmasked (reads : list (option (list Z))) (ch ch' : Channel)
        (t : turn) :
  ecmPidFound ch = true ->
  8191 < ecmPid ch ->
  decryptHTTP_loop reads ch = Ret t ch' ->
  aesKey1 ch' = aesKey1 ch /\ aesKey2 ch' = aesKey2 ch.
Proof.
  intros F G R.
  apply (state_after_preserves
           (fun c => (ecmPidFound c = true /\ 8191 < ecmPid c)
                     /\ aesKey1 c = aesKey1 ch /\ aesKey2 c = aesKey2 ch)
           (decryptHTTP_loop reads) ch ch');
    [|auto|rewrite R; reflexivity].
  apply decryptHTTP_loop_keeps.
  - intro. apply parseRTP_preserves; intros; assumption.
  - apply processPacket_ecm_out_of_reach.
  - apply closeBuf_preserves. intros; assumption.
Qed.

Lemma ecm_pid_unmasked_witness :
  exists ch0 ch',
    decryptHTTP_loop [Some datagram_reserved_bits] (newChannel zero_key true)
    = Ret Continue ch0
    /\ ecmPid ch0 = 57635
    /\ decryptHTTP_loop [Some datagram_ecm] ch0 = Ret Continue ch'
    /\ aesKey1 ch' = None /\ aesKey2 ch' = None.
Proof.
  let o := eval vm_compute in
             (decryptHTTP_loop [Some datagram_reserved_bits]
                               (newChannel zero_key true)) in
  lazymatch o with
  | Ret _ ?c0 =>
      let o' := eval vm_compute in
                  (decryptHTTP_loop [Some datagram_ecm] c0) in
      lazymatch o' with
      | Ret _ ?c1 =>
          exists c0, c1;
          split; [vm_compute; reflexivity|];
          split; [reflexivity|];
          split; [vm_compute; reflexivity|];
          apply (ecm_pid_unmasked [Some datagram_ecm] c0 c1 Continue);
          [reflexivity|cbn; lia|vm_compute; reflexivity]
      end
  end.
Defined.

(** ** The master key *)

Lemma Decode_length (src : list Ascii.ascii) :
  Forall hex_digit src ->
  length (fst (hex.Decode src)) = Nat.div2 (length src).
Proof.
  revert src.
  fix IH 1. intros [|p [|q rest]] H.
  - reflexivity.
  - cbn [hex.Decode]. destruct (hex.fromHexChar p); reflexivity.
  - inversion H as [|? ? Hp H']; subst. inversion H' as [|? ? Hq H'']; subst.
    cbn [hex.Decode].
    destruct (hex.fromHexChar p) eqn:Ep; [|elim Hp; exact Ep].
    destruct (hex.fromHexChar q) eqn:Eq; [|elim Hq; exact Eq].
    specialize (IH rest H''). destruct (hex.Decode rest) as [bs e].
    cbn [fst length Nat.div2] in *. rewrite IH. reflexivity.
Qed.

Lemma NewCipher_None (key : list Z) :
  aes.NewCipher key = None <-> ~ In (length key) [16; 24; 32]%nat.
Proof.
  unfold aes.NewCipher. split.
  - intros H [E|[E|[E|[]]]]; rewrite <- E in H; discriminate.
  - intros H. generalize dependent (length key). intros n H.
    do 33 (destruct n as [|n]; [try reflexivity; elim H; cbn; auto|]).
    reflexivity.
Qed.

(** The errors of [hex.DecodeString] and [aes.NewCipher] are dropped, so the
    master key decides whether the ECM processor can run at all.  With a
    master key of hexadecimal digits, the processor panics on a 188-byte
    packet exactly when half the number of digits (rounded down: an odd last
    digit is ignored) is not 16, 24 or 32; otherwise it returns, with the
    keys installed or with the magic error. *)
Theorem processECM_master_key (pkt : slice) (ch : Channel) :
  length (elems pkt) = 188%nat ->
  Forall hex_digit (String.list_ascii_of_string (masterKey ch)) ->
  (processECM pkt ch = Panic
   <-> ~ In (Nat.div2 (String.length (masterKey ch))) [16; 24; 32]%nat)
  /\ (processECM pkt ch <> Panic ->
      exists ch', processECM pkt ch = Ret tt ch'
                  \/ (processECM pkt ch = Err EcmMagic ch' /\ ch' = ch)).
Proof.
  intros L H.
  assert (D : length (fst (hex.DecodeString (masterKey ch)))
              = Nat.div2 (String.length (masterKey ch))).
  { unfold hex.DecodeString. rewrite Decode_length by exact H.
    f_equal. clear. induction (masterKey ch) as [|c s IH];
      [reflexivity|cbn; f_equal; exact IH]. }
  rewrite <- D.
  destruct (aes.NewCipher (fst (hex.DecodeString (masterKey ch))))
    as [c|] eqn:E.
  - assert (NP : processECM pkt ch <> Panic).
    { rewrite (processECM_spec pkt ch c L E). cbv zeta.
      destruct (has_magic _); [destruct (_ =? 129)|]; discriminate. }
    split.
    + split; [intros P; elim NP; exact P|].
      intros N. apply NewCipher_None in N. congruence.
    + intros _. rewrite (processECM_spec pkt ch c L E). cbv zeta.
      destruct (has_magic _); [destruct (_ =? 129)|];
        eexists; (left; reflexivity) || (right; split; reflexivity).
  - pose proof (processECM_bad_key pkt ch E) as P. split.
    + split; [intros _; apply NewCipher_None; exact E|intros _; exact P].
    + intros NP. elim NP. exact P.
Qed.

Lemma processECM_master_key_witness :
  processECM (sample_ecm 129) (newChannel long_key true) <> Panic
  /\ processECM (sample_ecm 129) (newChannel short_key true) = Panic.
Proof.
  split.
  - intros P.
    apply (proj1 (processECM_master_key (sample_ecm 129)
                    (newChannel long_key true) eq_refl
                    ltac:(repeat constructor; discriminate))) in P.
    apply P. vm_compute. auto.
  - apply (proj1 (processECM_master_key (sample_ecm 129)
                    (newChannel short_key true) eq_refl
                    ltac:(repeat constructor; discriminate))).
    vm_compute. intuition discriminate.
Defined.

(** ** The registry of running channels *)

Lemma upd_same {V} (k : String.string) (v : V) m : upd k v m k = v.
Proof. unfold upd. rewrite String.eqb_refl. reflexivity. Qed.

Lemma upd_other {V} (k k' : String.string) (v : V) m :
  k <> k' -> upd k v m k' = m k'.
Proof.
  intros N. unfold upd. destruct (String.eqb k k') eqn:E; [|reflexivity].
  apply String.eqb_eq in E. contradiction.
Qed.

Lemma decryptHTTP_loop_numClients (reads : list (option (list Z)))
      (ch ch' : Channel) :
  state_after (decryptHTTP_loop reads ch) = Some ch' ->
  numClients ch' = numClients ch /\ http ch' = http ch.
Proof.
  intros R.
  apply (state_after_preserves
           (fun c => numClients c = numClients ch /\ http c = http ch)
           (decryptHTTP_loop reads) ch ch'); [|auto|exact R].
  apply decryptHTTP_loop_keeps.
  - intro. apply parseRTP_preserves; intros; assumption.
  - intro. apply processPacket_preserves; intros; assumption.
  - apply closeBuf_preserves. intros; assumption.
Qed.

Lemma serve_registry_ok (r : request) (s s' : server)
      (n n' : String.string -> nat) :
  registry_ok s n ->
  serve r s = Some s' ->
  serving [r] n = Some n' ->
  registry_ok s' n'.
Proof.
  intros I S N a. destruct r as [i|i|b reads]; cbn [serve serving] in S, N.
  - injection S as <-. injection N as <-.
    unfold chHandler_enter. cbv zeta.
    pose proof (I (ChannelInfo.addr i)) as Ia.
    destruct (String.string_dec (ChannelInfo.addr i) a) as [<-|D].
    + destruct (runningChannels s (ChannelInfo.addr i)) as [ch|];
        cbn [runningChannels engines]; rewrite !upd_same.
      * destruct Ia as (A & B & C & H). cbn [numClients set_numClients http].
        repeat split; [lia|lia|exact C|exact H].
      * destruct Ia as (A & B). cbn. rewrite B. repeat split; lia.
    + pose proof (I a) as Ib.
      destruct (runningChannels s (ChannelInfo.addr i));
        cbn [runningChannels engines]; rewrite !upd_other by exact D;
        exact Ib.
  - injection S as <-. cbv zeta in N.
    pose proof (I (ChannelInfo.addr i)) as Ia.
    destruct (n (ChannelInfo.addr i)) as [|k] eqn:K; [discriminate|].
    injection N as <-. unfold chHandler_leave. cbv zeta.
    destruct (runningChannels s (ChannelInfo.addr i)) as [ch|] eqn:E;
      [|destruct Ia; discriminate].
    destruct Ia as (A & B & C & H). cbn [numClients set_numClients].
    destruct (String.string_dec (ChannelInfo.addr i) a) as [<-|D].
    + destruct (numClients ch - 1 =? 0) eqn:Z0;
        cbn [runningChannels engines]; rewrite !upd_same.
      * apply Z.eqb_eq in Z0. rewrite C. split; [lia|reflexivity].
      * apply Z.eqb_neq in Z0. cbn [numClients set_numClients http].
        repeat split; [lia|lia|exact C|exact H].
    + pose proof (I a) as Ib.
      destruct (numClients ch - 1 =? 0);
        cbn [runningChannels engines]; rewrite !upd_other by exact D;
        exact Ib.
  - injection N as <-. pose proof (I b) as Ib. pose proof (I a) as Ia.
    destruct (runningChannels s b) as [ch|] eqn:E;
      [|injection S as <-; exact Ia].
    destruct (ioerr ch); [injection S as <-; exact Ia|].
    destruct (state_after (decryptHTTP_loop reads ch)) as [ch'|] eqn:R;
      [|discriminate].
    injection S as <-. cbn [runningChannels engines].
    apply decryptHTTP_loop_numClients in R as [R1 R2].
    destruct (String.string_dec b a) as [<-|D].
    + rewrite upd_same. rewrite R1, R2. exact Ib.
    + rewrite upd_other by exact D. exact Ia.
Qed.

Lemma serving_cons (r : request) (rs : list request)
      (n n' : String.string -> nat) :
  serving (r :: rs) n = Some n' ->
  exists n1, serving [r] n = Some n1 /\ serving rs n1 = Some n'.
Proof.
  destruct r as [i|i|b reads]; cbn [serving]; cbv zeta.
  - intros H. eexists. split; [reflexivity|exact H].
  - destruct (n (ChannelInfo.addr i)); [discriminate|].
    intros H. eexists. split; [reflexivity|exact H].
  - intros H. eexists. split; [reflexivity|exact H].
Qed.

Lemma serve_all_registry_ok (rs : list request) :
  forall s s' n n',
    registry_ok s n ->
    serve_all rs s = Some s' ->
    serving rs n = Some n' ->
    registry_ok s' n'.
Proof.
  induction rs as [|r rs IH]; intros s s' n n' I S N.
  - cbn in S, N. injection S as <-. injection N as <-. exact I.
  - cbn [serve_all] in S. destruct (serve r s) as [s1|] eqn:E; [|discriminate].
    apply serving_cons in N as (n1 & N1 & N2).
    eapply IH; [|exact S|exact N2].
    eapply serve_registry_ok; eassumption.
Qed.

(** The reference count of [chHandler]: however handlers enter and leave
    and whatever the engines read meanwhile, as long as the process lives a
    multicast address is in [runningChannels] exactly while handlers are
    being served on it, [numClients] of its channel is their number, and
    exactly one engine runs for it (none for an address without clients). *)
Theorem registry_refcount (rs : list request) (s : server)
        (n : String.string -> nat) (a : String.string) :
  serve_all rs server_start = Some s ->
  serving rs (fun _ => 0%nat) = Some n ->
  match runningChannels s a with
  | None => n a = 0%nat /\ engines s a = 0%nat
  | Some ch => numClients ch = Z.of_nat (n a) /\ (0 < n a)%nat
               /\ engines s a = 1%nat /\ http ch = true
  end.
Proof.
  intros S N.
  apply (serve_all_registry_ok rs server_start s (fun _ => 0%nat) n);
    [|exact S|exact N].
  intros b. cbn. split; reflexivity.
Qed.

Lemma registry_refcount_witness :
  let rs := [Enter info_one; Enter info_two; Enter info_one;
             Reads (ChannelInfo.addr info_one) [Some datagram_sample];
             Leave info_two; Leave info_one] in
  exists s n,
    serve_all rs server_start = Some s
    /\ serving rs (fun _ => 0%nat) = Some n
    /\ n (ChannelInfo.addr info_one) = 1%nat
    /\ match runningChannels s (ChannelInfo.addr info_one) with
       | None => n (ChannelInfo.addr info_one) = 0%nat
                 /\ engines s (ChannelInfo.addr info_one) = 0%nat
       | Some ch => numClients ch = Z.of_nat (n (ChannelInfo.addr info_one))
                    /\ (0 < n (ChannelInfo.addr info_one))%nat
                    /\ engines s (ChannelInfo.addr info_one) = 1%nat
                    /\ http ch = true
       end.
Proof.
  intros rs.
  let o := eval vm_compute in (serve_all rs server_start) in
  let c := eval vm_compute in (serving rs (fun _ => 0%nat)) in
  lazymatch o with
  | Some ?s0 =>
      lazymatch c with
      | Some ?n0 =>
          exists s0, n0;
          split; [vm_compute; reflexivity|];
          split; [vm_compute; reflexivity|];
          split; [reflexivity|];
          apply (registry_refcount rs s0 n0 (ChannelInfo.addr info_one));
          vm_compute; reflexivity
      end
  end.
Defined.

(** ** The channel listing *)

Section ListingFacts.

Variable float64 : Type.
Variable PathEscape : String.string -> String.string.

Lemma fetchChannels_entry_keeps (c : value float64) channels channels'
      (k : String.string) :
  fetchChannels_entry PathEscape c channels = Some channels' ->
  (channels k <> None -> channels' k <> None)
  /\ (stored_name PathEscape c <> Some k -> channels' k = channels k).
Proof.
  unfold fetchChannels_entry, stored_name.
  destruct c as [| | | |v|]; try discriminate.
  destruct (nth_error v 0) as [[| | |name| |]|]; try discriminate.
  destruct (nth_error v 1) as [[| | |addr| |]|]; try discriminate.
  destruct (nth_error v 2) as [[| | |key| |]|]; try discriminate;
    try (intros [= <-]; split; auto).
  destruct (String.length addr <? 7)%nat; [discriminate|].
  intros [= <-]. split.
  - intros H. unfold upd. destruct (String.eqb _ _); [discriminate|exact H].
  - intros N. apply upd_other. intros E. apply N. rewrite E. reflexivity.
Qed.

Lemma fetchChannels_loop_keeps (all : list (value float64))
      (k : String.string) :
  forall channels channels',
    fetchChannels_loop PathEscape all channels = Some channels' ->
    (channels k <> None -> channels' k <> None)
    /\ ((forall c, In c all -> stored_name PathEscape c <> Some k) ->
        channels' k = channels k).
Proof.
  induction all as [|c rest IH]; intros channels channels' H;
    cbn [fetchChannels_loop] in H.
  - injection H as <-. split; auto.
  - destruct (fetchChannels_entry PathEscape c channels) as [ch1|] eqn:E;
      [|discriminate].
    destruct (fetchChannels_entry_keeps c channels ch1 k E) as [A B].
    destruct (IH ch1 channels' H) as [A' B']. split.
    + auto.
    + intros N. rewrite B' by (intros c' I; apply N; right; exact I).
      apply B. apply N. left. reflexivity.
Qed.

End ListingFacts.

Local Open Scope string_scope.

(** A refresh of the listing only adds and overwrites.  When
    [fetchChannels] returns, every channel name known before is still
    known, also one that the new listing has dropped, and a name that no
    entry with a string key escapes to keeps the address and master key it
    had; entries whose key is not a string leave the table alone. *)
Theorem fetchChannels_accumulates (float64 : Type)
        (PathEscape : String.string -> String.string)
        (f : value float64) (all : list (value float64))
        (m : String.string -> option (value float64))
        (channels channels' : String.string -> option ChannelInfo.t)
        (k : String.string) :
  f = VMap m ->
  m "channels" = Some (VArray all) ->
  fetchChannels PathEscape f channels = Some channels' ->
  (channels k <> None -> channels' k <> None)
  /\ ((forall c, In c all -> stored_name PathEscape c <> Some k) ->
      channels' k = channels k).
Proof.
  intros -> M H. unfold fetchChannels in H. rewrite M in H.
  exact (fetchChannels_loop_keeps float64 PathEscape all k channels channels' H).
Qed.

Lemma fetchChannels_accumulates_witness :
  exists channels',
    fetchChannels (fun s => s) listing_sample channels_sample = Some channels'
    /\ channels' "Old" = Some info_two
    /\ channels' "One" = Some (ChannelInfo.mk "239.0.0.1:5000" zero_key)
    /\ channels' "Two" = None.
Proof.
  let o := eval vm_compute in
             (fetchChannels (fun s => s) listing_sample channels_sample) in
  lazymatch o with
  | Some ?c0 =>
      exists c0;
      split; [vm_compute; reflexivity|];
      split; [|split; reflexivity];
      destruct (fetchChannels_accumulates unit (fun s => s) listing_sample
                  listing_entries listing_map channels_sample c0 "Old"
                  eq_refl eq_refl ltac:(vm_compute; reflexivity)) as [_ B]
  end.
  rewrite B; [reflexivity|].
  intros c [<-|[<-|[]]]; vm_compute; discriminate.
Defined.

Local Close Scope string_scope.
